(** * Image positioning for reveal.js slides: a model of [positionImage]

    The plugin [plugin/position-images/position-images.js] places an [IMG]
    inside a [div.img-container] from the keywords of its class list and can
    scale it to the container.  Two revisions of the plugin are in the
    repository:

    - [position-images.js]: scales only when the class [maximize] (or
      [maximise]) is present and writes [style.top] / [style.left] only when
      a keyword asks for it;
    - the later revision (kept here as [Part000]): scales when the class
      [fit-to-container] is present or when the image overflows its
      container, and always writes [style.top] and [style.left].

    Both are embedded below, next to the helper that turns a computed-style
    string into pixels ([parseCSSValue], renamed [computeCSSValue] in the
    later revision).  The repository also keeps the first, inline form of
    the plugin; it has the helper and the loop of position-images.js and is
    not embedded separately. *)

From Stdlib Require Import ZArith QArith Qabs Qround Qpower Qreduction.
From Stdlib Require Import Lia Lqa Bool List.
From Stdlib Require Import String Ascii DecimalString.
From Stdlib Require Floats.SpecFloat Qcanon DecimalPos.
Import ListNotations.

Local Open Scope Z_scope.

(** ** JavaScript numbers

    A JavaScript number is an IEEE 754 binary64 value.  The finite ones are
    carried by the rational they denote; every arithmetic operation computes
    the exact rational result and rounds it to the nearest binary64 value,
    ties to even, which is how IEEE 754 defines the operation.

    The sign of zero is not kept.  In the code modelled here every divisor is
    an integer attribute of the DOM ([img.width], [clientWidth], ...) or the
    literal [100], so no division by a negative zero occurs, and [>> 0] and
    [>] do not tell the two zeros apart. *)

Inductive number : Type :=
| NaN : number
| Inf (negative : bool) : number
| Fin (q : Q) : number.

(** [Qpow2 k] is the rational 2^k, for any integer k. *)
Definition Qpow2 (k : Z) : Q := (2 ^ k)%Q.

(** floor (log2 x) for a positive rational [x]. *)
Definition ilog2 (x : Q) : Z :=
  let k := Z.log2 (Qnum x) - Z.log2 (Zpos (Qden x)) in
  if Qle_bool (Qpow2 k) x then k else k - 1.

(** Nearest integer, ties to the even one. *)
Definition round_half_even (x : Q) : Z :=
  let f := Qfloor x in
  match Qcompare (x - inject_Z f)%Q (1 # 2)%Q with
  | Lt => f
  | Gt => f + 1
  | Eq => if Z.even f then f else f + 1
  end.

Definition Qneg (x : Q) : bool := Qnum x <? 0.

(** Exponent of the last place of the binary64 value nearest to [x]:
    53 significant bits, and no finer than 2^-1074 (subnormal range). *)
Definition ulp_exp (x : Q) : Z := Z.max (ilog2 (Qabs x) - 52) (-1074).

(** Rounding of an exact result to binary64: round to nearest, ties to even,
    overflow to the infinity of the same sign. *)
Definition round_to_double (x : Q) : number :=
  if Qeq_bool x 0%Q then Fin 0%Q
  else
    let e := ulp_exp x in
    let m := round_half_even (x * Qpow2 (- e))%Q in
    let y := (inject_Z m * Qpow2 e)%Q in
    if Qle_bool (Qpow2 1024) (Qabs y) then Inf (Qneg x) else Fin (Qred y).

Definition of_Z (z : Z) : number := round_to_double (inject_Z z).

(** [a / b] *)
Definition fdiv (a b : number) : number :=
  match a, b with
  | NaN, _ | _, NaN => NaN
  | Inf _, Inf _ => NaN
  | Inf s, Fin y => Inf (xorb s (Qneg y))
  | Fin _, Inf _ => Fin 0%Q
  | Fin x, Fin y =>
      if Qeq_bool y 0%Q
      then (if Qeq_bool x 0%Q then NaN else Inf (Qneg x))
      else round_to_double (x / y)%Q
  end.

(** [a * b] *)
Definition fmul (a b : number) : number :=
  match a, b with
  | NaN, _ | _, NaN => NaN
  | Inf s, Inf t => Inf (xorb s t)
  | Inf s, Fin y => if Qeq_bool y 0%Q then NaN else Inf (xorb s (Qneg y))
  | Fin x, Inf t => if Qeq_bool x 0%Q then NaN else Inf (xorb (Qneg x) t)
  | Fin x, Fin y => round_to_double (x * y)%Q
  end.

(** [a > b]; false as soon as one side is not a number. *)
Definition fgt (a b : number) : bool :=
  match a, b with
  | NaN, _ | _, NaN => false
  | Inf s, Inf t => negb s && t
  | Inf s, Fin _ => negb s
  | Fin _, Inf t => t
  | Fin x, Fin y => negb (Qle_bool x y)
  end.

(** Truncation toward zero of a rational. *)
Definition Qtrunc (q : Q) : Z := Z.quot (Qnum q) (Zpos (Qden q)).

(** Reduction modulo 2^32 into the signed 32-bit range. *)
Definition wrap32 (z : Z) : Z := (z + 2 ^ 31) mod 2 ^ 32 - 2 ^ 31.

(** ToInt32, the conversion [>>] applies to its left operand: not-a-number
    and the infinities give 0, a finite value is truncated toward zero and
    reduced modulo 2^32. *)
Definition to_int32 (a : number) : Z :=
  match a with
  | Fin q => wrap32 (Qtrunc q)
  | _ => 0
  end.

(** [a >> 0] on a number and [z >> 1] on an integer-valued one. *)
Definition shr0 (a : number) : Z := Z.shiftr (to_int32 a) 0.
Definition shr1 (z : Z) : Z := Z.shiftr (wrap32 z) 1.

(** ** Strings

    A JavaScript string is read as its sequence of code units; the ones
    below 256 are the characters of a Rocq [string]. *)

Local Open Scope string_scope.
Local Open Scope Z_scope.

(** [s.indexOf(c)] for a one-character needle: the first position of [c],
    or -1. *)
Fixpoint indexOf (s : string) (c : ascii) : Z :=
  match s with
  | EmptyString => -1
  | String a r =>
      if Ascii.eqb a c then 0
      else let i := indexOf r c in if i =? -1 then -1 else i + 1
  end.

Definition code (c : ascii) : Z := Z.of_N (N_of_ascii c).

(** White space and line terminators that [parseInt] skips (TAB, LF, VT, FF,
    CR, SP, NBSP). *)
Definition is_white (c : ascii) : bool :=
  let n := code c in
  ((9 <=? n) && (n <=? 13)) || (n =? 32) || (n =? 160).

Fixpoint trim_start (s : string) : string :=
  match s with
  | String c r => if is_white c then trim_start r else s
  | EmptyString => s
  end.

Definition digit_value (c : ascii) : option Z :=
  let n := code c in
  if (48 <=? n) && (n <=? 57) then Some (n - 48)
  else if (97 <=? n) && (n <=? 122) then Some (n - 87)
  else if (65 <=? n) && (n <=? 90) then Some (n - 55)
  else None.

(** The longest prefix of radix-[radix] digits, as an integer; [acc] is
    [None] until a digit has been read. *)
Fixpoint read_digits (radix : Z) (s : string) (acc : option Z) : option Z :=
  match s with
  | EmptyString => acc
  | String c r =>
      match digit_value c with
      | Some d =>
          if d <? radix
          then read_digits radix r
                 (Some (match acc with Some a => a * radix + d | None => d end))
          else acc
      | None => acc
      end
  end.

(** The integer [parseInt(s)] reads, when it reads one: leading white space
    is skipped, then an optional sign, then an optional [0x] / [0X] that
    switches to radix 16, then the longest run of digits. *)
Definition parse_prefix (s : string) : option Z :=
  let s1 := trim_start s in
  let (negative, s2) :=
    match s1 with
    | String "-" r => (true, r)
    | String "+" r => (false, r)
    | _ => (false, s1)
    end in
  let (radix, s3) :=
    match s2 with
    | String "0" (String "x" r) => (16, r)
    | String "0" (String "X" r) => (16, r)
    | _ => (10, s2)
    end in
  match read_digits radix s3 None with
  | Some n => Some (if negative then - n else n)
  | None => None
  end.

(** [parseInt(s)]: not-a-number when no digit is read, else the number
    nearest to the integer read (the language leaves the digits after the
    twentieth to the implementation; they play no part below). *)
Definition parseInt (s : string) : number :=
  match parse_prefix s with
  | Some n => of_Z n
  | None => NaN
  end.

(** [n + "px"] for an integer-valued number below 10^21 in magnitude. *)
Definition px (n : Z) : string :=
  (NilZero.string_of_int (Z.to_int n) ++ "px")%string.

(** ** The normalizer of computed-style values

    [parseCSSValue( srcValue, multiplier )] of position-images.js, lines
    52-63; the later revision has the same body under the name
    [computeCSSValue] (lines 55-66). *)
Definition parseCSSValue (srcValue : string) (multiplier : number) : Z :=
  if negb (indexOf srcValue "%" =? -1)
  then shr0 (fmul (fdiv (parseInt srcValue) (of_Z 100)) multiplier)
  else shr0 (parseInt srcValue).

Definition computeCSSValue (srcValue : string) (multiplier : number) : Z :=
  if negb (indexOf srcValue "%" =? -1)
  then shr0 (fmul (fdiv (parseInt srcValue) (of_Z 100)) multiplier)
  else shr0 (parseInt srcValue).

(** ** The document, as far as [positionImage] touches it *)

(** The properties of [img.style] the plugin reads or writes.  Each holds
    the last string the script assigned (the empty string before any
    assignment); what the style engine makes of that string is not
    modelled. *)
Record CSSStyleDeclaration : Type := mkStyle {
  position : string;
  display : string;
  visibility : string;
  height : string;
  width : string;
  top : string;
  left : string
}.

Definition set_position (v : string) (s : CSSStyleDeclaration) :=
  mkStyle v (display s) (visibility s) (height s) (width s) (top s) (left s).
Definition set_display (v : string) (s : CSSStyleDeclaration) :=
  mkStyle (position s) v (visibility s) (height s) (width s) (top s) (left s).
Definition set_visibility (v : string) (s : CSSStyleDeclaration) :=
  mkStyle (position s) (display s) v (height s) (width s) (top s) (left s).
Definition set_height (v : string) (s : CSSStyleDeclaration) :=
  mkStyle (position s) (display s) (visibility s) v (width s) (top s) (left s).
Definition set_width (v : string) (s : CSSStyleDeclaration) :=
  mkStyle (position s) (display s) (visibility s) (height s) v (top s) (left s).
Definition set_top (v : string) (s : CSSStyleDeclaration) :=
  mkStyle (position s) (display s) (visibility s) (height s) (width s) v (left s).
Definition set_left (v : string) (s : CSSStyleDeclaration) :=
  mkStyle (position s) (display s) (visibility s) (height s) (width s) (top s) v.

Record CustomEvent : Type := mkEvent {
  event_type : string;
  bubbles : bool;
  cancelable : bool
}.

(** The mutable state: the image's inline style and its [isPositioned]
    property, [containerDIV.style.position], the [style.display] of the
    enclosing section(s) ([S] is [string] for the single [parentSection] of
    position-images.js, [list string] for the [parentSections] array of the
    later revision), and the events dispatched on the image so far. *)
Record page (S : Type) : Type := mkPage {
  img_style : CSSStyleDeclaration;
  isPositioned : bool;
  container_position : string;
  section_display : S;
  dispatched : list CustomEvent
}.
Arguments mkPage {S}.
Arguments img_style {S}.
Arguments isPositioned {S}.
Arguments container_position {S}.
Arguments section_display {S}.
Arguments dispatched {S}.

Definition upd_style {S} (f : CSSStyleDeclaration -> CSSStyleDeclaration)
    (d : page S) : page S :=
  mkPage (f (img_style d)) (isPositioned d) (container_position d)
         (section_display d) (dispatched d).
Definition set_isPositioned {S} (b : bool) (d : page S) : page S :=
  mkPage (img_style d) b (container_position d) (section_display d)
         (dispatched d).
Definition set_container_position {S} (v : string) (d : page S) : page S :=
  mkPage (img_style d) (isPositioned d) v (section_display d) (dispatched d).
Definition set_section_display {S} (v : S) (d : page S) : page S :=
  mkPage (img_style d) (isPositioned d) (container_position d) v
         (dispatched d).
Definition dispatchEvent {S} (e : CustomEvent) (d : page S) : page S :=
  mkPage (img_style d) (isPositioned d) (container_position d)
         (section_display d) (dispatched d ++ [e]).

(** What the host answers when [positionImage] measures: [img.height] and
    [img.width] (32-bit unsigned integers, by the DOM interface),
    [clientHeight] and [clientWidth] of the container (32-bit integers),
    the computed-style strings, and the class list of the image in attribute
    order. *)
Record measures : Type := mkMeasures {
  img_height : Z;
  img_width : Z;
  clientHeight : Z;
  clientWidth : Z;
  marginTop : string;
  marginBottom : string;
  marginRight : string;
  marginLeft : string;
  maxWidth : string;
  maxHeight : string;
  classList : list string
}.

(** [classList.contains( c )] *)
Definition contains (l : list string) (c : string) : bool :=
  existsb (String.eqb c) l.

(** The sums and differences of the code are taken on integers of magnitude
    far below 2^53 (32-bit results of [>>], DOM integers), where binary64
    arithmetic is exact: they are written on [Z]. *)

(** *** position-images.js *)
Module PositionImages.

Section Locals.
Variable m : measures.

Definition originalHeight := img_height m.
Definition originalWidth := img_width m.
Definition parentHeight := clientHeight m.
Definition parentWidth := clientWidth m.

(* lines 95-98 *)
Definition imgMarginTop := parseCSSValue (marginTop m) (of_Z parentHeight).
Definition imgMarginBottom :=
  parseCSSValue (marginBottom m) (of_Z parentHeight).
Definition imgMarginRight := parseCSSValue (marginRight m) (of_Z parentWidth).
Definition imgMarginLeft := parseCSSValue (marginLeft m) (of_Z parentWidth).

(* line 108 *)
Definition maximise : bool :=
  contains (classList m) "maximize" || contains (classList m) "maximise".

(* line 111 *)
Definition wider : bool :=
  fgt (fdiv (of_Z originalWidth) (of_Z parentWidth))
      (fdiv (of_Z originalHeight) (of_Z parentHeight)).

(* the resolved maxima of lines 113 and 118 *)
Definition maxWidthPx := parseCSSValue (maxWidth m) (of_Z parentWidth).
Definition maxHeightPx := parseCSSValue (maxHeight m) (of_Z parentHeight).

(** [(targetWidth, targetHeight)] as lines 111-120 assign them. *)
Definition scaled : Z * Z :=
  if wider then
    let targetWidth :=
      parseCSSValue (maxWidth m) (of_Z parentWidth)
      - imgMarginRight - imgMarginLeft in
    let targetHeight :=
      shr0 (fmul (fdiv (of_Z targetWidth) (of_Z originalWidth))
                 (of_Z originalHeight)) in
    (targetWidth, targetHeight)
  else
    let targetHeight :=
      parseCSSValue (maxHeight m) (of_Z parentHeight)
      - imgMarginBottom - imgMarginTop in
    let targetWidth :=
      shr0 (fmul (fdiv (of_Z targetHeight) (of_Z originalHeight))
                 (of_Z originalWidth)) in
    (targetWidth, targetHeight).

(** [(targetWidth, targetHeight)] after lines 72-124. *)
Definition target : Z * Z :=
  if maximise then scaled else (originalWidth, originalHeight).

Definition targetWidth := fst target.
Definition targetHeight := snd target.

(** One turn of the loop of lines 131-142, on [img.style]. *)
Definition align (s : CSSStyleDeclaration) (thisClass : string)
  : CSSStyleDeclaration :=
  let s := if (thisClass =? "top")%string then set_top "0px" s else s in
  let s :=
    if (thisClass =? "middle")%string
    then set_top (px (shr1 (parentHeight - targetHeight
                            - imgMarginTop - imgMarginBottom))) s
    else s in
  let s :=
    if (thisClass =? "bottom")%string
    then set_top (px (parentHeight - targetHeight - imgMarginBottom)) s
    else s in
  let s := if (thisClass =? "left")%string then set_left "0px" s else s in
  let s :=
    if ((thisClass =? "center") || (thisClass =? "centre"))%string
    then set_left (px (shr1 (parentWidth - targetWidth
                             - imgMarginLeft - imgMarginRight))) s
    else s in
  let s :=
    if (thisClass =? "right")%string
    then set_left (px (parentWidth - targetWidth - imgMarginRight)) s
    else s in
  s.

(** [positionImage( img, containerDIV, parentSection )], lines 66-156. *)
Definition positionImage (d : page string) : page string :=
  let d := set_container_position "relative" d in
  let d := upd_style (set_position "absolute") d in
  (* lines 83-89: the section is shown while the container is measured *)
  let originalVisibility := section_display d in
  let d := set_section_display "block" d in
  let d := set_section_display originalVisibility d in
  (* lines 104-105 *)
  let originalVisibility := display (img_style d) in
  let d := upd_style (set_display "none") d in
  (* lines 108-124 *)
  let d :=
    if maximise
    then upd_style (set_width (px targetWidth))
           (upd_style (set_height (px targetHeight)) d)
    else d in
  (* lines 130-142 *)
  let d := upd_style (fun s => fold_left align (classList m) s) d in
  (* lines 144-153 *)
  let d := upd_style (set_display originalVisibility) d in
  let d := set_isPositioned true d in
  dispatchEvent (mkEvent "imagePositioned" true true) d.
End Locals.

End PositionImages.

(** *** The later revision (fit-to-container) *)

(** [imgTop] and [imgLeft] of the later revision start as the number 0 and
    become strings in the loop; the style setter converts with ToString. *)
Inductive value : Type :=
| Num (z : Z)
| Str (s : string).

Definition ToString (v : value) : string :=
  match v with
  | Num z => NilZero.string_of_int (Z.to_int z)
  | Str s => s
  end.

Module Part000.

Section Locals.
Variable m : measures.

Definition originalHeight := img_height m.
Definition originalWidth := img_width m.
Definition containerHeight := clientHeight m.
Definition containerWidth := clientWidth m.

(* lines 106-109 *)
Definition imgMarginTop :=
  computeCSSValue (marginTop m) (of_Z containerHeight).
Definition imgMarginBottom :=
  computeCSSValue (marginBottom m) (of_Z containerHeight).
Definition imgMarginRight :=
  computeCSSValue (marginRight m) (of_Z containerWidth).
Definition imgMarginLeft :=
  computeCSSValue (marginLeft m) (of_Z containerWidth).

(* line 123; [targetHeight] and [targetWidth] still hold the original
   dimensions there *)
Definition fits : bool :=
  contains (classList m) "fit-to-container"
  || (containerHeight <? originalHeight)
  || (containerWidth <? originalWidth).

(* line 126 *)
Definition wider : bool :=
  fgt (fdiv (of_Z originalWidth) (of_Z containerWidth))
      (fdiv (of_Z originalHeight) (of_Z containerHeight)).

(* the resolved maxima of lines 128 and 133 *)
Definition maxWidthPx :=
  computeCSSValue (maxWidth m) (of_Z containerWidth).
Definition maxHeightPx :=
  computeCSSValue (maxHeight m) (of_Z containerHeight).

(** [(targetWidth, targetHeight)] as lines 126-135 assign them. *)
Definition scaled : Z * Z :=
  if wider then
    let targetWidth :=
      computeCSSValue (maxWidth m) (of_Z containerWidth)
      - imgMarginRight - imgMarginLeft in
    let targetHeight :=
      shr0 (fmul (fdiv (of_Z targetWidth) (of_Z originalWidth))
                 (of_Z originalHeight)) in
    (targetWidth, targetHeight)
  else
    let targetHeight :=
      computeCSSValue (maxHeight m) (of_Z containerHeight)
      - imgMarginBottom - imgMarginTop in
    let targetWidth :=
      shr0 (fmul (fdiv (of_Z targetHeight) (of_Z originalHeight))
                 (of_Z originalWidth)) in
    (targetWidth, targetHeight).

(** [(targetWidth, targetHeight)] after lines 75-139. *)
Definition target : Z * Z :=
  if fits then scaled else (originalWidth, originalHeight).

Definition targetWidth := fst target.
Definition targetHeight := snd target.

(** One turn of the loop of lines 149-160, on [(imgTop, imgLeft)]. *)
Definition align (tl : value * value) (thisClass : string)
  : value * value :=
  let '(imgTop, imgLeft) := tl in
  let imgTop := if (thisClass =? "top")%string then Str "0px" else imgTop in
  let imgTop :=
    if (thisClass =? "middle")%string
    then Str (px (shr1 (containerHeight - targetHeight
                        - imgMarginTop - imgMarginBottom)))
    else imgTop in
  let imgTop :=
    if (thisClass =? "bottom")%string
    then Str (px (containerHeight - targetHeight - imgMarginBottom))
    else imgTop in
  let imgLeft :=
    if (thisClass =? "left")%string then Str "0px" else imgLeft in
  let imgLeft :=
    if ((thisClass =? "center") || (thisClass =? "centre"))%string
    then Str (px (shr1 (containerWidth - targetWidth
                        - imgMarginLeft - imgMarginRight)))
    else imgLeft in
  let imgLeft :=
    if (thisClass =? "right")%string
    then Str (px (containerWidth - targetWidth - imgMarginRight))
    else imgLeft in
  (imgTop, imgLeft).

(** [positionImage( img, containerDIV, parentSections )], lines 69-178. *)
Definition positionImage (d : page (list string)) : page (list string) :=
  let d := set_container_position "relative" d in
  let d := upd_style (set_position "absolute") d in
  (* lines 87-100: every enclosing section is shown while the container
     is measured *)
  let originalVisibilities := section_display d in
  let d := set_section_display
             (map (fun _ => "block") (section_display d)) d in
  let d := set_section_display originalVisibilities d in
  (* lines 115-116 *)
  let originalVisibility := visibility (img_style d) in
  let d := upd_style (set_visibility "hidden") d in
  (* lines 123-139 *)
  let d :=
    if fits
    then upd_style (set_width (px targetWidth))
           (upd_style (set_height (px targetHeight)) d)
    else d in
  (* lines 145-160 *)
  let '(imgTop, imgLeft) := fold_left align (classList m) (Num 0, Num 0) in
  (* lines 162-163 *)
  let d := upd_style (set_top (ToString imgTop)) d in
  let d := upd_style (set_left (ToString imgLeft)) d in
  (* lines 165-174 *)
  let d := upd_style (set_visibility originalVisibility) d in
  let d := set_isPositioned true d in
  dispatchEvent (mkEvent "imagePositioned" true true) d.
End Locals.

End Part000.

(** ** The offsets of the specification

    The table of section 4.2 of the specification: the offset a keyword
    asks for, from the container size, the target size and the margins. *)
Record box : Type := mkBox {
  containerW : Z; containerH : Z;
  targetW : Z; targetH : Z;
  mTop : Z; mBottom : Z; mLeft : Z; mRight : Z
}.

Definition vertical_offset (b : box) (keyword : string) : option string :=
  if (keyword =? "top")%string then Some "0px"
  else if (keyword =? "middle")%string
  then Some (px (shr1 (containerH b - targetH b - mTop b - mBottom b)))
  else if (keyword =? "bottom")%string
  then Some (px (containerH b - targetH b - mBottom b))
  else None.

Definition horizontal_offset (b : box) (keyword : string) : option string :=
  if (keyword =? "left")%string then Some "0px"
  else if ((keyword =? "center") || (keyword =? "centre"))%string
  then Some (px (shr1 (containerW b - targetW b - mLeft b - mRight b)))
  else if (keyword =? "right")%string
  then Some (px (containerW b - targetW b - mRight b))
  else None.

Definition is_vertical (keyword : string) : bool :=
  ((keyword =? "top") || (keyword =? "middle") || (keyword =? "bottom"))%string.

Definition is_horizontal (keyword : string) : bool :=
  ((keyword =? "left") || (keyword =? "center") || (keyword =? "centre")
   || (keyword =? "right"))%string.

(** The offset the last keyword of an axis asks for, if the list has one. *)
Fixpoint last_offset (f : string -> option string) (l : list string)
    (prior : option string) : option string :=
  match l with
  | [] => prior
  | c :: r =>
      last_offset f r (match f c with Some v => Some v | None => prior end)
  end.

Definition box_v1 (m : measures) : box :=
  mkBox (PositionImages.parentWidth m) (PositionImages.parentHeight m)
        (PositionImages.targetWidth m) (PositionImages.targetHeight m)
        (PositionImages.imgMarginTop m) (PositionImages.imgMarginBottom m)
        (PositionImages.imgMarginLeft m) (PositionImages.imgMarginRight m).

Definition box_v2 (m : measures) : box :=
  mkBox (Part000.containerWidth m) (Part000.containerHeight m)
        (Part000.targetWidth m) (Part000.targetHeight m)
        (Part000.imgMarginTop m) (Part000.imgMarginBottom m)
        (Part000.imgMarginLeft m) (Part000.imgMarginRight m).

(** A page with the events forgotten: what a layout pass leaves behind. *)
Definition layout {S} (d : page S) :=
  (img_style d, isPositioned d, container_position d, section_display d).

Definition from_option {A} (d : A) (o : option A) : A :=
  match o with Some v => v | None => d end.

(** ** The triggers of the specification *)

(** The image is larger than its container in one dimension at least. *)
Definition overflows (m : measures) : Prop :=
  clientHeight m < img_height m \/ clientWidth m < img_width m.

(** The fit flag, as each revision spells it. *)
Definition FitFlag_v1 (m : measures) : Prop :=
  contains (classList m) "maximize" = true
  \/ contains (classList m) "maximise" = true.

Definition FitFlag_v2 (m : measures) : Prop :=
  contains (classList m) "fit-to-container" = true.

(** ** Sample inputs *)

(** An image with no inline style yet. *)
Definition blank : CSSStyleDeclaration :=
  mkStyle EmptyString EmptyString EmptyString EmptyString EmptyString
          EmptyString EmptyString.

(** An image already placed by hand at (10px, 20px). *)
Definition placed : CSSStyleDeclaration :=
  mkStyle EmptyString EmptyString EmptyString EmptyString EmptyString
          "10px" "20px".

Definition fresh {S} (s : CSSStyleDeclaration) (sections : S) : page S :=
  mkPage s false EmptyString sections [].

(** Scenario 6 of the specification: a 800x300 image in a 400x300 container,
    no margins, both maxima at 100%, classes [fit], [center], [middle]. *)
Definition scenario (fit : string) : measures :=
  mkMeasures 300 800 300 400 "0px" "0px" "0px" "0px" "100%" "100%"
             [fit; "center"; "middle"].

(** The same image and container, without a fit class. *)
Definition oversized : measures :=
  mkMeasures 300 800 300 400 "0px" "0px" "0px" "0px" "100%" "100%"
             ["align"; "left"].

(** Conflicting vertical keywords. *)
Definition top_bottom : measures :=
  mkMeasures 100 200 300 400 "0px" "5px" "0px" "0px" "100%" "100%"
             ["top"; "bottom"].

(** A 800x500 image in a 400x300 container whose [max-height] is 50%. *)
Definition half_height : measures :=
  mkMeasures 500 800 300 400 "0px" "0px" "0px" "0px" "100%" "50%"
             ["maximize"; "fit-to-container"].

(** The scenario with a negative left margin. *)
Definition negative_margin : measures :=
  mkMeasures 300 800 300 400 "0px" "0px" "0px" "-10px" "100%" "100%"
             ["maximize"; "fit-to-container"].

(** A 1x1048575 image in a 1x1048576 container, with a left margin of
    3001px: wider than the container. *)
Definition wide_margin : measures :=
  mkMeasures 1048575 1 1048576 1 "0px" "0px" "0px" "3001px" "100%" "100%"
             ["maximize"; "fit-to-container"].

(** The image of the scenario in a container without extent (0x0, as in a
    section that is not displayed), with [max-width: 50px] and
    [max-height: 100px]. *)
Definition collapsed : measures :=
  mkMeasures 300 800 0 0 "0px" "0px" "0px" "0px" "50px" "100px"
             ["maximize"; "fit-to-container"].

(** The sizes [positionImage] reads, as integers that a number holds
    exactly, of a container that has an extent. *)
Definition sized (m : measures) : Prop :=
  0 <= img_width m < 2 ^ 53 /\ 0 <= img_height m < 2 ^ 53
  /\ 0 < clientWidth m < 2 ^ 53 /\ 0 < clientHeight m < 2 ^ 53.

(** The scenario with the largest 32-bit [max-width] and a right margin of
    -1px. *)
Definition extreme_width : measures :=
  mkMeasures 300 800 300 400 "0px" "0px" "-1px" "0px" "2147483647px" "100%"
             ["maximize"; "fit-to-container"].

(** ** The normalizer of the specification

    Section 4.1 in its own words, on exact numbers.  The leading numeric
    portion of a string is read as a decimal numeral: white space and a sign
    may come first, then digits, then a fraction when a point follows them.
    With a percent marker it is divided by 100, multiplied by the multiplier
    and truncated toward zero; without one it is truncated toward zero.
    Nothing is returned for a string without numeric portion. *)
Definition decimal_digit (c : ascii) : option Z :=
  match digit_value c with
  | Some d => if d <? 10 then Some d else None
  | None => None
  end.

(** What follows the leading decimal digits of [s]. *)
Fixpoint after_digits (s : string) : string :=
  match s with
  | String c r =>
      match decimal_digit c with
      | Some _ => after_digits r
      | None => s
      end
  | EmptyString => s
  end.

(** The digits after the point, added to [acc]; [weight] is the value of
    the place before the digit at hand. *)
Fixpoint read_fraction (s : string) (weight acc : Q) : Q :=
  match s with
  | String c r =>
      match decimal_digit c with
      | Some d =>
          read_fraction r (weight / 10)%Q
            (acc + inject_Z d * (weight / 10))%Q
      | None => acc
      end
  | EmptyString => acc
  end.

Definition numeric_portion (s : string) : option Q :=
  let s1 := trim_start s in
  let (negative, s2) :=
    match s1 with
    | String "-" r => (true, r)
    | String "+" r => (false, r)
    | _ => (false, s1)
    end in
  match read_digits 10 s2 None with
  | None => None
  | Some n =>
      let q :=
        match after_digits s2 with
        | String "." r => read_fraction r 1%Q (inject_Z n)
        | _ => inject_Z n
        end in
      Some (if negative then (- q)%Q else q)
  end.

Definition normalize_spec (s : string) (multiplier : Z) : option Z :=
  match numeric_portion s with
  | None => None
  | Some q =>
      if negb (indexOf s "%" =? -1)
      then Some (Qtrunc (q / 100 * inject_Z multiplier)%Q)
      else Some (Qtrunc q)
  end.

(** A 1x100000 image in a 5x1000000 container, [max-width: 100000px]. *)
Definition thin_tall : measures :=
  mkMeasures 100000 1 1000000 5 "0px" "0px" "0px" "0px" "100000px" "100%"
             ["maximize"; "fit-to-container"].

(** A 49x49 image in a 10x100 container, [max-width: 1px]. *)
Definition one_pixel : measures :=
  mkMeasures 49 49 100 10 "0px" "0px" "0px" "0px" "1px" "100%"
             ["maximize"; "fit-to-container"].

(** ** Cross-check against the binary64 operations of the Standard Library

    [SpecFloat] specifies the IEEE 754 operations on mantissa and exponent;
    at 53 bits of precision and the exponent bound 1024 it is binary64.
    [agree a b c] computes [a / b * c] both ways. *)
Definition of_spec_float (f : SpecFloat.spec_float) : number :=
  match f with
  | SpecFloat.S754_zero _ => Fin 0%Q
  | SpecFloat.S754_infinity s => Inf s
  | SpecFloat.S754_nan => NaN
  | SpecFloat.S754_finite s mt e =>
      Fin (Qred ((if s then - inject_Z (Zpos mt) else inject_Z (Zpos mt))
                 * Qpow2 e)%Q)
  end.

Definition binary64_of_Z (z : Z) : SpecFloat.spec_float :=
  SpecFloat.binary_normalize 53 1024 z 0 false.

Definition number_eqb (a b : number) : bool :=
  match a, b with
  | NaN, NaN => true
  | Inf s, Inf t => Bool.eqb s t
  | Fin x, Fin y => Qeq_bool x y
  | _, _ => false
  end.

Definition agree (abc : Z * Z * Z) : bool :=
  let '(a, b, c) := abc in
  number_eqb
    (fmul (fdiv (of_Z a) (of_Z b)) (of_Z c))
    (of_spec_float
       (SpecFloat.SFmul 53 1024
          (SpecFloat.SFdiv 53 1024 (binary64_of_Z a) (binary64_of_Z b))
          (binary64_of_Z c))).

(** ** Decimal strings

    [n + "px"] writes the decimal digits of [n]; [unit_suffix] tells the
    suffixes after which [parseInt] reads those digits back: the suffix does
    not go on with a decimal digit, and not with [x] or [X], which after a
    lone 0 would switch to radix 16. *)
Definition decimal (n : Z) : string := NilZero.string_of_int (Z.to_int n).

Definition unit_suffix (s : string) : bool :=
  match s with
  | EmptyString => true
  | String c _ =>
      negb ((48 <=? code c) && (code c <=? 57))
      && negb (code c =? 120) && negb (code c =? 88)
  end.

(** The integer a run of decimal digits denotes, after the digits of [a]. *)
Fixpoint uint_acc (u : Decimal.uint) (a : Z) : Z :=
  match u with
  | Decimal.Nil => a
  | Decimal.D0 l => uint_acc l (a * 10 + 0)
  | Decimal.D1 l => uint_acc l (a * 10 + 1)
  | Decimal.D2 l => uint_acc l (a * 10 + 2)
  | Decimal.D3 l => uint_acc l (a * 10 + 3)
  | Decimal.D4 l => uint_acc l (a * 10 + 4)
  | Decimal.D5 l => uint_acc l (a * 10 + 5)
  | Decimal.D6 l => uint_acc l (a * 10 + 6)
  | Decimal.D7 l => uint_acc l (a * 10 + 7)
  | Decimal.D8 l => uint_acc l (a * 10 + 8)
  | Decimal.D9 l => uint_acc l (a * 10 + 9)
  end.

(** Not the [x] or [X] of a radix prefix. *)
Definition not_radix_mark (s : string) : bool :=
  match s with
  | EmptyString => true
  | String c _ => negb (code c =? 120) && negb (code c =? 88)
  end.

Definition is_decimal_digit (c : ascii) : bool :=
  (48 <=? code c) && (code c <=? 57).

(** A vector image that reports no size yet, in the 400x300 container. *)
Definition unsized : measures :=
  mkMeasures 0 0 300 400 "0px" "0px" "0px" "0px" "100%" "100%"
             ["maximize"; "fit-to-container"; "center"].

(** ** The loop that calls [positionImage]

    Below [positionImage] each revision walks the [div.img-container]
    elements of the document (position-images.js lines 166-202, later
    revision lines 188-232).  A container is given by the chain of nodes
    from itself up to the node without [parentNode], and by its
    [img.align] descendants in document order. *)
Record Node : Type := mkNode {
  tagName : string;
  nodeClasses : list string
}.

Record Image : Type := mkImage {
  img_id : string;
  complete : bool
}.

Record Container : Type := mkContainer {
  div_id : string;
  ancestors : list Node;
  alignedImages : list Image
}.

(** What the loop does to the document, in order.  The arguments of a call
    are the values of the variables [containerDIV] and [parentSection]
    ([parentSections]) when the call is made; [None] is [undefined]. *)
Inductive effect (S : Type) : Type :=
| SetIsPositioned (img : Image) (b : bool)
| CallPositionImage (img : Image) (containerDIV : option Container)
    (section : option S)
| AddLoadListener (img : Image).
Arguments SetIsPositioned {S}.
Arguments CallPositionImage {S}.
Arguments AddLoadListener {S}.

(** The [var]s of the enclosing function that the load listeners close
    over. *)
Record vars (S : Type) : Type := mkVars {
  var_containerDIV : option Container;
  var_section : option S
}.
Arguments mkVars {S}.
Arguments var_containerDIV {S}.
Arguments var_section {S}.

Inductive completion : Type :=
| Finished
| Thrown (message : string).

Section Driver.
Variable S : Type.
(* the walk from [containerDIV] upward, and the test before [throw] *)
Variable walk : list Node -> S.
Variable nothing_found : S -> bool.
Variable message : string.

(** The listener [function() { positionImage( this, containerDIV,
    parentSection ); }]: it reads the variables when it runs. *)
Definition load_listener (v : vars S) (this : Image) : effect S :=
  CallPositionImage this (var_containerDIV v) (var_section v).

(** The inner loop over [alignedImages]. *)
Fixpoint each_image (v : vars S) (imgs : list Image) : list (effect S) :=
  match imgs with
  | [] => []
  | img :: rest =>
      SetIsPositioned img false
      :: (if complete img
          then CallPositionImage img (var_containerDIV v) (var_section v)
          else AddLoadListener img)
      :: each_image v rest
  end.

(** The outer loop over [imgContainers]: the effects, the variables at the
    end, and how the script ended. *)
Fixpoint each_container (imgContainers : list Container) (v : vars S)
  : list (effect S) * vars S * completion :=
  match imgContainers with
  | [] => ([], v, Finished)
  | c :: rest =>
      let v := mkVars (Some c) (Some (walk (ancestors c))) in
      if nothing_found (walk (ancestors c))
      then ([], v, Thrown message)
      else
        let '(later, v', how) := each_container rest v in
        ((each_image v (alignedImages c) ++ later)%list, v', how)
  end.

Definition run (imgContainers : list Container) :=
  each_container imgContainers (mkVars None None).
End Driver.

Arguments load_listener {S}.
Arguments each_image {S}.

(** position-images.js, line 175: the nearest [SECTION] from the container
    upward, or [null]. *)
Fixpoint findSection (chain : list Node) : option Node :=
  match chain with
  | [] => None
  | n :: up => if (tagName n =? "SECTION")%string then Some n
               else findSection up
  end.

Definition is_null (s : option Node) : bool :=
  match s with None => true | Some _ => false end.

Definition run_v1 :=
  run (option Node) findSection is_null
      "presentation contains a DIV with no parent SECTION".

(** Later revision, lines 201-205: every [SECTION] from the container
    upward, until a [div.slides] or the node without [parentNode], neither
    of which is looked at. *)
Definition is_slides (n : Node) : bool :=
  (tagName n =? "DIV")%string && contains (nodeClasses n) "slides".

Fixpoint collectSections (chain : list Node) : list Node :=
  match chain with
  | [] => []
  | n :: up =>
      match up with
      | [] => []
      | _ :: _ =>
          if is_slides n then []
          else ((if (tagName n =? "SECTION")%string then [n] else [])
                ++ collectSections up)%list
      end
  end.

Definition is_empty (l : list Node) : bool :=
  match l with [] => true | _ :: _ => false end.

Definition run_v2 :=
  run (list Node) collectSections is_empty
      "presentation contains a DIV image container outside any SECTION".

Definition is_section (n : Node) : bool := (tagName n =? "SECTION")%string.

(** The effects of the inner loop for one container, with its own
    arguments. *)
Definition own_effects {S} (walk : list Node -> S) (c : Container)
  : list (effect S) :=
  each_image (mkVars (Some c) (Some (walk (ancestors c)))) (alignedImages c).

(** A slide of a reveal.js deck: the container in a [SECTION] below
    [div.slides]; the chain ends with the document, which has no tag name. *)
Definition slide_chain : list Node :=
  [mkNode "DIV" ["img-container"]; mkNode "SECTION" [];
   mkNode "DIV" ["slides"]; mkNode "DIV" ["reveal"]; mkNode "BODY" [];
   mkNode "HTML" []; mkNode EmptyString []].

(** A container outside any slide. *)
Definition stray_chain : list Node :=
  [mkNode "DIV" ["img-container"]; mkNode "BODY" []; mkNode "HTML" [];
   mkNode EmptyString []].

Definition first_div : Container :=
  mkContainer "first" slide_chain
    [mkImage "loaded" true; mkImage "loading" false].

Definition last_div : Container :=
  mkContainer "last" slide_chain [mkImage "other" true].

Definition stray_div : Container :=
  mkContainer "stray" stray_chain [mkImage "lost" true].

(** ** The [classList] of SVG elements

    inline-svg.js, lines 15-180, gives [SVGElement] a [classList] where the
    browser has none.  The list is an array of tokens built afresh from
    [className.baseVal] at every access; its methods write the class name
    back through [_updateClassName]. *)
Module ClassListShim.

(** [DOMEx( type, message )], lines 42-47; [code] is [DOMException[type]],
    12 for SYNTAX_ERR and 5 for INVALID_CHARACTER_ERR in every browser. *)
Record DOMEx : Type := mkDOMEx {
  ex_name : string;
  ex_code : Z;
  ex_message : string
}.

Definition DOMException (type : string) : Z :=
  if (type =? "SYNTAX_ERR")%string then 12
  else if (type =? "INVALID_CHARACTER_ERR")%string then 5
  else 0.

Definition new_DOMEx (type message : string) : DOMEx :=
  mkDOMEx type (DOMException type) message.

Inductive result (A : Type) : Type :=
| Return (a : A)
| Throw (e : DOMEx).
Arguments Return {A}.
Arguments Throw {A}.

(** [/\s/.test( s )] *)
Fixpoint has_white (s : string) : bool :=
  match s with
  | EmptyString => false
  | String c r => is_white c || has_white r
  end.

(** [strTrim]: white space removed at both ends (lines 26-29). *)
Fixpoint trim_end (s : string) : string :=
  match s with
  | EmptyString => EmptyString
  | String c r =>
      match trim_end r with
      | EmptyString => if is_white c then EmptyString
                       else String c EmptyString
      | r' => String c r'
      end
  end.

Definition strTrim (s : string) : string := trim_end (trim_start s).

(** [s.split( /\s+/ )]: the pieces between the runs of white space, with
    an empty piece before a leading run and after a trailing one.  [cur] is
    the piece being read, [in_run] tells that the last character was white
    space. *)
Fixpoint split_from (s : string) (cur : string) (in_run : bool)
  : list string :=
  match s with
  | EmptyString => [cur]
  | String c r =>
      if is_white c
      then (if in_run then split_from r cur true
            else cur :: split_from r EmptyString true)
      else split_from r (cur ++ String c EmptyString)%string false
  end.

Definition split_white (s : string) : list string :=
  split_from s EmptyString false.

(** [arrIndexOf], lines 30-40: the first index of [item], or -1. *)
Fixpoint arrIndexOf (this : list string) (item : string) : Z :=
  match this with
  | [] => -1
  | x :: r =>
      if (x =? item)%string then 0
      else let i := arrIndexOf r item in if i =? -1 then -1 else i + 1
  end.

(** [checkTokenAndGetIndex( classList, token )], lines 48-59. *)
Definition checkTokenAndGetIndex (classList : list string) (token : string)
  : result Z :=
  if (token =? EmptyString)%string
  then Throw (new_DOMEx "SYNTAX_ERR"
                "An invalid or illegal string was specified")
  else if has_white token
  then Throw (new_DOMEx "INVALID_CHARACTER_ERR"
                "String contains an invalid character")
  else Return (arrIndexOf classList token).

(** [new ClassList( elem )], lines 60-72: the tokens of
    [elem.className.baseVal]. *)
Definition ClassList (baseVal : string) : list string :=
  let trimmedClasses := strTrim baseVal in
  if (trimmedClasses =? EmptyString)%string then []
  else split_white trimmedClasses.

(** [this.join( " " )], which is [toString] (lines 151-154). *)
Fixpoint join (l : list string) : string :=
  match l with
  | [] => EmptyString
  | [x] => x
  | x :: r => (x ++ String " " (join r))%string
  end.

Definition toString (this : list string) : string := join this.

(** A list object and the class name of its element. *)
Record state : Type := mkState {
  this : list string;
  baseVal : string
}.

(** [_updateClassName], lines 68-71. *)
Definition updateClassName (st : state) : state :=
  mkState (this st) (toString (this st)).

(** [item( i )], lines 81-84: [this[i] || null]. *)
Definition item (st : state) (i : nat) : option string :=
  match nth_error (this st) i with
  | Some t => if (t =? EmptyString)%string then None else Some t
  | None => None
  end.

(** [contains( token )], lines 85-89. *)
Definition contains_token (st : state) (token : string) : result bool :=
  match checkTokenAndGetIndex (this st) token with
  | Return i => Return (negb (i =? -1))
  | Throw e => Throw e
  end.

(** [tokens[0] + ""] and the arguments after it; without argument
    [tokens[0]] is [undefined]. *)
Definition first_token (tokens : list string) : string * list string :=
  match tokens with
  | [] => ("undefined"%string, [])
  | t :: r => (t, r)
  end.

(** The [do ... while ( ++i < l )] of [add], lines 97-106, from the token
    at hand: the list and the [updated] flag at the end, or at the
    throw. *)
Fixpoint add_loop (token : string) (rest : list string)
    (this : list string) (updated : bool)
  : option DOMEx * list string * bool :=
  match checkTokenAndGetIndex this token with
  | Throw e => (Some e, this, updated)
  | Return i =>
      let '(this, updated) :=
        if i =? -1 then ((this ++ [token])%list, true)
        else (this, updated) in
      match rest with
      | [] => (None, this, updated)
      | t :: rest' => add_loop t rest' this updated
      end
  end.

(** [add( ...tokens )], lines 90-112. *)
Definition add (tokens : list string) (st : state)
  : option DOMEx * state :=
  let '(token, rest) := first_token tokens in
  let '(e, this', updated) := add_loop token rest (this st) false in
  match e with
  | Some ex => (Some ex, mkState this' (baseVal st))
  | None =>
      (None, if updated then updateClassName (mkState this' (baseVal st))
             else mkState this' (baseVal st))
  end.

(** [this.splice( index, 1 )] *)
Fixpoint splice1 (this : list string) (index : nat) : list string :=
  match this, index with
  | [], _ => []
  | _ :: r, O => r
  | x :: r, Datatypes.S n => x :: splice1 r n
  end.

Fixpoint remove_loop (token : string) (rest : list string)
    (this : list string) (updated : bool)
  : option DOMEx * list string * bool :=
  match checkTokenAndGetIndex this token with
  | Throw e => (Some e, this, updated)
  | Return index =>
      let '(this, updated) :=
        if negb (index =? -1) then (splice1 this (Z.to_nat index), true)
        else (this, updated) in
      match rest with
      | [] => (None, this, updated)
      | t :: rest' => remove_loop t rest' this updated
      end
  end.

(** [remove( ...tokens )], lines 113-136. *)
Definition remove (tokens : list string) (st : state)
  : option DOMEx * state :=
  let '(token, rest) := first_token tokens in
  let '(e, this', updated) := remove_loop token rest (this st) false in
  match e with
  | Some ex => (Some ex, mkState this' (baseVal st))
  | None =>
      (None, if updated then updateClassName (mkState this' (baseVal st))
             else mkState this' (baseVal st))
  end.

Inductive method : Type := m_remove | m_add.

(** [toggle( token, force )], lines 137-150; [force] is [Some b] for the
    boolean [b] and [None] for anything else. *)
Definition toggle (token : string) (force : option bool) (st : state)
  : result bool * state :=
  match contains_token st token with
  | Throw e => (Throw e, st)
  | Return present =>
      let chosen :=
        if present
        then (match force with Some true => None | _ => Some m_remove end)
        else (match force with Some false => None | _ => Some m_add end) in
      let '(e, st') :=
        match chosen with
        | Some m_remove => remove [token] st
        | Some m_add => add [token] st
        | None => (None, st)
        end in
      match e with
      | Some ex => (Throw ex, st')
      | None => (Return (negb present), st')
      end
  end.

(** [elem.classList], lines 74-77: a new list at every access. *)
Definition classListGetter (className : string) : state :=
  mkState (ClassList className) className.

(** A token the methods accept. *)
Definition valid_token (t : string) : bool :=
  negb (t =? EmptyString)%string && negb (has_white t).

End ClassListShim.

(** ** Inlining an SVG image

    inline-svg.js, lines 184-264: for every [img[data-inline-svg]] the file
    is fetched synchronously and, in [onreadystatechange], its root element
    is dressed with attributes of the image and put in the image's
    place. *)
Module InlineSVG.

Definition attributes : Type := list (string * string).

(** [getAttribute( name )]: [None] is [null]. *)
Fixpoint getAttribute (a : attributes) (name : string) : option string :=
  match a with
  | [] => None
  | (k, v) :: r => if (k =? name)%string then Some v else getAttribute r name
  end.

(** [setAttribute( name, value )]: the value is replaced in place, or the
    attribute added at the end. *)
Fixpoint setAttribute (a : attributes) (name value : string) : attributes :=
  match a with
  | [] => [(name, value)]
  | (k, v) :: r =>
      if (k =? name)%string then (k, value) :: r
      else (k, v) :: setAttribute r name value
  end.

(** [if ( v )] on the result of [getAttribute]: [null] and the empty string
    are false. *)
Definition truthy (v : option string) : bool :=
  match v with
  | Some s => negb (s =? EmptyString)%string
  | None => false
  end.

(** [v] in a string concatenation. *)
Definition concat_value (v : option string) : string :=
  match v with
  | Some s => s
  | None => "null"
  end.

Record IMG : Type := mkIMG {
  img_attributes : attributes;
  img_width : Z;
  img_height : Z;
  img_complete : bool
}.

(** [request.responseXML] when the answer was parsed as XML: its
    [documentElement] once imported, and whether that is an [SVGElement]. *)
Record fetched : Type := mkFetched {
  documentElement : attributes;
  instanceof_SVGElement : bool
}.

(** What the handler throws: a string, a number (the status), or the
    [TypeError] of reading [documentElement] of [null]. *)
Inductive thrown : Type :=
| ThrowString (s : string)
| ThrowNumber (n : Z)
| ThrowTypeError.

Inductive outcome : Type :=
| Untouched
| Replaced (svg : attributes)
| Raised (e : thrown).

(** The multiplication sign of the log lines, U+00D7. *)
Definition times : string :=
  String " " (String (ascii_of_nat 215) (String " " EmptyString)).

(** The handler of lines 196-246, for the image of the current turn of the
    loop: what is logged, and what becomes of the image.  [responseXML] is
    [None] for [null], an answer that is not XML. *)
Definition onreadystatechange (img : IMG) (readyState status : Z)
    (responseXML : option fetched) : list string * outcome :=
  let imgID := getAttribute (img_attributes img) "id" in
  let imgClass := getAttribute (img_attributes img) "class" in
  let imgStyle := getAttribute (img_attributes img) "style" in
  if readyState =? 4 then
    if (200 <=? status) && (status <? 300) then
      match responseXML with
      | None => ([], Raised ThrowTypeError)
      | Some response =>
      let svg := documentElement response in
      if negb (instanceof_SVGElement response)
      then ([], Raised (ThrowString "NotAnSVG"))
      else
        let svg :=
          if truthy imgID then setAttribute svg "id" (concat_value imgID)
          else svg in
        let svg :=
          if truthy imgClass
          then setAttribute svg "class"
                 (concat_value imgClass ++ " inlined-svg")%string
          else svg in
        let svg :=
          if truthy imgStyle
          then setAttribute svg "style"
                 (concat_value (getAttribute (img_attributes img) "style"))
          else svg in
        let svg := setAttribute svg "preserveAspectRatio" "xMinYMin meet" in
        let svg :=
          setAttribute svg "viewBox"
            ("0 0 " ++ concat_value (getAttribute svg "width") ++ " "
             ++ concat_value (getAttribute svg "height"))%string in
        let svg := setAttribute svg "width" (decimal (img_width img)) in
        let svg := setAttribute svg "height" (decimal (img_height img)) in
        let log :=
          [("svg " ++ concat_value (getAttribute svg "id") ++ " (img "
            ++ (if negb (img_complete img) then "in" else EmptyString)
            ++ "complete):")%string;
           ("    corresponding IMG "
            ++ concat_value (getAttribute (img_attributes img) "alt")
            ++ " is " ++ decimal (img_width img) ++ times
            ++ decimal (img_height img))%string;
           ("    " ++ concat_value (getAttribute svg "width") ++ times
            ++ concat_value (getAttribute svg "height"))%string] in
        (log, Replaced svg)
      end
    else ([], Raised (ThrowNumber status))
  else ([], Untouched).

(** The attributes the handler writes. *)
Definition written (name : string) : bool :=
  existsb (String.eqb name)
    ["id"; "class"; "style"; "preserveAspectRatio"; "viewBox"; "width";
     "height"]%string.

(** A sized image with id and classes, and an SVG file without [width]. *)
Definition sample_img : IMG :=
  mkIMG [("src", "logo.svg"); ("id", "logo"); ("class", "align top")]%string
        320 200 true.

Definition sample_svg : option fetched :=
  Some (mkFetched
          [("xmlns", "http://www.w3.org/2000/svg"); ("height", "50")]%string
          true).

End InlineSVG.

(** * Properties *)

(** ** The alignment loop *)

Lemma last_offset_prior f l p :
  last_offset f l p = match last_offset f l None with
                      | Some w => Some w
                      | None => p
                      end.
Proof.
  revert p. induction l as [|c r IH]; intros p; simpl.
  - reflexivity.
  - rewrite (IH (match f c with Some v => Some v | None => p end)).
    rewrite (IH (match f c with Some v => Some v | None => None end)).
    destruct (last_offset f r None); [reflexivity|].
    destruct (f c); reflexivity.
Qed.

Lemma last_offset_app f l1 l2 p :
  last_offset f (l1 ++ l2) p = last_offset f l2 (last_offset f l1 p).
Proof.
  revert p. induction l1 as [|c r IH]; intros p; simpl; [reflexivity|].
  apply IH.
Qed.

Lemma last_offset_none f l p :
  (forall c, In c l -> f c = None) -> last_offset f l p = p.
Proof.
  revert p. induction l as [|c r IH]; intros p H; simpl; [reflexivity|].
  rewrite (H c (or_introl eq_refl)). apply IH.
  intros c' Hc'. apply H. right. exact Hc'.
Qed.

Lemma vertical_offset_none b c :
  is_vertical c = false -> vertical_offset b c = None.
Proof.
  unfold is_vertical, vertical_offset. intros H.
  destruct (c =? "top")%string; [discriminate|].
  destruct (c =? "middle")%string; [discriminate|].
  destruct (c =? "bottom")%string; [discriminate|]. reflexivity.
Qed.

Lemma horizontal_offset_none b c :
  is_horizontal c = false -> horizontal_offset b c = None.
Proof.
  unfold is_horizontal, horizontal_offset. intros H.
  destruct (c =? "left")%string; [discriminate|].
  destruct (c =? "center")%string; [discriminate|].
  destruct (c =? "centre")%string; [discriminate|].
  destruct (c =? "right")%string; [discriminate|]. reflexivity.
Qed.

(** The last keyword of an axis decides, whatever precedes it. *)
Lemma last_offset_last f l1 k l2 v p :
  f k = Some v -> (forall c, In c l2 -> f c = None) ->
  last_offset f (l1 ++ k :: l2)%list p = Some v.
Proof.
  intros Hk Hn. rewrite last_offset_app. simpl. rewrite Hk.
  apply last_offset_none. exact Hn.
Qed.

Ltac string_cases c :=
  destruct (String.eqb_spec c "top");
  destruct (String.eqb_spec c "middle");
  destruct (String.eqb_spec c "bottom");
  destruct (String.eqb_spec c "left");
  destruct (String.eqb_spec c "center");
  destruct (String.eqb_spec c "centre");
  destruct (String.eqb_spec c "right");
  subst; try discriminate.

Lemma align_v1 m s c :
  PositionImages.align m s c =
  mkStyle (position s) (display s) (visibility s) (height s) (width s)
    (from_option (top s) (vertical_offset (box_v1 m) c))
    (from_option (left s) (horizontal_offset (box_v1 m) c)).
Proof.
  unfold PositionImages.align, vertical_offset, horizontal_offset.
  destruct s as [p d v h w t l].
  string_cases c; reflexivity.
Qed.

Lemma fold_align_v1 m l s :
  fold_left (PositionImages.align m) l s =
  mkStyle (position s) (display s) (visibility s) (height s) (width s)
    (from_option (top s) (last_offset (vertical_offset (box_v1 m)) l None))
    (from_option (left s) (last_offset (horizontal_offset (box_v1 m)) l None)).
Proof.
  revert s. induction l as [|c r IH]; intros s.
  - destruct s; reflexivity.
  - cbn [fold_left]. rewrite IH, align_v1. simpl.
    rewrite (last_offset_prior _ r (match vertical_offset _ c with
                                    | Some v => Some v | None => None end)).
    rewrite (last_offset_prior _ r (match horizontal_offset _ c with
                                    | Some v => Some v | None => None end)).
    destruct (last_offset (vertical_offset (box_v1 m)) r None),
             (last_offset (horizontal_offset (box_v1 m)) r None),
             (vertical_offset (box_v1 m) c),
             (horizontal_offset (box_v1 m) c); reflexivity.
Qed.

Lemma align_v2 m t l c :
  Part000.align m (t, l) c =
  (match vertical_offset (box_v2 m) c with Some v => Str v | None => t end,
   match horizontal_offset (box_v2 m) c with Some v => Str v | None => l end).
Proof.
  unfold Part000.align, vertical_offset, horizontal_offset.
  string_cases c; reflexivity.
Qed.

Lemma fold_align_v2 m l t h :
  fold_left (Part000.align m) l (t, h) =
  (match last_offset (vertical_offset (box_v2 m)) l None with
   | Some v => Str v | None => t end,
   match last_offset (horizontal_offset (box_v2 m)) l None with
   | Some v => Str v | None => h end).
Proof.
  revert t h. induction l as [|c r IH]; intros t h.
  - reflexivity.
  - cbn [fold_left]. rewrite align_v2, IH. simpl.
    rewrite (last_offset_prior _ r (match vertical_offset _ c with
                                    | Some v => Some v | None => None end)).
    rewrite (last_offset_prior _ r (match horizontal_offset _ c with
                                    | Some v => Some v | None => None end)).
    destruct (last_offset (vertical_offset (box_v2 m)) r None),
             (last_offset (horizontal_offset (box_v2 m)) r None),
             (vertical_offset (box_v2 m) c),
             (horizontal_offset (box_v2 m) c); reflexivity.
Qed.

(** ** What one call leaves behind *)

Ltac unfold_setters :=
  cbv beta iota zeta delta
    [upd_style set_container_position set_section_display
     set_isPositioned dispatchEvent set_position set_display
     set_visibility set_height set_width set_top set_left
     img_style isPositioned container_position section_display
     dispatched position display visibility height width top left].

Lemma positionImage_v1 m (d : page string) :
  PositionImages.positionImage m d =
  let s := img_style d in
  mkPage
    (mkStyle "absolute" (display s) (visibility s)
       (if PositionImages.maximise m
        then px (PositionImages.targetHeight m) else height s)
       (if PositionImages.maximise m
        then px (PositionImages.targetWidth m) else width s)
       (from_option (top s)
          (last_offset (vertical_offset (box_v1 m)) (classList m) None))
       (from_option (left s)
          (last_offset (horizontal_offset (box_v1 m)) (classList m) None)))
    true "relative" (section_display d)
    (dispatched d ++ [mkEvent "imagePositioned" true true]).
Proof.
  unfold PositionImages.positionImage.
  destruct d as [s ip cp sd ev]. destruct s as [p di v h w t l].
  destruct (PositionImages.maximise m); unfold_setters;
    rewrite fold_align_v1; unfold_setters; reflexivity.
Qed.

Lemma positionImage_v2 m (d : page (list string)) :
  Part000.positionImage m d =
  let s := img_style d in
  mkPage
    (mkStyle "absolute" (display s) (visibility s)
       (if Part000.fits m then px (Part000.targetHeight m) else height s)
       (if Part000.fits m then px (Part000.targetWidth m) else width s)
       (from_option "0"
          (last_offset (vertical_offset (box_v2 m)) (classList m) None))
       (from_option "0"
          (last_offset (horizontal_offset (box_v2 m)) (classList m) None)))
    true "relative" (section_display d)
    (dispatched d ++ [mkEvent "imagePositioned" true true]).
Proof.
  unfold Part000.positionImage.
  destruct d as [s ip cp sd ev]. destruct s as [p di v h w t l].
  rewrite fold_align_v2.
  destruct (Part000.fits m);
    destruct (last_offset (vertical_offset (box_v2 m)) (classList m) None),
             (last_offset (horizontal_offset (box_v2 m)) (classList m) None);
    unfold_setters; unfold ToString, from_option; reflexivity.
Qed.

(** ** Scaling trigger *)

Lemma v1_maximise_iff m : PositionImages.maximise m = true <-> FitFlag_v1 m.
Proof.
  unfold PositionImages.maximise, FitFlag_v1. rewrite orb_true_iff. tauto.
Qed.

Lemma v2_fits_iff m :
  Part000.fits m = true <-> FitFlag_v2 m \/ overflows m.
Proof.
  unfold Part000.fits, FitFlag_v2, overflows, Part000.containerHeight,
    Part000.containerWidth, Part000.originalHeight, Part000.originalWidth.
  rewrite !orb_true_iff, !Z.ltb_lt. tauto.
Qed.

(** C1, as the code has it.  In the later revision the dimensions are scaled
    (and [style.width] / [style.height] written) exactly when the
    fit-to-container class is present or the image overflows its container
    in height or in width; otherwise the target dimensions are the natural
    ones and the style is left alone.  In position-images.js the same holds
    with the single trigger [maximize] / [maximise]: overflow alone does not
    scale. *)
Theorem C1_scaling_trigger :
  (forall m d,
      (FitFlag_v2 m \/ overflows m ->
         Part000.target m = Part000.scaled m
         /\ width (img_style (Part000.positionImage m d))
            = px (fst (Part000.scaled m))
         /\ height (img_style (Part000.positionImage m d))
            = px (snd (Part000.scaled m)))
      /\ (~ (FitFlag_v2 m \/ overflows m) ->
         Part000.target m = (img_width m, img_height m)
         /\ width (img_style (Part000.positionImage m d))
            = width (img_style d)
         /\ height (img_style (Part000.positionImage m d))
            = height (img_style d)))
  /\ (forall m d,
      (FitFlag_v1 m ->
         PositionImages.target m = PositionImages.scaled m
         /\ width (img_style (PositionImages.positionImage m d))
            = px (fst (PositionImages.scaled m))
         /\ height (img_style (PositionImages.positionImage m d))
            = px (snd (PositionImages.scaled m)))
      /\ (~ FitFlag_v1 m ->
         PositionImages.target m = (img_width m, img_height m)
         /\ width (img_style (PositionImages.positionImage m d))
            = width (img_style d)
         /\ height (img_style (PositionImages.positionImage m d))
            = height (img_style d))).
Proof.
  split; intros m d.
  - rewrite <- v2_fits_iff, positionImage_v2.
    unfold Part000.targetWidth, Part000.targetHeight, Part000.target.
    destruct (Part000.fits m); split; intros H;
      try discriminate; try (exfalso; apply H; reflexivity);
      repeat split; reflexivity.
  - rewrite <- v1_maximise_iff, positionImage_v1.
    unfold PositionImages.targetWidth, PositionImages.targetHeight,
      PositionImages.target.
    destruct (PositionImages.maximise m); split; intros H;
      try discriminate; try (exfalso; apply H; reflexivity);
      repeat split; reflexivity.
Qed.

(** C1 at a concrete input: the 800x300 image in the 400x300 container,
    without any fit class, overflows in width; the later revision scales it
    to 400x150. *)
Lemma C1_scaling_trigger_witness :
  (FitFlag_v2 oversized \/ overflows oversized)
  /\ Part000.target oversized = (400, 150)
  /\ width (img_style (Part000.positionImage oversized
                         (fresh blank ["none"%string])))
     = "400px"%string.
Proof.
  assert (T : FitFlag_v2 oversized \/ overflows oversized).
  { right. right. vm_compute. reflexivity. }
  split; [exact T|].
  destruct (proj1 (proj1 C1_scaling_trigger oversized
                     (fresh blank ["none"%string])) T) as [H1 [H2 _]].
  split; [rewrite H1 | rewrite H2]; vm_compute; reflexivity.
Defined.

(** C1, counterexample: in position-images.js a 800x300 image in a 400x300
    container, without the maximise class, overflows in width and is not
    scaled. *)
Lemma C1_overflow_not_scaled_v1 :
  overflows oversized
  /\ ~ FitFlag_v1 oversized
  /\ PositionImages.target oversized = (800, 300)
  /\ PositionImages.scaled oversized = (400, 150)
  /\ width (img_style (PositionImages.positionImage oversized
                         (fresh placed "none"%string)))
     = width placed.
Proof.
  split; [right; vm_compute; reflexivity|].
  split; [intros [H|H]; vm_compute in H; discriminate|].
  repeat split; vm_compute; reflexivity.
Qed.

(** ** The scenario of the specification *)

(** C2.  Container 400x300 without margins, natural image 800x300, fit flag
    set, both maxima 100%, classes center and middle: the width branch is
    taken, the target is 400x150, [left] is 0px and [top] is 75px; in both
    revisions and from any prior state. *)
Theorem C2_scenario :
  forall (d1 : page string) (d2 : page (list string)),
    (PositionImages.wider (scenario "maximize") = true
     /\ PositionImages.target (scenario "maximize") = (400, 150)
     /\ width (img_style (PositionImages.positionImage (scenario "maximize") d1))
        = "400px"%string
     /\ height (img_style (PositionImages.positionImage (scenario "maximize") d1))
        = "150px"%string
     /\ left (img_style (PositionImages.positionImage (scenario "maximize") d1))
        = "0px"%string
     /\ top (img_style (PositionImages.positionImage (scenario "maximize") d1))
        = "75px"%string)
    /\ (Part000.wider (scenario "fit-to-container") = true
     /\ Part000.target (scenario "fit-to-container") = (400, 150)
     /\ width (img_style (Part000.positionImage (scenario "fit-to-container") d2))
        = "400px"%string
     /\ height (img_style (Part000.positionImage (scenario "fit-to-container") d2))
        = "150px"%string
     /\ left (img_style (Part000.positionImage (scenario "fit-to-container") d2))
        = "0px"%string
     /\ top (img_style (Part000.positionImage (scenario "fit-to-container") d2))
        = "75px"%string).
Proof.
  intros d1 d2. rewrite positionImage_v1, positionImage_v2.
  cbv zeta. unfold_setters.
  repeat split; vm_compute; reflexivity.
Qed.

(** ** Alignment keywords *)

(** C5.  The class list is walked in order and every keyword writes its
    offset, so the last keyword of an axis decides that axis: if the class
    list is [l1 ++ k :: l2] with no vertical (horizontal) keyword in [l2],
    [style.top] ([style.left]) is the offset of [k].  In particular for
    [top; bottom] the vertical offset is
    containerHeight - targetHeight - marginBottom.  In both revisions. *)
Theorem C5_last_keyword_wins :
  (forall m l1 k l2 v,
      classList m = (l1 ++ k :: l2)%list ->
      (forall c, In c l2 -> is_vertical c = false) ->
      (vertical_offset (box_v1 m) k = Some v ->
       forall d, top (img_style (PositionImages.positionImage m d)) = v)
      /\ (vertical_offset (box_v2 m) k = Some v ->
       forall d, top (img_style (Part000.positionImage m d)) = v))
  /\ (forall m l1 k l2 v,
      classList m = (l1 ++ k :: l2)%list ->
      (forall c, In c l2 -> is_horizontal c = false) ->
      (horizontal_offset (box_v1 m) k = Some v ->
       forall d, left (img_style (PositionImages.positionImage m d)) = v)
      /\ (horizontal_offset (box_v2 m) k = Some v ->
       forall d, left (img_style (Part000.positionImage m d)) = v))
  /\ (forall m,
      classList m = ["top"; "bottom"]%string ->
      (forall d, top (img_style (PositionImages.positionImage m d))
                 = px (PositionImages.parentHeight m
                       - PositionImages.targetHeight m
                       - PositionImages.imgMarginBottom m))
      /\ (forall d, top (img_style (Part000.positionImage m d))
                 = px (Part000.containerHeight m
                       - Part000.targetHeight m
                       - Part000.imgMarginBottom m))).
Proof.
  split; [|split].
  - intros m l1 k l2 v Hl Hn. split; intros Hk d.
    + rewrite positionImage_v1. cbv zeta. unfold_setters.
      rewrite Hl, (last_offset_last _ l1 k l2 v None Hk); [reflexivity|].
      intros c Hc. apply vertical_offset_none, Hn, Hc.
    + rewrite positionImage_v2. cbv zeta. unfold_setters.
      rewrite Hl, (last_offset_last _ l1 k l2 v None Hk); [reflexivity|].
      intros c Hc. apply vertical_offset_none, Hn, Hc.
  - intros m l1 k l2 v Hl Hn. split; intros Hk d.
    + rewrite positionImage_v1. cbv zeta. unfold_setters.
      rewrite Hl, (last_offset_last _ l1 k l2 v None Hk); [reflexivity|].
      intros c Hc. apply horizontal_offset_none, Hn, Hc.
    + rewrite positionImage_v2. cbv zeta. unfold_setters.
      rewrite Hl, (last_offset_last _ l1 k l2 v None Hk); [reflexivity|].
      intros c Hc. apply horizontal_offset_none, Hn, Hc.
  - intros m Hl. split; intros d.
    + rewrite positionImage_v1. cbv zeta. unfold_setters.
      rewrite Hl. reflexivity.
    + rewrite positionImage_v2. cbv zeta. unfold_setters.
      rewrite Hl. reflexivity.
Qed.

(** C5 at a concrete input: classes [top; bottom], container 400x300, image
    200x100, bottom margin 5px: [style.top] is 300 - 100 - 5 = 195px. *)
Lemma C5_last_keyword_wins_witness :
  classList top_bottom = ["top"; "bottom"]%string
  /\ top (img_style (PositionImages.positionImage top_bottom
                       (fresh blank "none"%string)))
     = "195px"%string
  /\ top (img_style (Part000.positionImage top_bottom
                       (fresh blank ["none"%string])))
     = "195px"%string.
Proof.
  split; [reflexivity|].
  destruct C5_last_keyword_wins as [_ [_ H]].
  destruct (H top_bottom eq_refl) as [H1 H2].
  split; [rewrite H1 | rewrite H2]; vm_compute; reflexivity.
Defined.

(** C8.  In position-images.js an axis without keyword in the class list keeps
    its prior [style.top] / [style.left].  The later revision starts
    [imgTop] and [imgLeft] at 0 and assigns both at the end of the loop:
    with the classes [align; left] a prior [top] of 10px is replaced
    by 0. *)
Theorem C8_unset_axis :
  (forall m d,
      (forall c, In c (classList m) -> is_vertical c = false) ->
      top (img_style (PositionImages.positionImage m d)) = top (img_style d))
  /\ (forall m d,
      (forall c, In c (classList m) -> is_horizontal c = false) ->
      left (img_style (PositionImages.positionImage m d))
      = left (img_style d))
  /\ top placed = "10px"%string
  /\ top (img_style (Part000.positionImage oversized
                       (fresh placed ["none"%string])))
     = "0"%string.
Proof.
  split; [|split; [|split]].
  - intros m d H. rewrite positionImage_v1. cbv zeta. unfold_setters.
    rewrite last_offset_none; [reflexivity|].
    intros c Hc. apply vertical_offset_none, H, Hc.
  - intros m d H. rewrite positionImage_v1. cbv zeta. unfold_setters.
    rewrite last_offset_none; [reflexivity|].
    intros c Hc. apply horizontal_offset_none, H, Hc.
  - reflexivity.
  - vm_compute. reflexivity.
Qed.

(** C8 at a concrete input: with the classes [align; left],
    position-images.js keeps a prior [top] of 10px. *)
Lemma C8_unset_axis_witness :
  (forall c, In c (classList oversized) -> is_vertical c = false)
  /\ top (img_style (PositionImages.positionImage oversized
                       (fresh placed "none"%string)))
     = "10px"%string.
Proof.
  assert (H : forall c, In c (classList oversized) -> is_vertical c = false).
  { intros c [Hc|[Hc|[]]]; subst c; reflexivity. }
  split; [exact H|].
  exact (proj1 C8_unset_axis oversized (fresh placed "none"%string) H).
Defined.

(** ** Running twice *)

(** C9.  With the same measurements, a second call leaves exactly the state
    the first one left (style, positioned flag, container and section
    styles): it overwrites with the same values.  Nothing is coalesced: each
    call dispatches its own [imagePositioned] event. *)
Theorem C9_idempotent :
  (forall m (d : page string),
      layout (PositionImages.positionImage m
                (PositionImages.positionImage m d))
      = layout (PositionImages.positionImage m d)
      /\ isPositioned (PositionImages.positionImage m d) = true
      /\ dispatched (PositionImages.positionImage m
                       (PositionImages.positionImage m d))
         = (dispatched d ++ [mkEvent "imagePositioned" true true;
                             mkEvent "imagePositioned" true true])%list)
  /\ (forall m (d : page (list string)),
      layout (Part000.positionImage m (Part000.positionImage m d))
      = layout (Part000.positionImage m d)
      /\ isPositioned (Part000.positionImage m d) = true
      /\ dispatched (Part000.positionImage m (Part000.positionImage m d))
         = (dispatched d ++ [mkEvent "imagePositioned" true true;
                             mkEvent "imagePositioned" true true])%list).
Proof.
  split; intros m d.
  - rewrite !positionImage_v1. cbv zeta. unfold layout. unfold_setters.
    split; [|split; [reflexivity|rewrite <- app_assoc; reflexivity]].
    destruct (PositionImages.maximise m),
      (last_offset (vertical_offset (box_v1 m)) (classList m) None),
      (last_offset (horizontal_offset (box_v1 m)) (classList m) None);
      reflexivity.
  - rewrite !positionImage_v2. cbv zeta. unfold layout. unfold_setters.
    split; [|split; [reflexivity|rewrite <- app_assoc; reflexivity]].
    destruct (Part000.fits m); reflexivity.
Qed.

(** ** Strings without a number *)

Lemma shr0_to_int32 a : shr0 a = to_int32 a.
Proof. unfold shr0. apply Z.shiftr_0_r. Qed.

(** C4, as the code has it.  For a string in which [parseInt] reads no number
    the normalizer returns the integer 0, whatever the multiplier: the
    not-a-number of [parseInt] is turned into 0 by [>> 0] and nothing is
    signalled. *)
Theorem C4_no_number_gives_zero :
  forall s multiplier,
    parse_prefix s = None ->
    parseInt s = NaN
    /\ parseCSSValue s multiplier = 0
    /\ computeCSSValue s multiplier = 0.
Proof.
  intros s mult H. unfold parseCSSValue, computeCSSValue, parseInt.
  rewrite H. split; [reflexivity|].
  destruct (negb (indexOf s "%" =? -1)); split; reflexivity.
Qed.

Lemma C4_no_number_gives_zero_witness :
  parse_prefix "none" = None
  /\ parseInt "none" = NaN
  /\ parseCSSValue "none" (of_Z 400) = 0
  /\ computeCSSValue "none" (of_Z 400) = 0.
Proof.
  split; [reflexivity|].
  apply (C4_no_number_gives_zero "none" (of_Z 400)). reflexivity.
Defined.

(** C4, counterexample: the computed [max-width] of an image without that
    property is the string none; it has no numeric prefix, and the normalizer
    returns the pixel value 0 for it. *)
Lemma C4_none_is_zero :
  parse_prefix "none" = None /\ parseCSSValue "none" (of_Z 400) = 0.
Proof. split; reflexivity. Qed.

(** ** The target when scaling is triggered *)

Lemma v1_target_scaled m :
  FitFlag_v1 m -> PositionImages.target m = PositionImages.scaled m.
Proof.
  intros H. apply v1_maximise_iff in H. unfold PositionImages.target.
  rewrite H. reflexivity.
Qed.

Lemma v2_target_scaled m :
  FitFlag_v2 m \/ overflows m -> Part000.target m = Part000.scaled m.
Proof.
  intros H. apply v2_fits_iff in H. unfold Part000.target.
  rewrite H. reflexivity.
Qed.

(** ** The 32-bit range *)

Lemma wrap32_range z : - 2 ^ 31 <= wrap32 z < 2 ^ 31.
Proof.
  unfold wrap32.
  pose proof (Z.mod_pos_bound (z + 2 ^ 31) (2 ^ 32) ltac:(reflexivity)).
  lia.
Qed.

Lemma wrap32_congr z : (wrap32 z - z) mod 2 ^ 32 = 0.
Proof.
  unfold wrap32.
  replace ((z + 2 ^ 31) mod 2 ^ 32 - 2 ^ 31 - z)
    with ((z + 2 ^ 31) mod 2 ^ 32 - (z + 2 ^ 31)) by ring.
  rewrite Zminus_mod, Z.mod_mod, Z.sub_diag by discriminate.
  reflexivity.
Qed.

Lemma wrap32_small z : - 2 ^ 31 <= z < 2 ^ 31 -> wrap32 z = z.
Proof.
  intros H. unfold wrap32. rewrite Z.mod_small; lia.
Qed.

Lemma to_int32_range a : - 2 ^ 31 <= to_int32 a < 2 ^ 31.
Proof.
  destruct a; simpl; try lia. apply wrap32_range.
Qed.

Lemma parseCSSValue_range s mult :
  - 2 ^ 31 <= parseCSSValue s mult < 2 ^ 31.
Proof.
  unfold parseCSSValue.
  destruct (negb (indexOf s "%" =? -1)); rewrite shr0_to_int32;
    apply to_int32_range.
Qed.

Lemma computeCSSValue_range s mult :
  - 2 ^ 31 <= computeCSSValue s mult < 2 ^ 31.
Proof. exact (parseCSSValue_range s mult). Qed.

Lemma shr1_range z : - 2 ^ 30 <= shr1 z < 2 ^ 30.
Proof.
  unfold shr1. rewrite Z.shiftr_div_pow2 by lia.
  pose proof (wrap32_range z).
  change (2 ^ 1) with 2.
  pose proof (Z.div_le_mono (- 2 ^ 31) (wrap32 z) 2 ltac:(lia) ltac:(lia)).
  pose proof (Z.div_lt_upper_bound (wrap32 z) 2 (2 ^ 30) ltac:(lia)
                ltac:(lia)).
  change (- 2 ^ 31 / 2) with (- 2 ^ 30) in *. lia.
Qed.

(** C10, as the code has it.  The values that go through [>> 0] or [>> 1] are
    integers of the signed 32-bit range: the normalized CSS values, the
    dimension derived from the aspect ratio, and the middle / centre offsets
    (these within [-2^30, 2^30)).  [>> 0] maps not-a-number and the
    infinities to 0, and a finite value to its truncation reduced modulo
    2^32.  The dimension of the branch taken is not shifted: it is a
    difference of three such values and lies strictly between -3 * 2^31 and
    3 * 2^31. *)
Theorem C10_int32_results :
  (forall s mult,
      - 2 ^ 31 <= parseCSSValue s mult < 2 ^ 31
      /\ - 2 ^ 31 <= computeCSSValue s mult < 2 ^ 31)
  /\ (forall a, - 2 ^ 31 <= shr0 a < 2 ^ 31)
  /\ shr0 NaN = 0
  /\ (forall b, shr0 (Inf b) = 0)
  /\ (forall q, (shr0 (Fin q) - Qtrunc q) mod 2 ^ 32 = 0)
  /\ (forall z, - 2 ^ 30 <= shr1 z < 2 ^ 30)
  /\ (forall m,
      (if PositionImages.wider m
       then - 2 ^ 31 <= snd (PositionImages.scaled m) < 2 ^ 31
            /\ - 3 * 2 ^ 31 < fst (PositionImages.scaled m) < 3 * 2 ^ 31
       else - 2 ^ 31 <= fst (PositionImages.scaled m) < 2 ^ 31
            /\ - 3 * 2 ^ 31 < snd (PositionImages.scaled m) < 3 * 2 ^ 31)
      /\ (if Part000.wider m
       then - 2 ^ 31 <= snd (Part000.scaled m) < 2 ^ 31
            /\ - 3 * 2 ^ 31 < fst (Part000.scaled m) < 3 * 2 ^ 31
       else - 2 ^ 31 <= fst (Part000.scaled m) < 2 ^ 31
            /\ - 3 * 2 ^ 31 < snd (Part000.scaled m) < 3 * 2 ^ 31)).
Proof.
  split; [intros s mult; split;
          [apply parseCSSValue_range|apply computeCSSValue_range]|].
  split; [intros a; rewrite shr0_to_int32; apply to_int32_range|].
  split; [reflexivity|].
  split; [reflexivity|].
  split; [intros q; rewrite shr0_to_int32; apply wrap32_congr|].
  split; [apply shr1_range|].
  intros m. split.
  - unfold PositionImages.scaled.
    destruct (PositionImages.wider m); cbn [fst snd];
      (split; [rewrite shr0_to_int32; apply to_int32_range|]);
      unfold PositionImages.imgMarginRight, PositionImages.imgMarginLeft,
        PositionImages.imgMarginBottom, PositionImages.imgMarginTop.
    + pose proof (parseCSSValue_range (maxWidth m)
                    (of_Z (PositionImages.parentWidth m))).
      pose proof (parseCSSValue_range (marginRight m)
                    (of_Z (PositionImages.parentWidth m))).
      pose proof (parseCSSValue_range (marginLeft m)
                    (of_Z (PositionImages.parentWidth m))).
      lia.
    + pose proof (parseCSSValue_range (maxHeight m)
                    (of_Z (PositionImages.parentHeight m))).
      pose proof (parseCSSValue_range (marginBottom m)
                    (of_Z (PositionImages.parentHeight m))).
      pose proof (parseCSSValue_range (marginTop m)
                    (of_Z (PositionImages.parentHeight m))).
      lia.
  - unfold Part000.scaled.
    destruct (Part000.wider m); cbn [fst snd];
      (split; [rewrite shr0_to_int32; apply to_int32_range|]);
      unfold Part000.imgMarginRight, Part000.imgMarginLeft,
        Part000.imgMarginBottom, Part000.imgMarginTop.
    + pose proof (computeCSSValue_range (maxWidth m)
                    (of_Z (Part000.containerWidth m))).
      pose proof (computeCSSValue_range (marginRight m)
                    (of_Z (Part000.containerWidth m))).
      pose proof (computeCSSValue_range (marginLeft m)
                    (of_Z (Part000.containerWidth m))).
      lia.
    + pose proof (computeCSSValue_range (maxHeight m)
                    (of_Z (Part000.containerHeight m))).
      pose proof (computeCSSValue_range (marginBottom m)
                    (of_Z (Part000.containerHeight m))).
      pose proof (computeCSSValue_range (marginTop m)
                    (of_Z (Part000.containerHeight m))).
      lia.
Qed.

(** C10, counterexample: with [max-width: 2147483647px] and a right margin
    of -1px the target width of the scenario is 2^31, outside the signed
    32-bit range; in both revisions. *)
Lemma C10_target_width_out_of_range :
  FitFlag_v1 extreme_width
  /\ PositionImages.wider extreme_width = true
  /\ PositionImages.targetWidth extreme_width = 2 ^ 31
  /\ FitFlag_v2 extreme_width
  /\ Part000.targetWidth extreme_width = 2 ^ 31
  /\ width (img_style (Part000.positionImage extreme_width
                         (fresh blank ["none"%string])))
     = "2147483648px"%string.
Proof.
  repeat split; try (left; reflexivity); vm_compute; reflexivity.
Qed.

(** ** Rounding to binary64 *)

Local Open Scope Q_scope.

Lemma Qpow2_pos k : 0 < Qpow2 k.
Proof. apply Qpower_0_lt. reflexivity. Qed.

Lemma Qpow2_add a b : Qpow2 (a + b) == Qpow2 a * Qpow2 b.
Proof. apply Qpower_plus. discriminate. Qed.

Lemma Qpow2_le a b : (a <= b)%Z -> Qpow2 a <= Qpow2 b.
Proof. intros H. apply Qpower_le_compat_l; [exact H|discriminate]. Qed.

Lemma Qpow2_Z k : (0 <= k)%Z -> Qpow2 k == inject_Z (2 ^ k).
Proof. intros H. symmetry. apply (Zpower_Qpower 2 k H). Qed.

Lemma Qpow2_cancel k : Qpow2 (- k) * Qpow2 k == 1.
Proof.
  rewrite <- Qpow2_add. replace (- k + k)%Z with 0%Z by lia. reflexivity.
Qed.

(** [ilog2 x] is not above the binary logarithm of [x]. *)
Lemma ilog2_le x : 0 < x -> Qpow2 (ilog2 x) <= x.
Proof.
  intros Hx. unfold ilog2.
  set (ln := Z.log2 (Qnum x)). set (ld := Z.log2 (Zpos (Qden x))).
  destruct (Qle_bool (Qpow2 (ln - ld)) x) eqn:E.
  - apply Qle_bool_iff. exact E.
  - assert (Hn : (0 < Qnum x)%Z).
    { unfold Qlt in Hx. simpl in Hx. lia. }
    assert (Hln : (0 <= ln)%Z) by apply Z.log2_nonneg.
    assert (Hld : (0 <= ld)%Z) by apply Z.log2_nonneg.
    destruct (Z.log2_spec (Qnum x) Hn) as [Hn1 _]. fold ln in Hn1.
    destruct (Z.log2_spec (Zpos (Qden x)) eq_refl) as [_ Hd2].
    fold ld in Hd2.
    replace (ln - ld - 1)%Z with (ln + - (ld + 1))%Z by lia.
    rewrite Qpow2_add.
    assert (Hinv : Qpow2 (- (ld + 1)) == / Qpow2 (ld + 1)).
    { unfold Qpow2. apply Qpower_opp. }
    rewrite Hinv. apply Qle_shift_div_r; [apply Qpow2_pos|].
    rewrite !Qpow2_Z by lia.
    unfold Qle. simpl.
    assert (0 < 2 ^ ln)%Z by (apply Z.pow_pos_nonneg; lia).
    replace (Z.succ ld) with (ld + 1)%Z in Hd2 by lia.
    nia.
Qed.

(** The nearest integer is within one half. *)
Lemma round_half_even_near x :
  x - (1 # 2) <= inject_Z (round_half_even x) <= x + (1 # 2).
Proof.
  unfold round_half_even.
  pose proof (Qfloor_le x) as Hl. pose proof (Qlt_floor x) as Hu.
  rewrite inject_Z_plus in Hu. change (inject_Z 1) with 1 in Hu.
  destruct (Qcompare_spec (x - inject_Z (Qfloor x)) (1 # 2)) as [H|H|H].
  - destruct (Z.even (Qfloor x)).
    + lra.
    + rewrite inject_Z_plus. change (inject_Z 1) with 1. lra.
  - lra.
  - rewrite inject_Z_plus. change (inject_Z 1) with 1. lra.
Qed.

(** An integer is its own nearest integer. *)
Lemma round_half_even_Z x z : x == inject_Z z -> round_half_even x = z.
Proof.
  intros H. unfold round_half_even.
  assert (Hf : Qfloor x = z) by (rewrite H; apply Qfloor_Z).
  rewrite Hf.
  destruct (Qcompare_spec (x - inject_Z z) (1 # 2)) as [H1|H1|H1].
  - lra.
  - reflexivity.
  - lra.
Qed.

Lemma Qabs_pos_lt x : ~ x == 0 -> 0 < Qabs x.
Proof.
  intros H. apply Qabs_case; intros Hx.
  - destruct (Qlt_le_dec 0 x) as [L|L]; [exact L|].
    exfalso. apply H. lra.
  - destruct (Qlt_le_dec x 0) as [L|L]; [lra|].
    exfalso. apply H. lra.
Qed.

(** The last place of a number of the normal range weighs at most 2^-52 of
    the number. *)
Lemma ulp_exp_le x :
  ~ x == 0 -> Qpow2 (- 1022) <= Qabs x -> Qpow2 (ulp_exp x + 52) <= Qabs x.
Proof.
  intros Hx Hn. unfold ulp_exp.
  destruct (Z.max_spec (ilog2 (Qabs x) - 52) (- 1074)) as [[_ He]|[_ He]];
    rewrite He.
  - exact Hn.
  - replace (ilog2 (Qabs x) - 52 + 52)%Z with (ilog2 (Qabs x)) by lia.
    apply ilog2_le, Qabs_pos_lt, Hx.
Qed.

(** Round to nearest: in the normal range the rounding of [x] is finite and
    within 2^-53 of [x], relatively. *)
Lemma round_to_double_error x :
  ~ x == 0 -> Qpow2 (- 1022) <= Qabs x -> Qabs x <= Qpow2 1023 ->
  exists y, round_to_double x = Fin y
            /\ Qabs (y - x) <= Qabs x * Qpow2 (- 53).
Proof.
  intros Hx Hlo Hhi. unfold round_to_double.
  destruct (Qeq_bool x 0) eqn:E0.
  { exfalso. apply Hx, Qeq_bool_iff, E0. }
  set (e := ulp_exp x).
  set (s := x * Qpow2 (- e)).
  set (m := round_half_even s).
  set (y0 := inject_Z m * Qpow2 e).
  pose proof (round_half_even_near s) as Hm. fold m in Hm.
  pose proof (Qpow2_pos e) as He.
  assert (Hs : s * Qpow2 e == x).
  { unfold s. rewrite <- Qmult_assoc, Qpow2_cancel. ring. }
  (* distance to x, in units of the last place *)
  assert (Hd : Qabs (y0 - x) <= (1 # 2) * Qpow2 e).
  { apply Qabs_Qle_condition. unfold y0. rewrite <- Hs.
    destruct Hm as [Hm1 Hm2]. split; nra. }
  assert (Hu : (1 # 2) * Qpow2 e <= Qabs x * Qpow2 (- 53)).
  { pose proof (ulp_exp_le x Hx Hlo) as Hk. fold e in Hk.
    assert (Eq : (1 # 2) * Qpow2 e == Qpow2 (e + 52) * Qpow2 (- 53)).
    { rewrite <- Qpow2_add.
      replace (e + 52 + - 53)%Z with (- 1 + e)%Z by lia.
      rewrite Qpow2_add. reflexivity. }
    rewrite Eq. apply Qmult_le_compat_r; [exact Hk|].
    apply Qlt_le_weak, Qpow2_pos. }
  assert (Hfin : Qle_bool (Qpow2 1024) (Qabs y0) = false).
  { destruct (Qle_bool (Qpow2 1024) (Qabs y0)) eqn:E; [|reflexivity].
    exfalso. apply Qle_bool_iff in E.
    assert (E2 : Qpow2 1024 == 2 * Qpow2 1023).
    { change 1024%Z with (1 + 1023)%Z. rewrite Qpow2_add. reflexivity. }
    pose proof (Qpow2_pos 1023) as Hp.
    pose proof (Qabs_triangle (y0 - x) x) as Ht.
    assert (Ey : y0 - x + x == y0) by ring. rewrite Ey in Ht.
    assert (Hh : Qabs x * Qpow2 (- 53) <= Qabs x * (1 # 2)).
    { apply Qmult_le_l; [apply Qabs_pos_lt, Hx|].
      unfold Qle. vm_compute. discriminate. }
    lra. }
  rewrite Hfin. exists (Qred y0). split; [reflexivity|].
  rewrite Qred_correct. lra.
Qed.

Lemma Qabs_inject_Z z : Qabs (inject_Z z) == inject_Z (Z.abs z).
Proof. unfold Qabs, inject_Z. simpl. reflexivity. Qed.

Lemma Qred_inject_Z z : Qred (inject_Z z) = inject_Z z.
Proof. apply Qcanon.Qred_identity. simpl. apply Z.gcd_1_r. Qed.

(** Integers below 2^53 in magnitude are binary64 numbers. *)
Lemma of_Z_exact z : (Z.abs z < 2 ^ 53)%Z -> of_Z z = Fin (inject_Z z).
Proof.
  intros Hz. unfold of_Z, round_to_double.
  destruct (Qeq_bool (inject_Z z) 0) eqn:E0.
  { apply Qeq_bool_iff in E0. unfold Qeq in E0. simpl in E0.
    replace z with 0%Z by lia. reflexivity. }
  assert (Hx : ~ inject_Z z == 0).
  { intros H. apply Qeq_bool_iff in H. congruence. }
  set (e := ulp_exp (inject_Z z)).
  assert (He : (e <= 0)%Z).
  { unfold e, ulp_exp.
    pose proof (ilog2_le _ (Qabs_pos_lt _ Hx)) as Hk.
    set (k := ilog2 (Qabs (inject_Z z))) in *.
    destruct (Z_lt_le_dec k 53) as [L|L]; [lia|].
    exfalso. pose proof (Qpow2_le 53 k L) as H53.
    rewrite Qabs_inject_Z in Hk. rewrite (Qpow2_Z 53) in H53 by lia.
    assert (Hc : inject_Z (2 ^ 53) <= inject_Z (Z.abs z)) by lra.
    rewrite <- Zle_Qle in Hc. lia. }
  assert (Hs : inject_Z z * Qpow2 (- e) == inject_Z (z * 2 ^ (- e))).
  { rewrite Qpow2_Z by lia. rewrite inject_Z_mult. reflexivity. }
  rewrite (round_half_even_Z _ _ Hs).
  assert (Hy : inject_Z (z * 2 ^ (- e)) * Qpow2 e == inject_Z z).
  { rewrite <- Hs, <- Qmult_assoc, Qpow2_cancel. ring. }
  assert (Hfin : Qle_bool (Qpow2 1024)
                   (Qabs (inject_Z (z * 2 ^ (- e)) * Qpow2 e)) = false).
  { destruct (Qle_bool (Qpow2 1024)
                (Qabs (inject_Z (z * 2 ^ (- e)) * Qpow2 e))) eqn:E;
      [|reflexivity].
    exfalso. apply Qle_bool_iff in E.
    rewrite Hy, Qabs_inject_Z, (Qpow2_Z 1024) in E by lia.
    rewrite <- Zle_Qle in E.
    assert (2 ^ 53 < 2 ^ 1024)%Z by (apply Z.pow_lt_mono_r; lia).
    lia. }
  rewrite Hfin. f_equal.
  rewrite (Qred_complete _ _ Hy). apply Qred_inject_Z.
Qed.

Local Open Scope Z_scope.

(** ** Truncating a value close to a fraction

    [pn / pd] is a value within less than [1 / b] of the fraction [N / b]:
    its truncation is that of [N / b], except that when [N / b] is an
    integer it can be the next integer toward zero. *)
Lemma quot_near_nonneg pn pd N b :
  0 < pd -> 0 < b -> 0 <= N ->
  Z.abs (pn * b - N * pd) < pd ->
  Z.quot pn pd = Z.quot N b
  \/ (N mod b = 0 /\ N <> 0 /\ Z.quot pn pd = Z.quot N b - Z.sgn N).
Proof.
  intros Hpd Hb HN Hnear.
  rewrite (Z.quot_div_nonneg N b) by lia.
  pose proof (Z.div_mod N b ltac:(lia)) as Hdm.
  pose proof (Z.mod_pos_bound N b Hb) as Hk.
  assert (Hn : 0 <= N / b) by (apply Z.div_pos; lia).
  remember (N / b) as n eqn:En. remember (N mod b) as k eqn:Ek.
  clear En Ek.
  destruct (Z.eq_dec k 0) as [K0|K0].
  - (* N / b is the integer n *)
    destruct (Z.eq_dec n 0) as [N0|N0].
    + left. rewrite N0. apply Z.quot_small_iff; [lia|]. nia.
    + assert (Hlo : (n - 1) * pd < pn) by nia.
      assert (Hhi : pn < (n + 1) * pd) by nia.
      rewrite (Z.quot_div_nonneg pn pd) by nia.
      destruct (Z_lt_le_dec pn (n * pd)) as [L|L].
      * right. split; [exact K0|]. split; [nia|].
        assert (Hs : Z.sgn N = 1) by (apply Z.sgn_pos; nia).
        rewrite Hs. symmetry. apply (Z.div_unique pn pd (n - 1) (pn - (n - 1) * pd)); lia.
      * left. symmetry.
        apply (Z.div_unique pn pd n (pn - n * pd)); lia.
  - left.
    assert (Hlo : n * pd <= pn) by nia.
    assert (Hhi : pn < (n + 1) * pd) by nia.
    rewrite (Z.quot_div_nonneg pn pd) by nia.
    symmetry. apply (Z.div_unique pn pd n (pn - n * pd)); lia.
Qed.

Lemma quot_near pn pd N b :
  0 < pd -> 0 < b ->
  Z.abs (pn * b - N * pd) < pd ->
  Z.quot pn pd = Z.quot N b
  \/ (N mod b = 0 /\ N <> 0 /\ Z.quot pn pd = Z.quot N b - Z.sgn N).
Proof.
  intros Hpd Hb Hnear.
  destruct (Z_le_gt_dec 0 N) as [HN|HN].
  - apply quot_near_nonneg; assumption.
  - destruct (quot_near_nonneg (- pn) pd (- N) b Hpd Hb ltac:(lia))
      as [H|[H1 [H2 H3]]].
    + replace (- pn * b - - N * pd) with (- (pn * b - N * pd)) by ring.
      rewrite Z.abs_opp. exact Hnear.
    + left. rewrite !Z.quot_opp_l in H by lia. lia.
    + right. rewrite !Z.quot_opp_l in H3 by lia.
      rewrite Z.sgn_opp in H3.
      split; [|split; [lia|lia]].
      apply Z.mod_divide in H1; [|lia]. apply Z.mod_divide; [lia|].
      apply Z.divide_opp_r in H1. rewrite Z.opp_involutive in H1. exact H1.
Qed.

Local Open Scope Q_scope.

Lemma round_to_double_0 x : x == 0 -> round_to_double x = Fin 0.
Proof.
  intros H. unfold round_to_double.
  apply Qeq_bool_iff in H. rewrite H. reflexivity.
Qed.

Lemma Qabs_minus_bounds x y d :
  Qabs (y - x) <= d -> Qabs x - d <= Qabs y <= Qabs x + d.
Proof.
  intros H. split.
  - pose proof (Qabs_triangle_reverse x y) as T.
    rewrite (Qabs_Qminus x y) in T. lra.
  - pose proof (Qabs_triangle (y - x) x) as T.
    assert (E : y - x + x == y) by ring. rewrite E in T. lra.
Qed.

(** [a / b * c] on integers below 2^53, with [a * c] of magnitude at most
    2^51: the two roundings leave a finite value [p] with [p * b] within 3/4
    of [a * c]. *)
Lemma scale_error a b c :
  (0 < b < 2 ^ 53)%Z -> (Z.abs a < 2 ^ 53)%Z -> (Z.abs c < 2 ^ 53)%Z ->
  (Z.abs (a * c) <= 2 ^ 51)%Z ->
  exists p, fmul (fdiv (of_Z a) (of_Z b)) (of_Z c) = Fin p
            /\ Qabs (p * inject_Z b - inject_Z (a * c)) <= 3 # 4.
Proof.
  intros Hb Ha Hc Hac.
  rewrite !of_Z_exact by lia.
  assert (HB : 1 <= inject_Z b <= 9007199254740992).
  { split; [change 1 with (inject_Z 1)
           |change 9007199254740992 with (inject_Z (2 ^ 53))];
      rewrite <- Zle_Qle; lia. }
  assert (HB0 : ~ inject_Z b == 0) by lra.
  unfold fdiv.
  destruct (Qeq_bool (inject_Z b) 0) eqn:EB.
  { exfalso. apply HB0, Qeq_bool_iff, EB. }
  set (x1 := inject_Z a / inject_Z b).
  assert (Hx1b : x1 * inject_Z b == inject_Z a) by (unfold x1; field; exact HB0).
  destruct (Z.eq_dec a 0) as [A0|A0].
  { rewrite (round_to_double_0 x1).
    2:{ unfold x1. rewrite A0. unfold Qdiv. ring. }
    unfold fmul. rewrite round_to_double_0 by ring.
    exists 0. split; [reflexivity|]. rewrite A0.
    assert (E : 0 * inject_Z b - inject_Z (0 * c) == 0) by (simpl; ring).
    rewrite E. unfold Qle. simpl. lia. }
  (* the quotient *)
  assert (HA : 1 <= Qabs (inject_Z a) <= 9007199254740992).
  { rewrite Qabs_inject_Z.
    split; [change 1 with (inject_Z 1)
           |change 9007199254740992 with (inject_Z (2 ^ 53))];
      rewrite <- Zle_Qle; lia. }
  assert (Hax1 : Qabs x1 * inject_Z b == Qabs (inject_Z a)).
  { rewrite <- Hx1b, Qabs_Qmult, (Qabs_pos (inject_Z b)) by lra.
    reflexivity. }
  pose proof (Qabs_nonneg x1) as Hx1n.
  assert (Hu : Qpow2 (- 53) == 1 # 9007199254740992) by reflexivity.
  assert (Hx1lo : Qpow2 (- 53) <= Qabs x1) by (rewrite Hu; nra).
  assert (Hx1hi : Qabs x1 <= 9007199254740992) by nra.
  assert (Hx1 : ~ x1 == 0).
  { intros H. rewrite H in Hx1lo. rewrite Hu in Hx1lo.
    revert Hx1lo. unfold Qle. simpl. lia. }
  destruct (round_to_double_error x1 Hx1) as [q [Eq Hq]].
  { apply Qle_trans with (Qpow2 (- 53)); [apply Qpow2_le; lia|exact Hx1lo]. }
  { apply Qle_trans with (Qpow2 53); [exact Hx1hi|apply Qpow2_le; lia]. }
  rewrite Eq. unfold fmul.
  destruct (Z.eq_dec c 0) as [C0|C0].
  { rewrite round_to_double_0 by (rewrite C0; ring).
    exists 0. split; [reflexivity|]. rewrite C0.
    assert (E : 0 * inject_Z b - inject_Z (a * 0) == 0).
    { rewrite Z.mul_0_r. ring. }
    rewrite E. unfold Qle. simpl. lia. }
  (* the product *)
  assert (HC : 1 <= Qabs (inject_Z c) <= 9007199254740992).
  { rewrite Qabs_inject_Z.
    split; [change 1 with (inject_Z 1)
           |change 9007199254740992 with (inject_Z (2 ^ 53))];
      rewrite <- Zle_Qle; lia. }
  rewrite Hu in Hq, Hx1lo.
  pose proof (Qabs_minus_bounds x1 q _ Hq) as [Hq1 Hq2].
  set (x2 := q * inject_Z c).
  assert (Hax2 : Qabs x2 == Qabs q * Qabs (inject_Z c)).
  { unfold x2. apply Qabs_Qmult. }
  assert (Hx2lo : (1 # 18014398509481984) <= Qabs x2) by (rewrite Hax2; nra).
  assert (Hx2hi : Qabs x2 <= 9007199254740992 * 9007199254740992 * 2)
    by (rewrite Hax2; nra).
  assert (Hx2 : ~ x2 == 0).
  { intros H. rewrite H in Hx2lo. revert Hx2lo. unfold Qle. simpl. lia. }
  destruct (round_to_double_error x2 Hx2) as [p [Ep Hp]].
  { apply Qle_trans with (Qpow2 (- 54)); [apply Qpow2_le; lia|exact Hx2lo]. }
  { apply Qle_trans with (Qpow2 107); [exact Hx2hi|apply Qpow2_le; lia]. }
  exists p. split; [exact Ep|].
  rewrite Hu in Hp.
  (* the exact value and the distance to it *)
  set (E := x1 * inject_Z c).
  assert (HEb : E * inject_Z b == inject_Z (a * c)).
  { unfold E. rewrite inject_Z_mult, <- Hx1b. ring. }
  assert (HaE : Qabs E == Qabs x1 * Qabs (inject_Z c)).
  { unfold E. apply Qabs_Qmult. }
  assert (HN : Qabs E * inject_Z b <= 2251799813685248).
  { rewrite <- (Qabs_pos (inject_Z b)) at 1 by lra.
    rewrite <- Qabs_Qmult, HEb, Qabs_inject_Z.
    change 2251799813685248 with (inject_Z (2 ^ 51)).
    rewrite <- Zle_Qle. exact Hac. }
  assert (Hd1 : Qabs (x2 - E)
                <= Qabs E * (1 # 9007199254740992)).
  { assert (Ed : x2 - E == (q - x1) * inject_Z c) by (unfold x2, E; ring).
    rewrite Ed, Qabs_Qmult, HaE.
    pose proof (Qabs_nonneg (q - x1)). nra. }
  pose proof (Qabs_minus_bounds E x2 _ Hd1) as [_ Hx2E].
  assert (Hd2 : Qabs (p - E)
                <= Qabs E * (1 # 4503599627370495)).
  { pose proof (Qabs_triangle (p - x2) (x2 - E)) as T.
    assert (Ed : p - x2 + (x2 - E) == p - E) by ring.
    rewrite Ed in T. pose proof (Qabs_nonneg E). lra. }
  assert (Ef : p * inject_Z b - inject_Z (a * c) == (p - E) * inject_Z b).
  { rewrite <- HEb. ring. }
  rewrite Ef, Qabs_Qmult, (Qabs_pos (inject_Z b)) by lra.
  pose proof (Qabs_nonneg (p - E)). pose proof (Qabs_nonneg E).
  nra.
Qed.

Local Open Scope Z_scope.

(** [( a / b * c ) >> 0] against the exact fraction [a * c / b]: when the
    operands are integers below 2^53, [a * c] is at most 2^51 in magnitude
    and the fraction lies in the signed 32-bit range, the result is the
    fraction truncated toward zero; only when the fraction is an integer can
    the double rounding lose one unit toward zero. *)
Lemma scale_then_truncate a b c :
  0 < b < 2 ^ 53 -> Z.abs a < 2 ^ 53 -> Z.abs c < 2 ^ 53 ->
  Z.abs (a * c) <= 2 ^ 51 -> Z.abs (a * c) < 2 ^ 31 * b ->
  let r := shr0 (fmul (fdiv (of_Z a) (of_Z b)) (of_Z c)) in
  r = Z.quot (a * c) b
  \/ ((a * c) mod b = 0 /\ a * c <> 0
      /\ r = Z.quot (a * c) b - Z.sgn (a * c)).
Proof.
  intros Hb Ha Hc Hac Hrange r. subst r.
  destruct (scale_error a b c Hb Ha Hc Hac) as [p [Ep Hp]].
  rewrite Ep, shr0_to_int32. cbn [to_int32].
  set (N := a * c) in *.
  assert (Hq : Z.abs (Z.quot N b) < 2 ^ 31).
  { rewrite <- Z.quot_abs by lia. rewrite (Z.abs_eq b) by lia.
    apply Z.quot_lt_upper_bound; lia. }
  assert (Hnear : Z.abs (Qnum p * b - N * Zpos (Qden p)) < Zpos (Qden p)).
  { apply Qabs_Qle_condition in Hp. destruct Hp as [Hp1 Hp2].
    destruct p as [pn pd]. cbn [Qnum Qden].
    unfold Qle, Qminus, Qplus, Qmult, Qopp, inject_Z in Hp1, Hp2.
    cbn [Qnum Qden] in Hp1, Hp2.
    rewrite ?Pos.mul_1_r, ?Z.mul_1_r in Hp1, Hp2. lia. }
  unfold Qtrunc.
  destruct (quot_near (Qnum p) (Zpos (Qden p)) N b eq_refl ltac:(lia) Hnear)
    as [H|[H1 [H2 H3]]].
  - left. rewrite H. apply wrap32_small. lia.
  - right. split; [exact H1|]. split; [exact H2|].
    rewrite H3. apply wrap32_small.
    pose proof (Z.quot_rem' N b) as Hqr.
    assert (Hr : Z.rem N b = 0) by (apply Z.rem_mod_eq_0; lia).
    rewrite Hr in Hqr.
    destruct (Z.sgn_spec N) as [[Hs Es]|[[Hs Es]|[Hs Es]]]; rewrite Es; nia.
Qed.

(** ** The normalizer *)

Lemma fmul_zero_r X : to_int32 (fmul X (Fin 0)) = 0.
Proof.
  destruct X as [|s|x]; try reflexivity.
  unfold fmul. rewrite round_to_double_0; [reflexivity|].
  unfold Qeq. simpl. ring.
Qed.

Lemma Qtrunc_inject_Z n : Qtrunc (inject_Z n) = n.
Proof. unfold Qtrunc. simpl. apply Z.quot_1_r. Qed.

(** The truncation of a rational that is the fraction [N / b]. *)
Lemma Qtrunc_frac q N b :
  0 < b -> (q * inject_Z b == inject_Z N)%Q -> Qtrunc q = Z.quot N b.
Proof.
  intros Hb H. unfold Qtrunc. destruct q as [pn pd]. cbn [Qnum Qden].
  unfold Qeq, Qmult, inject_Z in H. cbn [Qnum Qden] in H.
  rewrite ?Pos.mul_1_r, ?Z.mul_1_r in H.
  destruct (quot_near pn (Zpos pd) N b eq_refl Hb ltac:(lia))
    as [E|[H1 [H2 H3]]]; [exact E|].
  exfalso. apply Z.mod_divide in H1; [|lia]. destruct H1 as [k Hk].
  subst N. assert (Hp : pn = k * Zpos pd) by nia. subst pn.
  rewrite !Z.quot_mul in H3 by lia.
  destruct (Z.sgn_spec (k * b)) as [[Hs Es]|[[Hs Es]|[Hs Es]]]; lia.
Qed.

Local Open Scope Q_scope.

(** A binary fraction with at most 53 significant bits, not finer than the
    subnormal step, is a binary64 number. *)
Lemma dyadic_exact x z k :
  x == inject_Z z * Qpow2 k -> (Z.abs z < 2 ^ 53)%Z -> (- 1074 <= k <= 0)%Z ->
  round_to_double x = Fin (Qred x).
Proof.
  intros Hx Hz Hk. unfold round_to_double.
  destruct (Qeq_bool x 0) eqn:E0.
  { apply Qeq_bool_iff in E0. f_equal.
    rewrite (Qred_complete _ _ E0). reflexivity. }
  assert (Hx0 : ~ x == 0).
  { intros H. apply Qeq_bool_iff in H. congruence. }
  pose proof (Qpow2_pos k) as Hpk.
  assert (Ha : Qabs x == inject_Z (Z.abs z) * Qpow2 k).
  { rewrite Hx, Qabs_Qmult, Qabs_inject_Z, (Qabs_pos (Qpow2 k)) by lra.
    reflexivity. }
  assert (Hzz : inject_Z (Z.abs z) < inject_Z (2 ^ 53))
    by (rewrite <- Zlt_Qlt; exact Hz).
  set (e := ulp_exp x).
  assert (He : (e <= k)%Z).
  { unfold e, ulp_exp.
    pose proof (ilog2_le _ (Qabs_pos_lt _ Hx0)) as Hl.
    set (l := ilog2 (Qabs x)) in *.
    destruct (Z_lt_le_dec l (53 + k)) as [L|L]; [lia|].
    exfalso. pose proof (Qpow2_le (53 + k) l L) as H53.
    rewrite Qpow2_add, (Qpow2_Z 53) in H53 by lia.
    rewrite Ha in Hl. nra. }
  assert (Hs : x * Qpow2 (- e) == inject_Z (z * 2 ^ (k - e))).
  { rewrite Hx, <- Qmult_assoc, <- Qpow2_add.
    replace (k + - e)%Z with (k - e)%Z by lia.
    rewrite Qpow2_Z by lia. rewrite inject_Z_mult. reflexivity. }
  rewrite (round_half_even_Z _ _ Hs).
  assert (Hy : inject_Z (z * 2 ^ (k - e)) * Qpow2 e == x).
  { rewrite <- Hs, <- Qmult_assoc, Qpow2_cancel. ring. }
  assert (Hfin : Qle_bool (Qpow2 1024)
                   (Qabs (inject_Z (z * 2 ^ (k - e)) * Qpow2 e)) = false).
  { destruct (Qle_bool (Qpow2 1024)
                (Qabs (inject_Z (z * 2 ^ (k - e)) * Qpow2 e))) eqn:E;
      [|reflexivity].
    exfalso. apply Qle_bool_iff in E. rewrite Hy, Ha in E.
    pose proof (Qpow2_le k 0 ltac:(lia)) as Hk1.
    change (Qpow2 0) with 1 in Hk1.
    pose proof (Qpow2_le 53 1024 ltac:(lia)) as Hbig.
    rewrite (Qpow2_Z 53) in Hbig by lia.
    assert (0 <= inject_Z (Z.abs z)).
    { change 0 with (inject_Z 0). rewrite <- Zle_Qle. lia. }
    nra. }
  rewrite Hfin. f_equal. apply Qred_complete, Hy.
Qed.

Lemma fmul_zero_l Y : to_int32 (fmul (Fin 0) Y) = 0%Z.
Proof.
  destruct Y as [|t|y]; reflexivity.
Qed.

Local Open Scope Z_scope.

(** [n / 100 * m] when [n] is a multiple of 25: [n / 100] is a number of
    quarters, and nothing is rounded. *)
Lemma percent_exact n m :
  n mod 25 = 0 -> Z.abs n < 2 ^ 53 -> Z.abs m < 2 ^ 53 ->
  Z.abs (n * m) <= 2 ^ 51 ->
  shr0 (fmul (fdiv (of_Z n) (of_Z 100)) (of_Z m))
  = wrap32 (Z.quot (n * m) 100).
Proof.
  intros D Hn Hm Hnm.
  apply Z.mod_divide in D; [|lia]. destruct D as [j Hj].
  rewrite !of_Z_exact by lia. unfold fdiv.
  change (Qeq_bool (inject_Z 100) 0) with false. cbv iota.
  assert (Q4 : (Qpow2 (- 2) == 1 # 4)%Q) by reflexivity.
  assert (E1 : (inject_Z n / inject_Z 100 == inject_Z j * Qpow2 (- 2))%Q).
  { rewrite Q4, Hj, inject_Z_mult.
    change (inject_Z 25) with (25 # 1)%Q.
    change (inject_Z 100) with (100 # 1)%Q. field. }
  rewrite (dyadic_exact _ j (- 2) E1) by lia.
  unfold fmul.
  assert (E2 : (Qred (inject_Z n / inject_Z 100) * inject_Z m
                == inject_Z (j * m) * Qpow2 (- 2))%Q).
  { rewrite Qred_correct, E1, inject_Z_mult. ring. }
  assert (Hjm : Z.abs (j * m) < 2 ^ 53).
  { replace (n * m) with (25 * (j * m)) in Hnm by (rewrite Hj; ring).
    lia. }
  rewrite (dyadic_exact _ (j * m) (- 2) E2) by lia.
  rewrite shr0_to_int32. cbn [to_int32]. f_equal.
  apply Qtrunc_frac; [lia|].
  rewrite Qred_correct, E2, Q4, Hj.
  replace (j * 25 * m) with (j * m * 25) by ring.
  rewrite (inject_Z_mult (j * m) 25).
  change (inject_Z 25) with (25 # 1)%Q.
  change (inject_Z 100) with (100 # 1)%Q. ring.
Qed.

(** [( n / 100 * m ) >> 0] against the exact [n * m / 100]: the fraction
    truncated toward zero and reduced modulo 2^32; only when the fraction is
    an integer and [n / 100] is not a binary64 number can the rounding lose
    one unit toward zero. *)
Lemma percent_value n m :
  Z.abs n < 2 ^ 53 -> Z.abs m < 2 ^ 53 -> Z.abs (n * m) <= 2 ^ 51 ->
  shr0 (fmul (fdiv (of_Z n) (of_Z 100)) (of_Z m))
  = wrap32 (Z.quot (n * m) 100)
  \/ ((n * m) mod 100 = 0 /\ n * m <> 0 /\ n mod 25 <> 0
      /\ shr0 (fmul (fdiv (of_Z n) (of_Z 100)) (of_Z m))
         = wrap32 (Z.quot (n * m) 100 - Z.sgn (n * m))).
Proof.
  intros Hn Hm Hnm.
  destruct (Z.eq_dec (n mod 25) 0) as [D|D].
  { left. apply percent_exact; assumption. }
  destruct (scale_error n 100 m ltac:(lia) Hn Hm Hnm) as [p [Ep Hp]].
  rewrite Ep, shr0_to_int32. cbn [to_int32].
  set (N := n * m) in *.
  assert (Hnear : Z.abs (Qnum p * 100 - N * Zpos (Qden p)) < Zpos (Qden p)).
  { apply Qabs_Qle_condition in Hp. destruct Hp as [Hp1 Hp2].
    destruct p as [pn pd]. cbn [Qnum Qden].
    unfold Qle, Qminus, Qplus, Qmult, Qopp, inject_Z in Hp1, Hp2.
    cbn [Qnum Qden] in Hp1, Hp2.
    rewrite ?Pos.mul_1_r, ?Z.mul_1_r in Hp1, Hp2. lia. }
  unfold Qtrunc.
  destruct (quot_near (Qnum p) (Zpos (Qden p)) N 100 eq_refl ltac:(lia)
              Hnear) as [H|[H1 [H2 H3]]].
  - left. rewrite H. reflexivity.
  - right. split; [exact H1|]. split; [exact H2|]. split; [exact D|].
    rewrite H3. reflexivity.
Qed.

(** A percentage with nothing before the sign, or of nothing. *)
Lemma percent_zero n m :
  n = 0 \/ m = 0 -> shr0 (fmul (fdiv (of_Z n) (of_Z 100)) (of_Z m)) = 0.
Proof.
  intros [H|H]; subst; rewrite shr0_to_int32; change (of_Z 0) with (Fin 0).
  - change (fdiv (Fin 0) (of_Z 100)) with (Fin 0). apply fmul_zero_l.
  - apply fmul_zero_r.
Qed.
(** C3, as the code has it.  Let [n] be the integer [parseInt] reads at the
    head of the string.  Without percent marker the normalizer returns [n]
    when [n] is in the signed 32-bit range.  With a percent marker, for a
    multiplier [m] with [n * m / 100] in the signed 32-bit range, it returns
    [n * m / 100] truncated toward zero; only when [n * m / 100] is an
    integer other than 0 and [n] is not a multiple of 25 (so that [n / 100]
    is not a binary64 number) can the rounding of [n / 100] make it the next
    integer toward zero.  Outside the signed 32-bit range the value is
    reduced modulo 2^32 (third to fifth part, for operands that binary64
    holds exactly).  Where the leading numeric portion of section 4.1 is the
    integer [n], section 4.1 asks for the same [n * m / 100] truncated, and
    for [n] (sixth part).  The later revision has the same function.
    normalize("50%", 200) = 100 and normalize("30px", 200) = 30. *)
Theorem C3_normalizer :
  (forall s n mult,
      parse_prefix s = Some n -> indexOf s "%" = -1 ->
      - 2 ^ 31 <= n < 2 ^ 31 ->
      parseCSSValue s mult = n)
  /\ (forall s n m,
      parse_prefix s = Some n -> indexOf s "%" <> -1 ->
      Z.abs (n * m) < 2 ^ 31 * 100 ->
      parseCSSValue s (of_Z m) = Z.quot (n * m) 100
      \/ ((n * m) mod 100 = 0 /\ n * m <> 0 /\ n mod 25 <> 0
          /\ parseCSSValue s (of_Z m)
             = Z.quot (n * m) 100 - Z.sgn (n * m)))
  /\ (forall s n mult,
      parse_prefix s = Some n -> indexOf s "%" = -1 ->
      Z.abs n < 2 ^ 53 ->
      parseCSSValue s mult = wrap32 n)
  /\ (forall s n m,
      parse_prefix s = Some n -> indexOf s "%" <> -1 ->
      Z.abs n < 2 ^ 53 -> Z.abs m < 2 ^ 53 -> Z.abs (n * m) <= 2 ^ 51 ->
      parseCSSValue s (of_Z m) = wrap32 (Z.quot (n * m) 100)
      \/ ((n * m) mod 100 = 0 /\ n * m <> 0 /\ n mod 25 <> 0
          /\ parseCSSValue s (of_Z m)
             = wrap32 (Z.quot (n * m) 100 - Z.sgn (n * m))))
  /\ (forall z,
      - 2 ^ 31 <= wrap32 z < 2 ^ 31 /\ (wrap32 z - z) mod 2 ^ 32 = 0)
  /\ (forall s q n m,
      numeric_portion s = Some q -> (q == inject_Z n)%Q ->
      normalize_spec s m
      = Some (if negb (indexOf s "%" =? -1)
              then Z.quot (n * m) 100 else n))
  /\ (forall s mult, computeCSSValue s mult = parseCSSValue s mult)
  /\ parseCSSValue "50%" (of_Z 200) = 100
  /\ parseCSSValue "30px" (of_Z 200) = 30.
Proof.
  assert (Pixels : forall s n mult,
             parse_prefix s = Some n -> indexOf s "%" = -1 ->
             Z.abs n < 2 ^ 53 ->
             parseCSSValue s mult = wrap32 n).
  { intros s n mult Hn Hi Hr. unfold parseCSSValue, parseInt.
    rewrite Hn, Hi. change (negb (-1 =? -1)) with false. cbv iota.
    rewrite shr0_to_int32, of_Z_exact by lia. cbn [to_int32].
    rewrite Qtrunc_inject_Z. reflexivity. }
  assert (Percent : forall s n m,
             parse_prefix s = Some n -> indexOf s "%" <> -1 ->
             parseCSSValue s (of_Z m)
             = shr0 (fmul (fdiv (of_Z n) (of_Z 100)) (of_Z m))).
  { intros s n m Hn Hi. unfold parseCSSValue, parseInt. rewrite Hn.
    apply Z.eqb_neq in Hi. rewrite Hi. reflexivity. }
  split; [|split; [|split; [|split; [|split; [|split; [|split]]]]]].
  - intros s n mult Hn Hi Hr.
    rewrite (Pixels s n mult Hn Hi) by lia. apply wrap32_small, Hr.
  - intros s n m Hn Hi Hr. rewrite (Percent s n m Hn Hi).
    destruct (Z.eq_dec n 0) as [N0|N0];
      [|destruct (Z.eq_dec m 0) as [M0|M0]].
    + left. rewrite percent_zero by (left; exact N0). subst n.
      reflexivity.
    + left. rewrite percent_zero by (right; exact M0). subst m.
      rewrite Z.mul_0_r. reflexivity.
    + assert (Hq : Z.abs (Z.quot (n * m) 100) < 2 ^ 31).
      { rewrite <- Z.quot_abs by lia. change (Z.abs 100) with 100.
        apply Z.quot_lt_upper_bound; lia. }
      destruct (percent_value n m ltac:(nia) ltac:(nia) ltac:(lia))
        as [H|[H1 [H2 [H3 H4]]]].
      * left. rewrite H. apply wrap32_small. lia.
      * right. split; [exact H1|]. split; [exact H2|]. split; [exact H3|].
        rewrite H4. apply wrap32_small.
        pose proof (Z.quot_rem' (n * m) 100) as Hqr.
        assert (Hr0 : Z.rem (n * m) 100 = 0)
          by (apply Z.rem_mod_eq_0; lia).
        rewrite Hr0 in Hqr.
        destruct (Z.sgn_spec (n * m)) as [[Hs Es]|[[Hs Es]|[Hs Es]]];
          rewrite Es; lia.
  - exact Pixels.
  - intros s n m Hn Hi Hn53 Hm53 Hr. rewrite (Percent s n m Hn Hi).
    apply percent_value; assumption.
  - intros z. split; [apply wrap32_range|apply wrap32_congr].
  - intros s q n m Hq E. unfold normalize_spec. rewrite Hq.
    destruct (negb (indexOf s "%" =? -1)); f_equal.
    + apply Qtrunc_frac; [lia|]. rewrite E, inject_Z_mult.
      change (inject_Z 100) with (100 # 1)%Q. field.
    + rewrite <- (Z.quot_1_r n). apply Qtrunc_frac; [lia|].
      rewrite E. change (inject_Z 1) with 1%Q. ring.
  - intros s mult. reflexivity.
  - split; vm_compute; reflexivity.
Qed.

Lemma C3_normalizer_witness :
  parse_prefix "29%" = Some 29
  /\ (parseCSSValue "29%" (of_Z 100) = Z.quot (29 * 100) 100
      \/ ((29 * 100) mod 100 = 0 /\ 29 * 100 <> 0 /\ 29 mod 25 <> 0
          /\ parseCSSValue "29%" (of_Z 100)
             = Z.quot (29 * 100) 100 - Z.sgn (29 * 100))).
Proof.
  split; [reflexivity|].
  refine (proj1 (proj2 C3_normalizer) "29%"%string 29 100 eq_refl _ _).
  - vm_compute. discriminate.
  - reflexivity.
Defined.

(** C3, counterexamples.  3000000000px is not truncated but wrapped to
    -1294967296; 29% of 100 gives 28, not 29, because 29 / 100 * 100 is
    28.999999999999996 in binary64; and 12.5% of 200 gives 24, not 25:
    [parseInt] stops at the point, so the numeric portion 12.5 is read as
    12. *)
Lemma C3_not_the_truncation :
  (normalize_spec "3000000000px" 200 = Some 3000000000
   /\ parseCSSValue "3000000000px" (of_Z 200) = -1294967296)
  /\ (normalize_spec "29%" 100 = Some 29
   /\ parseCSSValue "29%" (of_Z 100) = 28)
  /\ (normalize_spec "12.5%" 200 = Some 25
   /\ parseCSSValue "12.5%" (of_Z 200) = 24).
Proof. repeat split; vm_compute; reflexivity. Qed.

(** ** Aspect ratio *)

(** The dimension derived by [( a / b * c ) >> 0] is within one pixel of the
    exact [a * c / b]. *)
Lemma derived_within_one_pixel a b c :
  0 < b < 2 ^ 53 -> Z.abs a < 2 ^ 53 -> Z.abs c < 2 ^ 53 ->
  Z.abs (a * c) <= 2 ^ 51 -> Z.abs (a * c) < 2 ^ 31 * b ->
  Z.abs (shr0 (fmul (fdiv (of_Z a) (of_Z b)) (of_Z c)) * b - a * c) <= b.
Proof.
  intros Hb Ha Hc Hac Hr.
  pose proof (Z.quot_rem' (a * c) b) as Hqr.
  destruct (scale_then_truncate a b c Hb Ha Hc Hac Hr) as [H|[H1 [H2 H3]]].
  - rewrite H.
    pose proof (Z.rem_bound_abs (a * c) b ltac:(lia)) as Hb1. lia.
  - rewrite H3.
    assert (Hr0 : Z.rem (a * c) b = 0) by (apply Z.rem_mod_eq_0; lia).
    rewrite Hr0 in Hqr.
    destruct (Z.sgn_spec (a * c)) as [[Hs Es]|[[Hs Es]|[Hs Es]]];
      rewrite Es; nia.
Qed.

(** C6, as the code has it.  When scaling is triggered on an image of
    natural size w x h (positive DOM integers), the derived dimension is
    within one pixel of the exact proportional value: in the width branch
    |targetHeight - targetWidth * h / w| <= 1, in the height branch
    |targetWidth - targetHeight * w / h| <= 1, provided that exact value
    lies in the signed 32-bit range (and the product under the division is
    at most 2^51 in magnitude, where binary64 still resolves it). *)
Theorem C6_aspect_ratio :
  (forall m,
      FitFlag_v1 m ->
      0 < img_width m < 2 ^ 32 -> 0 < img_height m < 2 ^ 32 ->
      (PositionImages.wider m = true ->
       Z.abs (PositionImages.targetWidth m * img_height m) <= 2 ^ 51 ->
       Z.abs (PositionImages.targetWidth m * img_height m)
       < 2 ^ 31 * img_width m ->
       Z.abs (PositionImages.targetHeight m * img_width m
              - PositionImages.targetWidth m * img_height m)
       <= img_width m)
      /\ (PositionImages.wider m = false ->
       Z.abs (PositionImages.targetHeight m * img_width m) <= 2 ^ 51 ->
       Z.abs (PositionImages.targetHeight m * img_width m)
       < 2 ^ 31 * img_height m ->
       Z.abs (PositionImages.targetWidth m * img_height m
              - PositionImages.targetHeight m * img_width m)
       <= img_height m))
  /\ (forall m,
      FitFlag_v2 m \/ overflows m ->
      0 < img_width m < 2 ^ 32 -> 0 < img_height m < 2 ^ 32 ->
      (Part000.wider m = true ->
       Z.abs (Part000.targetWidth m * img_height m) <= 2 ^ 51 ->
       Z.abs (Part000.targetWidth m * img_height m) < 2 ^ 31 * img_width m ->
       Z.abs (Part000.targetHeight m * img_width m
              - Part000.targetWidth m * img_height m)
       <= img_width m)
      /\ (Part000.wider m = false ->
       Z.abs (Part000.targetHeight m * img_width m) <= 2 ^ 51 ->
       Z.abs (Part000.targetHeight m * img_width m) < 2 ^ 31 * img_height m ->
       Z.abs (Part000.targetWidth m * img_height m
              - Part000.targetHeight m * img_width m)
       <= img_height m)).
Proof.
  split; intros m Hfit Hw Hh.
  - unfold PositionImages.targetWidth, PositionImages.targetHeight.
    rewrite (v1_target_scaled m Hfit). unfold PositionImages.scaled.
    pose proof (parseCSSValue_range (maxWidth m)
                  (of_Z (PositionImages.parentWidth m))).
    pose proof (parseCSSValue_range (marginRight m)
                  (of_Z (PositionImages.parentWidth m))).
    pose proof (parseCSSValue_range (marginLeft m)
                  (of_Z (PositionImages.parentWidth m))).
    pose proof (parseCSSValue_range (maxHeight m)
                  (of_Z (PositionImages.parentHeight m))).
    pose proof (parseCSSValue_range (marginBottom m)
                  (of_Z (PositionImages.parentHeight m))).
    pose proof (parseCSSValue_range (marginTop m)
                  (of_Z (PositionImages.parentHeight m))).
    split; intros Hwd; rewrite Hwd; cbn [fst snd]; intros H51 Hr;
      apply derived_within_one_pixel;
      unfold PositionImages.originalWidth, PositionImages.originalHeight,
        PositionImages.imgMarginRight, PositionImages.imgMarginLeft,
        PositionImages.imgMarginBottom, PositionImages.imgMarginTop in *;
      try assumption; lia.
  - unfold Part000.targetWidth, Part000.targetHeight.
    rewrite (v2_target_scaled m Hfit). unfold Part000.scaled.
    pose proof (computeCSSValue_range (maxWidth m)
                  (of_Z (Part000.containerWidth m))).
    pose proof (computeCSSValue_range (marginRight m)
                  (of_Z (Part000.containerWidth m))).
    pose proof (computeCSSValue_range (marginLeft m)
                  (of_Z (Part000.containerWidth m))).
    pose proof (computeCSSValue_range (maxHeight m)
                  (of_Z (Part000.containerHeight m))).
    pose proof (computeCSSValue_range (marginBottom m)
                  (of_Z (Part000.containerHeight m))).
    pose proof (computeCSSValue_range (marginTop m)
                  (of_Z (Part000.containerHeight m))).
    split; intros Hwd; rewrite Hwd; cbn [fst snd]; intros H51 Hr;
      apply derived_within_one_pixel;
      unfold Part000.originalWidth, Part000.originalHeight,
        Part000.imgMarginRight, Part000.imgMarginLeft,
        Part000.imgMarginBottom, Part000.imgMarginTop in *;
      try assumption; lia.
Qed.

(** C6 at the scenario of the specification: 150 * 800 = 400 * 300. *)
Lemma C6_aspect_ratio_witness :
  FitFlag_v1 (scenario "maximize")
  /\ PositionImages.wider (scenario "maximize") = true
  /\ Z.abs (PositionImages.targetHeight (scenario "maximize") * 800
            - PositionImages.targetWidth (scenario "maximize") * 300)
     <= 800.
Proof.
  assert (F : FitFlag_v1 (scenario "maximize")) by (left; reflexivity).
  assert (W : PositionImages.wider (scenario "maximize") = true)
    by (vm_compute; reflexivity).
  split; [exact F|]. split; [exact W|].
  refine (proj1 (proj1 C6_aspect_ratio (scenario "maximize") F _ _) W _ _).
  - vm_compute. split; reflexivity.
  - vm_compute. split; reflexivity.
  - vm_compute. discriminate.
  - vm_compute. reflexivity.
Defined.

(** C6, counterexample: a 1x100000 image scaled to the width 100000 gets the
    height 10^10 reduced modulo 2^32, that is 1410065408; the aspect ratio
    is lost.  In both revisions. *)
Lemma C6_wrapped_height :
  FitFlag_v1 thin_tall /\ FitFlag_v2 thin_tall
  /\ 0 < img_width thin_tall /\ 0 < img_height thin_tall
  /\ PositionImages.target thin_tall = (100000, 1410065408)
  /\ Part000.target thin_tall = (100000, 1410065408)
  /\ Z.abs (1410065408 * img_width thin_tall
            - 100000 * img_height thin_tall)
     = 8589934592 * img_width thin_tall.
Proof.
  repeat split; try (left; reflexivity); vm_compute; reflexivity.
Qed.

(** The bound of one pixel is reached: a 49x49 image scaled to the width 1
    gets the height 0, because 1 / 49 * 49 is 0.9999999999999999 in
    binary64. *)
Example derived_dimension_one_below :
  PositionImages.target one_pixel = (1, 0)
  /\ Part000.target one_pixel = (1, 0).
Proof. split; vm_compute; reflexivity. Qed.

(** ** Both dimensions against their maxima *)

Lemma fdiv_zero_r X : fdiv X (Fin 0) = NaN \/ exists s, fdiv X (Fin 0) = Inf s.
Proof.
  destruct X as [|s|x]; cbn [fdiv].
  - left. reflexivity.
  - right. eexists. reflexivity.
  - change (Qeq_bool 0 0) with true. cbv iota.
    destruct (Qeq_bool x 0); [left|right; eexists]; reflexivity.
Qed.

Lemma fmul_not_finite X Y :
  X = NaN \/ (exists s, X = Inf s) -> to_int32 (fmul X Y) = 0.
Proof.
  intros [H|[s H]]; subst X.
  - reflexivity.
  - destruct Y as [|t|y]; cbn [fmul]; try reflexivity.
    destruct (Qeq_bool y 0); reflexivity.
Qed.

(** [( a / b * c ) >> 0] is 0 as soon as [b] or [c] is 0: the division by
    zero gives an infinity or not-a-number, which [>> 0] maps to 0. *)
Lemma scale_by_zero X b c :
  b = 0 \/ c = 0 -> shr0 (fmul (fdiv X (of_Z b)) (of_Z c)) = 0.
Proof.
  intros [H|H]; subst; rewrite shr0_to_int32; change (of_Z 0) with (Fin 0).
  - apply fmul_not_finite, fdiv_zero_r.
  - apply fmul_zero_r.
Qed.

Local Open Scope Q_scope.

(** The quotient of two integers that binary64 holds, against the exact
    one: the relative error is at most 2^-53. *)
Lemma fdiv_ratio a b :
  (0 <= a < 2 ^ 53)%Z -> (0 < b < 2 ^ 53)%Z ->
  exists q, fdiv (of_Z a) (of_Z b) = Fin q
            /\ inject_Z a * (1 - (1 # 9007199254740992)) <= q * inject_Z b
            /\ q * inject_Z b <= inject_Z a * (1 + (1 # 9007199254740992)).
Proof.
  intros Ha Hb. rewrite !of_Z_exact by lia.
  assert (HB : 1 <= inject_Z b <= 9007199254740992).
  { split; [change 1 with (inject_Z 1)
           |change 9007199254740992 with (inject_Z (2 ^ 53))];
      rewrite <- Zle_Qle; lia. }
  assert (HB0 : ~ inject_Z b == 0) by lra.
  unfold fdiv.
  destruct (Qeq_bool (inject_Z b) 0) eqn:EB.
  { exfalso. apply HB0, Qeq_bool_iff, EB. }
  set (x := inject_Z a / inject_Z b).
  assert (Hxb : x * inject_Z b == inject_Z a) by (unfold x; field; exact HB0).
  destruct (Z.eq_dec a 0) as [A0|A0].
  { rewrite (round_to_double_0 x).
    2:{ unfold x. rewrite A0. unfold Qdiv. ring. }
    exists 0. split; [reflexivity|]. rewrite A0.
    change (inject_Z 0) with 0. lra. }
  assert (HA : 1 <= inject_Z a <= 9007199254740992).
  { split; [change 1 with (inject_Z 1)
           |change 9007199254740992 with (inject_Z (2 ^ 53))];
      rewrite <- Zle_Qle; lia. }
  assert (Hu : Qpow2 (- 53) == 1 # 9007199254740992) by reflexivity.
  assert (Hxpos : 0 < x).
  { destruct (Qlt_le_dec 0 x) as [L|L]; [exact L|]. exfalso. nra. }
  assert (Hxlo : (1 # 9007199254740992) <= x) by nra.
  assert (Hxhi : x <= 9007199254740992) by nra.
  assert (Hx0 : ~ x == 0) by lra.
  destruct (round_to_double_error x Hx0) as [q [Eq Hq]].
  { rewrite (Qabs_pos x) by lra.
    apply Qle_trans with (Qpow2 (- 53)); [apply Qpow2_le; lia|].
    rewrite Hu. exact Hxlo. }
  { rewrite (Qabs_pos x) by lra.
    apply Qle_trans with (Qpow2 53); [|apply Qpow2_le; lia].
    rewrite (Qpow2_Z 53) by lia. exact Hxhi. }
  exists q. split; [exact Eq|].
  rewrite Hu, (Qabs_pos x) in Hq by lra.
  apply Qabs_Qle_condition in Hq. destruct Hq as [Hq1 Hq2].
  split; nra.
Qed.

(** [a / b * c] on such integers: the two roundings leave a value that is
    not negative and at most [1 + 3 * 2^-53] times the exact one. *)
Lemma scale_relative a b c :
  (0 <= a < 2 ^ 53)%Z -> (0 < b < 2 ^ 53)%Z -> (0 <= c < 2 ^ 53)%Z ->
  exists p, fmul (fdiv (of_Z a) (of_Z b)) (of_Z c) = Fin p
            /\ 0 <= p
            /\ p * inject_Z b
               <= inject_Z a * inject_Z c * (1 + (3 # 9007199254740992)).
Proof.
  intros Ha Hb Hc.
  destruct (fdiv_ratio a b Ha Hb) as [q [Eq [Hq1 Hq2]]].
  rewrite Eq, (of_Z_exact c) by lia. unfold fmul.
  assert (HB : 1 <= inject_Z b <= 9007199254740992).
  { split; [change 1 with (inject_Z 1)
           |change 9007199254740992 with (inject_Z (2 ^ 53))];
      rewrite <- Zle_Qle; lia. }
  assert (HA : 0 <= inject_Z a <= 9007199254740992).
  { split; [change 0 with (inject_Z 0)
           |change 9007199254740992 with (inject_Z (2 ^ 53))];
      rewrite <- Zle_Qle; lia. }
  assert (HC : 0 <= inject_Z c <= 9007199254740992).
  { split; [change 0 with (inject_Z 0)
           |change 9007199254740992 with (inject_Z (2 ^ 53))];
      rewrite <- Zle_Qle; lia. }
  set (x := q * inject_Z c).
  destruct (Z.eq_dec a 0) as [A0|A0];
    [|destruct (Z.eq_dec c 0) as [C0|C0]].
  - assert (Hq0 : q == 0).
    { rewrite A0 in Hq1, Hq2. change (inject_Z 0) with 0 in Hq1, Hq2.
      destruct (Qlt_le_dec 0 q) as [L|L]; [exfalso; nra|].
      destruct (Qlt_le_dec q 0) as [L'|L']; [exfalso; nra|]. lra. }
    rewrite (round_to_double_0 x) by (unfold x; rewrite Hq0; ring).
    exists 0. split; [reflexivity|]. split; [lra|]. nra.
  - rewrite (round_to_double_0 x).
    2:{ unfold x. rewrite C0. change (inject_Z 0) with 0. ring. }
    exists 0. split; [reflexivity|]. split; [lra|]. nra.
  - assert (HA1 : 1 <= inject_Z a).
    { change 1 with (inject_Z 1). rewrite <- Zle_Qle. lia. }
    assert (HC1 : 1 <= inject_Z c).
    { change 1 with (inject_Z 1). rewrite <- Zle_Qle. lia. }
    assert (Hqlo : (1 # 18014398509481984) <= q).
    { destruct (Qlt_le_dec q (1 # 18014398509481984)) as [L|L]; [|exact L].
      exfalso. nra. }
    assert (Hqhi : q <= 18014398509481984).
    { destruct (Qlt_le_dec 18014398509481984 q) as [L|L]; [|exact L].
      exfalso. nra. }
    assert (Hxlo : (1 # 18014398509481984) <= x) by (unfold x; nra).
    assert (Hxhi : x <= 18014398509481984 * 9007199254740992)
      by (unfold x; nra).
    assert (Hx0 : ~ x == 0) by lra.
    assert (Hu : Qpow2 (- 53) == 1 # 9007199254740992) by reflexivity.
    destruct (round_to_double_error x Hx0) as [p [Ep Hp]].
    { rewrite (Qabs_pos x) by lra.
      apply Qle_trans with (Qpow2 (- 54)); [apply Qpow2_le; lia|].
      exact Hxlo. }
    { rewrite (Qabs_pos x) by lra.
      apply Qle_trans with (Qpow2 107); [|apply Qpow2_le; lia].
      exact Hxhi. }
    exists p. split; [exact Ep|].
    rewrite Hu, (Qabs_pos x) in Hp by lra.
    apply Qabs_Qle_condition in Hp. destruct Hp as [Hp1 Hp2].
    split; [nra|].
    assert (S1 : p <= x * (1 + (1 # 9007199254740992))) by lra.
    assert (S2 : p * inject_Z b
                 <= q * inject_Z b * inject_Z c
                    * (1 + (1 # 9007199254740992))).
    { unfold x in S1. nra. }
    assert (S3 : q * inject_Z b * inject_Z c
                 <= inject_Z a * inject_Z c
                    * (1 + (1 # 9007199254740992))) by nra.
    assert (S4 : q * inject_Z b * inject_Z c * (1 + (1 # 9007199254740992))
                 <= inject_Z a * inject_Z c * (1 + (1 # 9007199254740992))
                    * (1 + (1 # 9007199254740992))) by nra.
    assert (S5 : 0 <= inject_Z a * inject_Z c) by nra.
    nra.
Qed.

Lemma Qtrunc_nonneg p : 0 <= p -> Qtrunc p = Qfloor p.
Proof.
  intros H. destruct p as [pn pd]. unfold Qtrunc, Qfloor. cbn [Qnum Qden].
  apply Z.quot_div_nonneg; [|reflexivity].
  unfold Qle in H. simpl in H. lia.
Qed.

(** The dimension derived from a branch dimension [t] that is within its
    maximum [M1]: it is within the other maximum [M2] when the maxima leave
    the branch's axis no more room, relative to the container, than the
    other ([M1 * c2 <= M2 * c1]) and the comparison of the ratios
    ([n2 / c2] against [n1 / c1], as rounded) chose this branch. *)
Lemma derived_within_maximum t n1 n2 c1 c2 M1 M2 q1 q2 :
  (0 <= n1 < 2 ^ 53)%Z -> (0 <= n2 < 2 ^ 53)%Z ->
  (0 < c1 < 2 ^ 53)%Z -> (0 < c2 < 2 ^ 53)%Z ->
  (0 <= t <= M1)%Z -> (M1 < 2 ^ 31)%Z -> (M2 < 2 ^ 31)%Z ->
  (M1 * c2 <= M2 * c1)%Z ->
  fdiv (of_Z n1) (of_Z c1) = Fin q1 ->
  fdiv (of_Z n2) (of_Z c2) = Fin q2 ->
  q2 <= q1 ->
  (0 <= shr0 (fmul (fdiv (of_Z t) (of_Z n1)) (of_Z n2)) <= M2)%Z.
Proof.
  intros Hn1 Hn2 Hc1 Hc2 Ht HM1 HM2 Hprop E1 E2 Hq.
  assert (HM2' : (0 <= M2)%Z) by nia.
  destruct (Z.eq_dec n1 0) as [Z1|Z1].
  { rewrite scale_by_zero by (left; exact Z1). lia. }
  destruct (fdiv_ratio n1 c1 Hn1 Hc1) as [q1' [E1' [_ A3]]].
  destruct (fdiv_ratio n2 c2 Hn2 Hc2) as [q2' [E2' [A1 _]]].
  rewrite E1 in E1'. injection E1' as <-.
  rewrite E2 in E2'. injection E2' as <-.
  destruct (scale_relative t n1 n2 ltac:(lia) ltac:(lia) Hn2)
    as [p [Ep [Hp0 F4]]].
  rewrite Ep, shr0_to_int32. cbn [to_int32].
  rewrite (Qtrunc_nonneg p Hp0).
  assert (Hlt : p < inject_Z (M2 + 1)).
  { assert (hN1 : 1 <= inject_Z n1).
    { change 1 with (inject_Z 1). rewrite <- Zle_Qle. lia. }
    assert (hN2 : 0 <= inject_Z n2).
    { change 0 with (inject_Z 0). rewrite <- Zle_Qle. lia. }
    assert (hC1 : 1 <= inject_Z c1).
    { change 1 with (inject_Z 1). rewrite <- Zle_Qle. lia. }
    assert (hC2 : 1 <= inject_Z c2).
    { change 1 with (inject_Z 1). rewrite <- Zle_Qle. lia. }
    assert (hT0 : 0 <= inject_Z t).
    { change 0 with (inject_Z 0). rewrite <- Zle_Qle. lia. }
    assert (hT : inject_Z t <= inject_Z M1) by (rewrite <- Zle_Qle; lia).
    assert (hP : inject_Z M1 * inject_Z c2 <= inject_Z M2 * inject_Z c1).
    { rewrite <- !inject_Z_mult, <- Zle_Qle. exact Hprop. }
    assert (hM2 : 0 <= inject_Z M2 <= 2147483648).
    { split; [change 0 with (inject_Z 0)
             |change 2147483648 with (inject_Z (2 ^ 31))];
        rewrite <- Zle_Qle; lia. }
    rewrite inject_Z_plus. change (inject_Z 1) with 1.
    set (T := inject_Z t) in *. set (N1 := inject_Z n1) in *.
    set (N2 := inject_Z n2) in *. set (C1 := inject_Z c1) in *.
    set (C2 := inject_Z c2) in *. set (m1 := inject_Z M1) in *.
    set (m2 := inject_Z M2) in *.
    set (lo := 1 - (1 # 9007199254740992)) in *.
    set (hi := 1 + (1 # 9007199254740992)) in *.
    set (hi3 := 1 + (3 # 9007199254740992)) in *.
    assert (Hlo : 0 < lo) by (unfold lo; reflexivity).
    assert (Hhi : 0 < hi) by (unfold hi; reflexivity).
    assert (Hhi3 : 0 < hi3) by (unfold hi3; reflexivity).
    (* the choice of the branch, on the exact ratios *)
    assert (S1 : N2 * lo * C1 <= N1 * hi * C2).
    { apply Qle_trans with (q2 * C2 * C1);
        [apply Qmult_le_compat_r; [exact A1|lra]|].
      apply Qle_trans with (q1 * C1 * C2);
        [|apply Qmult_le_compat_r; [exact A3|lra]].
      assert (0 <= C1 * C2) by nra. nra. }
    (* from the rounded value to the maximum *)
    assert (G1 : p * N1 * (C1 * lo) <= T * N2 * hi3 * (C1 * lo)).
    { apply Qmult_le_compat_r; [exact F4|]. nra. }
    assert (G2 : T * hi3 * (N2 * lo * C1) <= T * hi3 * (N1 * hi * C2)).
    { rewrite !(Qmult_comm (T * hi3)).
      apply Qmult_le_compat_r; [exact S1|]. nra. }
    assert (K3 : 0 <= hi3 * N1 * hi * C2).
    { assert (0 <= hi3 * N1) by nra. assert (0 <= hi3 * N1 * hi) by nra.
      nra. }
    assert (G3 : T * (hi3 * N1 * hi * C2) <= m1 * (hi3 * N1 * hi * C2)).
    { apply Qmult_le_compat_r; [exact hT|exact K3]. }
    assert (K4 : 0 <= hi3 * N1 * hi).
    { assert (0 <= hi3 * N1) by nra. nra. }
    assert (G4 : m1 * C2 * (hi3 * N1 * hi) <= m2 * C1 * (hi3 * N1 * hi)).
    { apply Qmult_le_compat_r; [exact hP|exact K4]. }
    assert (G5 : p * lo * (N1 * C1) <= m2 * hi3 * hi * (N1 * C1)).
    { apply Qle_trans with (p * N1 * (C1 * lo)); [apply Qle_lteq; right; ring|].
      apply Qle_trans with (T * N2 * hi3 * (C1 * lo)); [exact G1|].
      apply Qle_trans with (T * hi3 * (N2 * lo * C1));
        [apply Qle_lteq; right; ring|].
      apply Qle_trans with (T * hi3 * (N1 * hi * C2)); [exact G2|].
      apply Qle_trans with (T * (hi3 * N1 * hi * C2));
        [apply Qle_lteq; right; ring|].
      apply Qle_trans with (m1 * (hi3 * N1 * hi * C2)); [exact G3|].
      apply Qle_trans with (m1 * C2 * (hi3 * N1 * hi));
        [apply Qle_lteq; right; ring|].
      apply Qle_trans with (m2 * C1 * (hi3 * N1 * hi)); [exact G4|].
      apply Qle_lteq. right. ring. }
    assert (K5 : 0 < N1 * C1) by nra.
    apply (Qmult_le_r (p * lo) (m2 * hi3 * hi) (N1 * C1) K5) in G5.
    unfold lo, hi, hi3 in G5. lra. }
  pose proof (Qfloor_le p) as Hfl.
  assert (Hf0 : (0 <= Qfloor p)%Z).
  { change 0%Z with (Qfloor 0). apply Qfloor_resp_le, Hp0. }
  assert (Hf1 : (Qfloor p < M2 + 1)%Z).
  { rewrite Zlt_Qlt. lra. }
  rewrite wrap32_small by lia. lia.
Qed.

Local Open Scope Z_scope.

(** What the comparison of line 111 says, either way. *)
Lemma wider_ratios w h cw ch :
  0 <= w < 2 ^ 53 -> 0 <= h < 2 ^ 53 -> 0 < cw < 2 ^ 53 -> 0 < ch < 2 ^ 53 ->
  exists qw qh,
    fdiv (of_Z w) (of_Z cw) = Fin qw /\ fdiv (of_Z h) (of_Z ch) = Fin qh
    /\ (fgt (fdiv (of_Z w) (of_Z cw)) (fdiv (of_Z h) (of_Z ch)) = true ->
        (qh <= qw)%Q)
    /\ (fgt (fdiv (of_Z w) (of_Z cw)) (fdiv (of_Z h) (of_Z ch)) = false ->
        (qw <= qh)%Q).
Proof.
  intros Hw Hh Hcw Hch.
  destruct (fdiv_ratio w cw Hw Hcw) as [qw [Ew _]].
  destruct (fdiv_ratio h ch Hh Hch) as [qh [Eh _]].
  exists qw, qh. rewrite Ew, Eh. cbn [fgt].
  split; [reflexivity|]. split; [reflexivity|].
  split; intros H.
  - apply negb_true_iff in H.
    destruct (Qlt_le_dec qh qw) as [L|L]; [apply Qlt_le_weak, L|].
    apply Qle_bool_iff in L. congruence.
  - apply negb_false_iff, Qle_bool_iff in H. exact H.
Qed.

(** [max-width: 100%] and [max-height: 100%] resolve to the dimensions of
    the container. *)
Lemma full_percentage c :
  0 <= c < 2 ^ 31 -> parseCSSValue "100%" (of_Z c) = c.
Proof.
  intros H.
  change (parseCSSValue "100%" (of_Z c))
    with (shr0 (fmul (fdiv (of_Z 100) (of_Z 100)) (of_Z c))).
  rewrite percent_exact by (try reflexivity; lia).
  replace (100 * c) with (c * 100) by ring.
  rewrite Z.quot_mul by lia. apply wrap32_small. lia.
Qed.

(** C7, as the code has it.  When scaling is triggered the dimension of the
    branch taken (width when the width ratio is the larger, else height) is
    the resolved maximum minus the two margins of its axis, and the other
    dimension follows from the aspect ratio; neither is compared with its
    maximum.  For natural dimensions of 0 or more and a container with an
    extent, both target dimensions lie between 0 and their resolved maxima
    when the two margins of the branch's axis sum to a value between 0 and
    the resolved maximum of that axis, and the resolved maximum of that
    axis is, relative to the container, not above the one of the other axis
    (in the width branch: maxWidth * containerHeight is at most maxHeight *
    containerWidth).  Maxima of 100% on both axes are such: they resolve to
    the container's dimensions.  In both revisions. *)
Theorem C7_within_maxima :
  (forall m,
      FitFlag_v1 m ->
      (PositionImages.wider m = true ->
       PositionImages.targetWidth m
       = PositionImages.maxWidthPx m - PositionImages.imgMarginRight m
         - PositionImages.imgMarginLeft m)
      /\ (PositionImages.wider m = false ->
       PositionImages.targetHeight m
       = PositionImages.maxHeightPx m - PositionImages.imgMarginBottom m
         - PositionImages.imgMarginTop m)
      /\ (sized m ->
       PositionImages.wider m = true ->
       0 <= PositionImages.imgMarginRight m + PositionImages.imgMarginLeft m
         <= PositionImages.maxWidthPx m ->
       PositionImages.maxWidthPx m * clientHeight m
       <= PositionImages.maxHeightPx m * clientWidth m ->
       0 <= PositionImages.targetWidth m <= PositionImages.maxWidthPx m
       /\ 0 <= PositionImages.targetHeight m <= PositionImages.maxHeightPx m)
      /\ (sized m ->
       PositionImages.wider m = false ->
       0 <= PositionImages.imgMarginBottom m + PositionImages.imgMarginTop m
         <= PositionImages.maxHeightPx m ->
       PositionImages.maxHeightPx m * clientWidth m
       <= PositionImages.maxWidthPx m * clientHeight m ->
       0 <= PositionImages.targetWidth m <= PositionImages.maxWidthPx m
       /\ 0 <= PositionImages.targetHeight m
          <= PositionImages.maxHeightPx m))
  /\ (forall m,
      FitFlag_v2 m \/ overflows m ->
      (Part000.wider m = true ->
       Part000.targetWidth m
       = Part000.maxWidthPx m - Part000.imgMarginRight m
         - Part000.imgMarginLeft m)
      /\ (Part000.wider m = false ->
       Part000.targetHeight m
       = Part000.maxHeightPx m - Part000.imgMarginBottom m
         - Part000.imgMarginTop m)
      /\ (sized m ->
       Part000.wider m = true ->
       0 <= Part000.imgMarginRight m + Part000.imgMarginLeft m
         <= Part000.maxWidthPx m ->
       Part000.maxWidthPx m * clientHeight m
       <= Part000.maxHeightPx m * clientWidth m ->
       0 <= Part000.targetWidth m <= Part000.maxWidthPx m
       /\ 0 <= Part000.targetHeight m <= Part000.maxHeightPx m)
      /\ (sized m ->
       Part000.wider m = false ->
       0 <= Part000.imgMarginBottom m + Part000.imgMarginTop m
         <= Part000.maxHeightPx m ->
       Part000.maxHeightPx m * clientWidth m
       <= Part000.maxWidthPx m * clientHeight m ->
       0 <= Part000.targetWidth m <= Part000.maxWidthPx m
       /\ 0 <= Part000.targetHeight m <= Part000.maxHeightPx m))
  /\ (forall m,
      0 <= clientWidth m < 2 ^ 31 -> 0 <= clientHeight m < 2 ^ 31 ->
      maxWidth m = "100%"%string -> maxHeight m = "100%"%string ->
      PositionImages.maxWidthPx m = clientWidth m
      /\ PositionImages.maxHeightPx m = clientHeight m
      /\ Part000.maxWidthPx m = clientWidth m
      /\ Part000.maxHeightPx m = clientHeight m).
Proof.
  split; [|split].
  - intros m H.
    unfold PositionImages.targetWidth, PositionImages.targetHeight.
    rewrite (v1_target_scaled m H). unfold PositionImages.scaled.
    pose proof (parseCSSValue_range (maxWidth m)
                  (of_Z (PositionImages.parentWidth m))) as RW.
    pose proof (parseCSSValue_range (maxHeight m)
                  (of_Z (PositionImages.parentHeight m))) as RH.
    fold (PositionImages.maxWidthPx m) in *.
    fold (PositionImages.maxHeightPx m) in *.
    split; [intros Hw; rewrite Hw; reflexivity|].
    split; [intros Hw; rewrite Hw; reflexivity|].
    split; intros [Sw [Sh [Scw Sch]]] Hw Hm Hp; rewrite Hw; cbn [fst snd];
      destruct (wider_ratios _ _ _ _ Sw Sh Scw Sch)
        as [qw [qh [Ew [Eh [Ht Hf]]]]].
    + split; [lia|].
      apply (derived_within_maximum _ _ _ (clientWidth m) (clientHeight m)
               (PositionImages.maxWidthPx m) _ qw qh);
        try assumption; try lia.
      apply Ht, Hw.
    + split; [|lia].
      apply (derived_within_maximum _ _ _ (clientHeight m) (clientWidth m)
               (PositionImages.maxHeightPx m) _ qh qw);
        try assumption; try lia.
      apply Hf, Hw.
  - intros m H.
    unfold Part000.targetWidth, Part000.targetHeight.
    rewrite (v2_target_scaled m H). unfold Part000.scaled.
    pose proof (computeCSSValue_range (maxWidth m)
                  (of_Z (Part000.containerWidth m))) as RW.
    pose proof (computeCSSValue_range (maxHeight m)
                  (of_Z (Part000.containerHeight m))) as RH.
    fold (Part000.maxWidthPx m) in *.
    fold (Part000.maxHeightPx m) in *.
    split; [intros Hw; rewrite Hw; reflexivity|].
    split; [intros Hw; rewrite Hw; reflexivity|].
    split; intros [Sw [Sh [Scw Sch]]] Hw Hm Hp; rewrite Hw; cbn [fst snd];
      destruct (wider_ratios _ _ _ _ Sw Sh Scw Sch)
        as [qw [qh [Ew [Eh [Ht Hf]]]]].
    + split; [lia|].
      apply (derived_within_maximum _ _ _ (clientWidth m) (clientHeight m)
               (Part000.maxWidthPx m) _ qw qh);
        try assumption; try lia.
      apply Ht, Hw.
    + split; [|lia].
      apply (derived_within_maximum _ _ _ (clientHeight m) (clientWidth m)
               (Part000.maxHeightPx m) _ qh qw);
        try assumption; try lia.
      apply Hf, Hw.
  - intros m Hcw Hch EW EH.
    unfold PositionImages.maxWidthPx, PositionImages.maxHeightPx,
      Part000.maxWidthPx, Part000.maxHeightPx, computeCSSValue,
      PositionImages.parentWidth, PositionImages.parentHeight,
      Part000.containerWidth, Part000.containerHeight.
    fold (parseCSSValue (maxWidth m) (of_Z (clientWidth m))).
    fold (parseCSSValue (maxHeight m) (of_Z (clientHeight m))).
    rewrite EW, EH, !full_percentage by assumption.
    repeat split.
Qed.

Lemma C7_within_maxima_witness :
  FitFlag_v1 (scenario "maximize")
  /\ sized (scenario "maximize")
  /\ PositionImages.wider (scenario "maximize") = true
  /\ 0 <= PositionImages.targetWidth (scenario "maximize")
       <= PositionImages.maxWidthPx (scenario "maximize")
  /\ 0 <= PositionImages.targetHeight (scenario "maximize")
       <= PositionImages.maxHeightPx (scenario "maximize").
Proof.
  assert (F : FitFlag_v1 (scenario "maximize")) by (left; reflexivity).
  assert (S : sized (scenario "maximize")).
  { unfold sized. cbn. lia. }
  assert (W : PositionImages.wider (scenario "maximize") = true)
    by (vm_compute; reflexivity).
  assert (M : 0 <= PositionImages.imgMarginRight (scenario "maximize")
                   + PositionImages.imgMarginLeft (scenario "maximize")
                <= PositionImages.maxWidthPx (scenario "maximize")).
  { vm_compute. split; discriminate. }
  assert (P : PositionImages.maxWidthPx (scenario "maximize")
              * clientHeight (scenario "maximize")
              <= PositionImages.maxHeightPx (scenario "maximize")
                 * clientWidth (scenario "maximize")).
  { vm_compute. discriminate. }
  split; [exact F|]. split; [exact S|]. split; [exact W|].
  exact (proj1 (proj2 (proj2 (proj1 C7_within_maxima _ F))) S W M P).
Defined.

(** C7, counterexamples, in both revisions.  With [max-height: 50%] a
    800x500 image in a 400x300 container takes the width branch and gets the
    height 250, above the resolved maximum 150.  With a left margin of -10px
    the width of the scenario becomes 410, above the resolved maximum 400.
    With a left margin of 3001px in a container 1px wide the width is
    -3000, and the height derived from it, -3145725000, is reduced modulo
    2^32 to 1149242296, above the resolved maximum 1048576.  And in a
    container without extent both ratios are infinite, the height branch is
    taken, and the 800x300 image with [max-height: 100px] gets the width
    266, above its [max-width] of 50px. *)
Lemma C7_target_above_maximum :
  (FitFlag_v1 half_height
   /\ PositionImages.target half_height = (400, 250)
   /\ PositionImages.maxHeightPx half_height = 150)
  /\ (FitFlag_v2 half_height
   /\ Part000.target half_height = (400, 250)
   /\ Part000.maxHeightPx half_height = 150)
  /\ (FitFlag_v1 negative_margin
   /\ PositionImages.targetWidth negative_margin = 410
   /\ PositionImages.maxWidthPx negative_margin = 400)
  /\ (FitFlag_v2 negative_margin
   /\ Part000.targetWidth negative_margin = 410
   /\ Part000.maxWidthPx negative_margin = 400)
  /\ (FitFlag_v1 wide_margin
   /\ PositionImages.target wide_margin = (-3000, 1149242296)
   /\ PositionImages.maxHeightPx wide_margin = 1048576)
  /\ (FitFlag_v2 wide_margin
   /\ Part000.target wide_margin = (-3000, 1149242296)
   /\ Part000.maxHeightPx wide_margin = 1048576)
  /\ (FitFlag_v1 collapsed
   /\ PositionImages.wider collapsed = false
   /\ PositionImages.target collapsed = (266, 100)
   /\ PositionImages.maxWidthPx collapsed = 50
   /\ PositionImages.maxHeightPx collapsed = 100)
  /\ (FitFlag_v2 collapsed
   /\ Part000.wider collapsed = false
   /\ Part000.target collapsed = (266, 100)
   /\ Part000.maxWidthPx collapsed = 50
   /\ Part000.maxHeightPx collapsed = 100).
Proof.
  repeat split; try (left; reflexivity); vm_compute; reflexivity.
Qed.

(** ** The rounding model against the Standard Library's binary64 *)

Example rounding_agrees_with_SpecFloat :
  forallb agree
    [(29, 100, 100); (1, 49, 49); (400, 800, 300); (1, 3, 1); (-7, 3, 5);
     (50, 100, 200); (100000, 1, 100000); (2 ^ 53 - 1, 3, 7);
     (12345, 100, 1080); (-33, 100, 1919); (1, 0, 5); (0, 0, 5);
     (-1, 0, 3); (2 ^ 31 - 1, 2 ^ 32 - 1, 2 ^ 32 - 1); (0, 7, 9);
     (- 2 ^ 31, 2 ^ 32 - 1, 2 ^ 32 - 1); (3, 7, 11); (99, 100, 2 ^ 31 - 1);
     (2 ^ 53 - 1, 2 ^ 53 - 1, 2 ^ 53 - 1); (1, 2 ^ 53 - 1, 3); (640, 1920, 1080)]
  = true.
Proof. vm_compute. reflexivity. Qed.

(** * Further properties of the code *)

(** ** Reading back a pixel string *)

Lemma read_digits_uint u suffix a :
  read_digits 10 (NilEmpty.string_of_uint u ++ suffix)%string (Some a)
  = read_digits 10 suffix (Some (uint_acc u a)).
Proof.
  revert a. induction u; intros a; cbn [NilEmpty.string_of_uint uint_acc];
    try reflexivity; apply IHu.
Qed.

Lemma read_digits_uint_first u suffix :
  u <> Decimal.Nil ->
  read_digits 10 (NilEmpty.string_of_uint u ++ suffix)%string None
  = read_digits 10 suffix (Some (uint_acc u 0)).
Proof.
  intros H. destruct u; try congruence;
    cbn [NilEmpty.string_of_uint uint_acc]; apply read_digits_uint.
Qed.

Lemma of_uint_acc_Z l acc :
  Zpos (Pos.of_uint_acc l acc) = uint_acc l (Zpos acc).
Proof.
  revert acc. induction l; intros acc; cbn [Pos.of_uint_acc uint_acc];
    try reflexivity; rewrite IHl; f_equal; lia.
Qed.

Lemma of_uint_Z u : Z.of_N (Pos.of_uint u) = uint_acc u 0.
Proof.
  induction u; cbn [Pos.of_uint uint_acc]; try reflexivity;
    try exact IHu; cbn [Z.of_N]; rewrite of_uint_acc_Z; reflexivity.
Qed.

Lemma to_uint_value p : uint_acc (Pos.to_uint p) 0 = Zpos p.
Proof.
  rewrite <- of_uint_Z, DecimalPos.Unsigned.of_to. reflexivity.
Qed.

Lemma to_uint_not_nil p : Pos.to_uint p <> Decimal.Nil.
Proof.
  intros H. pose proof (to_uint_value p) as E. rewrite H in E.
  discriminate.
Qed.

Lemma read_digits_stop suffix v :
  unit_suffix suffix = true -> read_digits 10 suffix (Some v) = Some v.
Proof.
  destruct suffix as [|c r]; [reflexivity|]. cbn [unit_suffix read_digits].
  intros H. unfold digit_value.
  destruct ((48 <=? code c) && (code c <=? 57)) eqn:E1; [discriminate|].
  destruct ((97 <=? code c) && (code c <=? 122)) eqn:E2.
  { replace (code c - 87 <? 10) with false; [reflexivity|].
    symmetry. apply Z.ltb_ge. lia. }
  destruct ((65 <=? code c) && (code c <=? 90)) eqn:E3; [|reflexivity].
  replace (code c - 55 <? 10) with false; [reflexivity|].
  symmetry. apply Z.ltb_ge. lia.
Qed.

Ltac ascii_cases c H :=
  destruct c as [[] [] [] [] [] [] [] []];
  try (vm_compute in H; discriminate H).

(** On a string that starts with a decimal digit, and not with the radix
    prefix, [parseInt] reads radix-10 digits from the first character. *)
Lemma parse_prefix_digit c rest :
  is_decimal_digit c = true ->
  (code c =? 48) && negb (not_radix_mark rest) = false ->
  parse_prefix (String c rest) = read_digits 10 (String c rest) None.
Proof.
  intros Hd Hx. unfold parse_prefix.
  assert (Hw : is_white c = false).
  { ascii_cases c Hd; reflexivity. }
  cbn [trim_start]. rewrite Hw.
  destruct (Z.eqb_spec (code c) 48) as [E|E].
  - assert (c = "0"%char) by (ascii_cases c Hd; vm_compute in E;
                              first [reflexivity|discriminate E]).
    subst c. cbn [andb negb] in Hx.
    destruct rest as [|c2 r].
    + reflexivity.
    + cbn [not_radix_mark] in Hx.
      assert (Hx' : negb (negb (code c2 =? 120) && negb (code c2 =? 88))
                    = false) by exact Hx.
      ascii_cases c2 Hx';
        destruct (read_digits 10 (String "0" (String _ r)) None) eqn:R;
        cbv beta iota; rewrite ?R; reflexivity.
  - ascii_cases c Hd; try (exfalso; apply E; reflexivity);
      destruct (read_digits 10 (String _ rest) None) eqn:R;
      cbv beta iota; rewrite ?R; reflexivity.
Qed.

Lemma parse_prefix_minus c rest :
  is_decimal_digit c = true ->
  (code c =? 48) && negb (not_radix_mark rest) = false ->
  parse_prefix (String "-" (String c rest))
  = option_map Z.opp (read_digits 10 (String c rest) None).
Proof.
  intros Hd Hx. unfold parse_prefix.
  change (trim_start (String "-" (String c rest)))
    with (String "-" (String c rest)).
  cbv beta iota.
  destruct (Z.eqb_spec (code c) 48) as [E|E].
  - assert (c = "0"%char) by (ascii_cases c Hd; vm_compute in E;
                              first [reflexivity|discriminate E]).
    subst c. cbn [andb negb] in Hx.
    destruct rest as [|c2 r].
    + reflexivity.
    + cbn [not_radix_mark] in Hx.
      assert (Hx' : negb (negb (code c2 =? 120) && negb (code c2 =? 88))
                    = false) by exact Hx.
      ascii_cases c2 Hx';
        destruct (read_digits 10 (String "0" (String _ r)) None) eqn:R;
        cbv beta iota; rewrite ?R; reflexivity.
  - ascii_cases c Hd; try (exfalso; apply E; reflexivity);
      destruct (read_digits 10 (String _ rest) None) eqn:R;
      cbv beta iota; rewrite ?R; reflexivity.
Qed.

Lemma unit_suffix_not_radix_mark s :
  unit_suffix s = true -> not_radix_mark s = true.
Proof.
  destruct s as [|c r]; [reflexivity|]. cbn [unit_suffix not_radix_mark].
  intros H. apply andb_true_iff in H. destruct H as [H1 H2].
  apply andb_true_iff in H1. destruct H1 as [_ H1].
  rewrite H1, H2. reflexivity.
Qed.

Lemma digits_not_radix_mark u suffix :
  u <> Decimal.Nil ->
  not_radix_mark (NilEmpty.string_of_uint u ++ suffix)%string = true.
Proof. intros H. destruct u; try congruence; reflexivity. Qed.

(** The digits of [u] followed by a unit are read back as the value of
    [u]. *)
Lemma parse_prefix_uint u suffix :
  u <> Decimal.Nil -> unit_suffix suffix = true ->
  parse_prefix (NilEmpty.string_of_uint u ++ suffix)%string
  = Some (uint_acc u 0)
  /\ parse_prefix (String "-" (NilEmpty.string_of_uint u ++ suffix))%string
     = Some (- uint_acc u 0).
Proof.
  intros Hu Hs.
  assert (Hr : read_digits 10 (NilEmpty.string_of_uint u ++ suffix)%string
                 None = Some (uint_acc u 0)).
  { rewrite read_digits_uint_first by exact Hu.
    apply read_digits_stop, Hs. }
  assert (Hx : forall l,
             not_radix_mark (NilEmpty.string_of_uint l ++ suffix)%string
             = true).
  { intros l. destruct l; try reflexivity.
    apply unit_suffix_not_radix_mark, Hs. }
  destruct u; try congruence;
    cbn [NilEmpty.string_of_uint append] in *;
    (split;
     [rewrite parse_prefix_digit
     |rewrite parse_prefix_minus]);
    try reflexivity; try (rewrite Hr; reflexivity);
    rewrite Hx; reflexivity.
Qed.

Lemma parse_prefix_decimal n suffix :
  unit_suffix suffix = true ->
  parse_prefix (decimal n ++ suffix)%string = Some n.
Proof.
  intros Hs. destruct n as [|p|p].
  - change (decimal 0 ++ suffix)%string with (String "0" suffix).
    rewrite parse_prefix_digit.
    + cbn [read_digits]. change (digit_value "0") with (Some 0).
      cbv beta iota. change (0 <? 10) with true. cbv iota.
      apply read_digits_stop, Hs.
    + reflexivity.
    + rewrite (unit_suffix_not_radix_mark _ Hs). reflexivity.
  - unfold decimal. cbn [Z.to_int NilZero.string_of_int].
    unfold NilZero.string_of_uint.
    pose proof (to_uint_not_nil p) as Hn.
    pose proof (to_uint_value p) as Hv.
    destruct (parse_prefix_uint (Pos.to_uint p) suffix Hn Hs) as [H _].
    rewrite Hv in H.
    destruct (Pos.to_uint p); try congruence; exact H.
  - unfold decimal. cbn [Z.to_int NilZero.string_of_int].
    unfold NilZero.string_of_uint.
    pose proof (to_uint_not_nil p) as Hn.
    pose proof (to_uint_value p) as Hv.
    destruct (parse_prefix_uint (Pos.to_uint p) suffix Hn Hs) as [_ H].
    rewrite Hv in H.
    destruct (Pos.to_uint p); try congruence; exact H.
Qed.

Lemma indexOf_lower_bound s c : -1 <= indexOf s c.
Proof.
  induction s as [|x r IH]; cbn [indexOf]; [lia|].
  destruct (Ascii.eqb x c); [lia|].
  destruct (indexOf r c =? -1); lia.
Qed.

Lemma indexOf_app_none a b c :
  indexOf a c = -1 -> indexOf b c = -1 -> indexOf (a ++ b)%string c = -1.
Proof.
  intros Ha Hb. induction a as [|x r IH]; [exact Hb|].
  cbn [append indexOf] in *.
  destruct (Ascii.eqb x c); [discriminate|].
  pose proof (indexOf_lower_bound r c) as Hl.
  destruct (indexOf r c =? -1) eqn:E.
  - apply Z.eqb_eq in E. rewrite (IH E). reflexivity.
  - exfalso. apply Z.eqb_neq in E. lia.
Qed.

Lemma digits_no_percent u : indexOf (NilEmpty.string_of_uint u) "%" = -1.
Proof.
  induction u; cbn [NilEmpty.string_of_uint indexOf]; try reflexivity;
    rewrite IHu; reflexivity.
Qed.

Lemma decimal_no_percent n : indexOf (decimal n) "%" = -1.
Proof.
  destruct n as [|p|p]; [reflexivity| |];
    unfold decimal; cbn [Z.to_int NilZero.string_of_int];
    unfold NilZero.string_of_uint.
  - pose proof (digits_no_percent (Pos.to_uint p)).
    destruct (Pos.to_uint p); try reflexivity; assumption.
  - cbn [indexOf]. change (Ascii.eqb "-" "%") with false. cbv iota.
    assert (H : indexOf match Pos.to_uint p with
                        | Decimal.Nil => "0"%string
                        | _ => NilEmpty.string_of_uint (Pos.to_uint p)
                        end "%" = -1).
    { pose proof (digits_no_percent (Pos.to_uint p)).
      destruct (Pos.to_uint p); try reflexivity; assumption. }
    rewrite H. reflexivity.
Qed.

(** Without percent marker the normalizer returns the integer [parseInt]
    reads, when it is a 32-bit one. *)
Lemma parseCSSValue_pixels s n mult :
  parse_prefix s = Some n -> indexOf s "%" = -1 ->
  - 2 ^ 31 <= n < 2 ^ 31 -> parseCSSValue s mult = n.
Proof.
  intros Hn Hi Hr. unfold parseCSSValue, parseInt.
  rewrite Hn, Hi. change (negb (-1 =? -1)) with false. cbv iota.
  rewrite shr0_to_int32, of_Z_exact by lia. cbn [to_int32].
  rewrite Qtrunc_inject_Z. apply wrap32_small, Hr.
Qed.

(** X1.  What the plugin writes it reads back: the decimal digits of a
    32-bit integer followed by a unit ([px] as in [n + "px"], or any suffix
    that starts with neither a decimal digit nor [x] / [X] and has no
    percent sign) normalize to that integer, whatever the multiplier. *)
Theorem pixel_string_round_trip :
  forall n suffix mult,
    - 2 ^ 31 <= n < 2 ^ 31 ->
    unit_suffix suffix = true -> indexOf suffix "%" = -1 ->
    parseCSSValue (decimal n ++ suffix)%string mult = n
    /\ computeCSSValue (decimal n ++ suffix)%string mult = n.
Proof.
  intros n suffix mult Hr Hs Hp.
  assert (H : parseCSSValue (decimal n ++ suffix)%string mult = n).
  { apply parseCSSValue_pixels; [|apply indexOf_app_none|exact Hr].
    - apply parse_prefix_decimal, Hs.
    - apply decimal_no_percent.
    - exact Hp. }
  split; exact H.
Qed.

Lemma pixel_string_round_trip_witness :
  px (-75) = "-75px"%string /\ parseCSSValue (px (-75)) (of_Z 300) = -75.
Proof.
  split; [reflexivity|].
  apply (pixel_string_round_trip (-75) "px" (of_Z 300)).
  - split; [vm_compute; discriminate|reflexivity].
  - reflexivity.
  - reflexivity.
Defined.

(** ** Zero dimensions *)

(** X2.  A percentage of a zero reference is 0: with a collapsed container
    ([clientWidth] or [clientHeight] 0, as for a section that is not
    displayed) every string with a percent sign normalizes to 0, whatever
    stands before the sign. *)
Theorem percentage_of_zero :
  forall s,
    indexOf s "%" <> -1 ->
    parseCSSValue s (of_Z 0) = 0 /\ computeCSSValue s (of_Z 0) = 0.
Proof.
  intros s Hi.
  assert (Hp : negb (indexOf s "%" =? -1) = true).
  { apply negb_true_iff, Z.eqb_neq, Hi. }
  unfold parseCSSValue, computeCSSValue. rewrite Hp, shr0_to_int32.
  change (of_Z 0) with (Fin 0).
  split; apply fmul_zero_r.
Qed.

Lemma percentage_of_zero_witness :
  indexOf "12.5%" "%" <> -1 /\ parseCSSValue "12.5%" (of_Z 0) = 0.
Proof.
  assert (H : indexOf "12.5%" "%" <> -1) by (vm_compute; discriminate).
  split; [exact H|]. exact (proj1 (percentage_of_zero "12.5%" H)).
Defined.

(** X3.  An image that reports a natural width or height of 0 (a vector
    image without size, an image that failed to load) and is scaled gets 0
    for the dimension derived from the aspect ratio; the division by zero
    raises nothing.  In both revisions. *)
Theorem zero_natural_dimension :
  forall m,
    img_width m = 0 \/ img_height m = 0 ->
    (FitFlag_v1 m ->
     if PositionImages.wider m
     then PositionImages.targetHeight m = 0
     else PositionImages.targetWidth m = 0)
    /\ (FitFlag_v2 m \/ overflows m ->
     if Part000.wider m
     then Part000.targetHeight m = 0
     else Part000.targetWidth m = 0).
Proof.
  intros m H0. split; intros Hfit.
  - unfold PositionImages.targetWidth, PositionImages.targetHeight.
    rewrite (v1_target_scaled m Hfit). unfold PositionImages.scaled.
    destruct (PositionImages.wider m); cbn [fst snd];
      apply scale_by_zero;
      unfold PositionImages.originalWidth, PositionImages.originalHeight;
      tauto.
  - unfold Part000.targetWidth, Part000.targetHeight.
    rewrite (v2_target_scaled m Hfit). unfold Part000.scaled.
    destruct (Part000.wider m); cbn [fst snd];
      apply scale_by_zero;
      unfold Part000.originalWidth, Part000.originalHeight;
      tauto.
Qed.

Lemma zero_natural_dimension_witness :
  (img_width unsized = 0 \/ img_height unsized = 0)
  /\ FitFlag_v1 unsized
  /\ PositionImages.wider unsized = false
  /\ PositionImages.targetWidth unsized = 0.
Proof.
  assert (H0 : img_width unsized = 0 \/ img_height unsized = 0)
    by (left; reflexivity).
  assert (F : FitFlag_v1 unsized) by (left; reflexivity).
  assert (W : PositionImages.wider unsized = false)
    by (vm_compute; reflexivity).
  split; [exact H0|]. split; [exact F|]. split; [exact W|].
  pose proof (proj1 (zero_natural_dimension unsized H0) F) as H.
  rewrite W in H. exact H.
Defined.

(** ** What a call restores and what it forces *)

(** X4.  Hiding is undone and positioning is forced: after a call the
    image's [display] and [visibility] and the [display] of the enclosing
    section(s) are what they were before, whatever they were; the image is
    [position: absolute] and its container [position: relative].  In both
    revisions. *)
Theorem positionImage_restores_visibility :
  (forall m (d : page string),
      display (img_style (PositionImages.positionImage m d))
      = display (img_style d)
      /\ visibility (img_style (PositionImages.positionImage m d))
         = visibility (img_style d)
      /\ section_display (PositionImages.positionImage m d)
         = section_display d
      /\ position (img_style (PositionImages.positionImage m d))
         = "absolute"%string
      /\ container_position (PositionImages.positionImage m d)
         = "relative"%string)
  /\ (forall m (d : page (list string)),
      display (img_style (Part000.positionImage m d))
      = display (img_style d)
      /\ visibility (img_style (Part000.positionImage m d))
         = visibility (img_style d)
      /\ section_display (Part000.positionImage m d) = section_display d
      /\ position (img_style (Part000.positionImage m d))
         = "absolute"%string
      /\ container_position (Part000.positionImage m d)
         = "relative"%string).
Proof.
  split; intros m d.
  - rewrite positionImage_v1. cbv zeta. unfold_setters.
    repeat split; reflexivity.
  - rewrite positionImage_v2. cbv zeta. unfold_setters.
    repeat split; reflexivity.
Qed.

(** ** The two revisions side by side *)

Lemma last_offset_some f l v :
  last_offset f l (Some v) <> None.
Proof.
  revert v. induction l as [|c r IH]; intros v; cbn [last_offset].
  - discriminate.
  - destruct (f c); apply IH.
Qed.

Lemma last_offset_exists f (p : string -> bool) l :
  (forall c, p c = true -> f c <> None) ->
  existsb p l = true -> last_offset f l None <> None.
Proof.
  intros Hp. induction l as [|c r IH]; cbn [existsb last_offset].
  - discriminate.
  - intros H. destruct (p c) eqn:E.
    + specialize (Hp c E). destruct (f c); [apply last_offset_some|].
      congruence.
    + cbn [orb] in H. destruct (f c); [apply last_offset_some|].
      apply IH, H.
Qed.

Lemma vertical_offset_some b c :
  is_vertical c = true -> vertical_offset b c <> None.
Proof.
  unfold is_vertical, vertical_offset. intros H.
  destruct (c =? "top")%string; [discriminate|].
  destruct (c =? "middle")%string; [discriminate|].
  destruct (c =? "bottom")%string; [discriminate|]. discriminate.
Qed.

Lemma horizontal_offset_some b c :
  is_horizontal c = true -> horizontal_offset b c <> None.
Proof.
  unfold is_horizontal, horizontal_offset. intros H.
  destruct (c =? "left")%string; [discriminate|].
  destruct (c =? "center")%string; [discriminate|].
  destruct (c =? "centre")%string; [discriminate|].
  destruct (c =? "right")%string; [discriminate|]. discriminate.
Qed.

(** X5.  The later revision against position-images.js.  On an input where
    both take the same scaling decision (both scale, or neither does), they
    compute the same target size and write the same [width] and [height];
    on an axis for which the class list has a keyword they write the same
    offset.  (Without a keyword the older one keeps the prior offset and the
    later one writes 0.) *)
Theorem revisions_agree :
  forall m (d1 : page string) (d2 : page (list string)),
    PositionImages.maximise m = Part000.fits m ->
    img_style d1 = img_style d2 ->
    PositionImages.target m = Part000.target m
    /\ width (img_style (PositionImages.positionImage m d1))
       = width (img_style (Part000.positionImage m d2))
    /\ height (img_style (PositionImages.positionImage m d1))
       = height (img_style (Part000.positionImage m d2))
    /\ (existsb is_vertical (classList m) = true ->
        top (img_style (PositionImages.positionImage m d1))
        = top (img_style (Part000.positionImage m d2)))
    /\ (existsb is_horizontal (classList m) = true ->
        left (img_style (PositionImages.positionImage m d1))
        = left (img_style (Part000.positionImage m d2))).
Proof.
  intros m d1 d2 Hsame Hstyle.
  assert (Ht : PositionImages.target m = Part000.target m).
  { unfold PositionImages.target, Part000.target. rewrite Hsame.
    reflexivity. }
  assert (Hb : box_v1 m = box_v2 m).
  { unfold box_v1, box_v2, PositionImages.targetWidth,
      PositionImages.targetHeight, Part000.targetWidth,
      Part000.targetHeight. rewrite Ht. reflexivity. }
  rewrite positionImage_v1, positionImage_v2. cbv zeta.
  unfold PositionImages.targetWidth, PositionImages.targetHeight,
    Part000.targetWidth, Part000.targetHeight.
  rewrite Hb, Ht, Hsame, Hstyle. unfold_setters.
  split; [reflexivity|]. split; [reflexivity|]. split; [reflexivity|].
  split; intros Hk.
  - pose proof (last_offset_exists (vertical_offset (box_v2 m)) is_vertical
                  (classList m) (vertical_offset_some _) Hk) as Hl.
    destruct (last_offset (vertical_offset (box_v2 m)) (classList m) None);
      [reflexivity|congruence].
  - pose proof (last_offset_exists (horizontal_offset (box_v2 m))
                  is_horizontal (classList m) (horizontal_offset_some _) Hk)
      as Hl.
    destruct (last_offset (horizontal_offset (box_v2 m)) (classList m) None);
      [reflexivity|congruence].
Qed.

Lemma revisions_agree_witness :
  PositionImages.maximise half_height = Part000.fits half_height
  /\ PositionImages.target half_height = Part000.target half_height.
Proof.
  assert (H : PositionImages.maximise half_height
              = Part000.fits half_height) by reflexivity.
  split; [exact H|].
  exact (proj1 (revisions_agree half_height (fresh blank "none"%string)
                  (fresh blank ["none"%string]) H eq_refl)).
Defined.

(** ** The loop over the containers *)

Section DriverProperties.
Variable S : Type.
Variable walk : list Node -> S.
Variable nothing_found : S -> bool.
Variable message : string.

Lemma each_container_finishes cs c v :
  (forall c', In c' (cs ++ [c]) ->
              nothing_found (walk (ancestors c')) = false) ->
  each_container S walk nothing_found message (cs ++ [c]) v
  = (flat_map (own_effects walk) (cs ++ [c]),
     mkVars (Some c) (Some (walk (ancestors c))), Finished).
Proof.
  revert v. induction cs as [|c0 r IH]; intros v H.
  - cbn [app each_container flat_map].
    rewrite (H c (or_introl eq_refl)). rewrite !app_nil_r. reflexivity.
  - cbn [app each_container flat_map].
    rewrite (H c0 (or_introl eq_refl)).
    rewrite IH; [reflexivity|].
    intros c' Hc'. apply H. right. exact Hc'.
Qed.

Lemma each_container_throws cs c rest v :
  (forall c', In c' cs -> nothing_found (walk (ancestors c')) = false) ->
  nothing_found (walk (ancestors c)) = true ->
  each_container S walk nothing_found message (cs ++ c :: rest) v
  = (flat_map (own_effects walk) cs,
     mkVars (Some c) (Some (walk (ancestors c))), Thrown message).
Proof.
  revert v. induction cs as [|c0 r IH]; intros v H Hc.
  - cbn [app each_container flat_map]. rewrite Hc. reflexivity.
  - cbn [app each_container flat_map].
    rewrite (H c0 (or_introl eq_refl)).
    rewrite IH; [reflexivity| |exact Hc].
    intros c' Hc'. apply H. right. exact Hc'.
Qed.

Lemma each_image_complete (v : vars S) imgs img :
  In img imgs -> complete img = true ->
  In (CallPositionImage img (var_containerDIV v) (var_section v))
     (each_image v imgs).
Proof.
  induction imgs as [|i r IH]; intros Hin Hc; [destruct Hin|].
  cbn [each_image]. destruct Hin as [E|Hin].
  - subst i. rewrite Hc. right. left. reflexivity.
  - right. right. apply IH; assumption.
Qed.

Lemma each_image_loading (v : vars S) imgs img :
  In img imgs -> complete img = false ->
  In (AddLoadListener img) (each_image v imgs).
Proof.
  induction imgs as [|i r IH]; intros Hin Hc; [destruct Hin|].
  cbn [each_image]. destruct Hin as [E|Hin].
  - subst i. rewrite Hc. right. left. reflexivity.
  - right. right. apply IH; assumption.
Qed.
End DriverProperties.

Lemma is_null_false s : is_null s = false <-> s <> None.
Proof. destruct s; cbn; split; congruence. Qed.

Lemma is_empty_false l : is_empty l = false <-> l <> [].
Proof. destruct l; cbn; split; congruence. Qed.

(** X6.  Whose container.  When every container has a section, the script
    ends normally after treating the containers in order; an image that is
    complete is positioned at once against its own container and that
    container's section(s); an image still loading gets a load listener.
    The listener reads the variables [containerDIV] and [parentSection]
    ([parentSections]) of the enclosing function when it runs, that is after
    the script has ended: whichever container the image is in, it is then
    positioned against the last container of the document.  In both
    revisions. *)
Theorem late_images_use_the_last_container :
  (forall cs c,
      (forall c', In c' (cs ++ [c]) -> findSection (ancestors c') <> None) ->
      let '(trace, v, how) := run_v1 (cs ++ [c]) in
      how = Finished
      /\ trace = flat_map (own_effects findSection) (cs ++ [c])
      /\ (forall c' img,
             In c' (cs ++ [c]) -> In img (alignedImages c') ->
             if complete img
             then In (CallPositionImage img (Some c')
                        (Some (findSection (ancestors c')))) trace
             else In (AddLoadListener img) trace)
      /\ (forall img,
             load_listener v img
             = CallPositionImage img (Some c)
                 (Some (findSection (ancestors c)))))
  /\ (forall cs c,
      (forall c', In c' (cs ++ [c]) -> collectSections (ancestors c') <> []) ->
      let '(trace, v, how) := run_v2 (cs ++ [c]) in
      how = Finished
      /\ trace = flat_map (own_effects collectSections) (cs ++ [c])
      /\ (forall c' img,
             In c' (cs ++ [c]) -> In img (alignedImages c') ->
             if complete img
             then In (CallPositionImage img (Some c')
                        (Some (collectSections (ancestors c')))) trace
             else In (AddLoadListener img) trace)
      /\ (forall img,
             load_listener v img
             = CallPositionImage img (Some c)
                 (Some (collectSections (ancestors c))))).
Proof.
  split; intros cs c H.
  - unfold run_v1, run. rewrite each_container_finishes.
    2:{ intros c' Hc'. apply is_null_false, H, Hc'. }
    split; [reflexivity|]. split; [reflexivity|]. split; [|reflexivity].
    intros c' img Hc' Hi. destruct (complete img) eqn:E.
    + apply in_flat_map. exists c'. split; [exact Hc'|].
      apply (each_image_complete _ (mkVars (Some c') _)); assumption.
    + apply in_flat_map. exists c'. split; [exact Hc'|].
      apply each_image_loading; assumption.
  - unfold run_v2, run. rewrite each_container_finishes.
    2:{ intros c' Hc'. apply is_empty_false, H, Hc'. }
    split; [reflexivity|]. split; [reflexivity|]. split; [|reflexivity].
    intros c' img Hc' Hi. destruct (complete img) eqn:E.
    + apply in_flat_map. exists c'. split; [exact Hc'|].
      apply (each_image_complete _ (mkVars (Some c') _)); assumption.
    + apply in_flat_map. exists c'. split; [exact Hc'|].
      apply each_image_loading; assumption.
Qed.

(** X6 on a deck of two containers: the image still loading in the first one
    is positioned, when it has loaded, against the last one. *)
Lemma late_images_use_the_last_container_witness :
  (forall c', In c' ([first_div] ++ [last_div]) ->
              findSection (ancestors c') <> None)
  /\ load_listener (snd (fst (run_v1 ([first_div] ++ [last_div]))))
       (mkImage "loading" false)
     = CallPositionImage (mkImage "loading" false) (Some last_div)
         (Some (Some (mkNode "SECTION" []))).
Proof.
  assert (H : forall c', In c' ([first_div] ++ [last_div]) ->
                         findSection (ancestors c') <> None).
  { intros c' [E|[E|[]]]; subst c'; discriminate. }
  split; [exact H|].
  pose proof (proj1 late_images_use_the_last_container [first_div] last_div H)
    as T.
  destruct (run_v1 ([first_div] ++ [last_div])) as [[trace v] how].
  destruct T as [_ [_ [_ T]]]. cbn [fst snd]. rewrite T. reflexivity.
Defined.

(** X7.  Fail fast, for the whole document.  At the first container without
    section the script throws; the containers before it have been treated
    in full, and nothing at all is done for that container and for those
    after it: their images are not positioned, get no listener, and their
    [isPositioned] is not even reset.  In both revisions. *)
Theorem first_stray_container_stops_the_script :
  (forall cs c rest,
      (forall c', In c' cs -> findSection (ancestors c') <> None) ->
      findSection (ancestors c) = None ->
      run_v1 (cs ++ c :: rest)
      = (flat_map (own_effects findSection) cs,
         mkVars (Some c) (Some None),
         Thrown "presentation contains a DIV with no parent SECTION"))
  /\ (forall cs c rest,
      (forall c', In c' cs -> collectSections (ancestors c') <> []) ->
      collectSections (ancestors c) = [] ->
      run_v2 (cs ++ c :: rest)
      = (flat_map (own_effects collectSections) cs,
         mkVars (Some c) (Some []),
         Thrown
           "presentation contains a DIV image container outside any SECTION")).
Proof.
  split; intros cs c rest H Hc.
  - unfold run_v1, run. rewrite each_container_throws.
    + rewrite Hc. reflexivity.
    + intros c' Hc'. apply is_null_false, H, Hc'.
    + rewrite Hc. reflexivity.
  - unfold run_v2, run. rewrite each_container_throws.
    + rewrite Hc. reflexivity.
    + intros c' Hc'. apply is_empty_false, H, Hc'.
    + rewrite Hc. reflexivity.
Qed.

Lemma first_stray_container_stops_the_script_witness :
  (forall c', In c' [first_div] -> findSection (ancestors c') <> None)
  /\ findSection (ancestors stray_div) = None
  /\ fst (fst (run_v1 ([first_div] ++ stray_div :: [last_div])))
     = own_effects findSection first_div.
Proof.
  assert (H : forall c', In c' [first_div] ->
                         findSection (ancestors c') <> None).
  { intros c' [E|[]]; subst c'; discriminate. }
  split; [exact H|]. split; [reflexivity|].
  rewrite (proj1 first_stray_container_stops_the_script [first_div]
             stray_div [last_div] H eq_refl).
  reflexivity.
Defined.

(** ** The walk to the sections *)

Lemma collectSections_stop pre n up :
  (forall x, In x pre -> is_slides x = false) ->
  is_slides n = true \/ up = [] ->
  collectSections (pre ++ n :: up) = filter is_section pre.
Proof.
  intros Hpre Hn. induction pre as [|x r IH].
  - cbn [app filter collectSections].
    destruct up as [|u up']; [reflexivity|].
    destruct Hn as [Hn|Hn]; [rewrite Hn; reflexivity|discriminate].
  - cbn [app filter]. cbn [collectSections].
    assert (Hx : is_slides x = false) by (apply Hpre; left; reflexivity).
    assert (IH' : collectSections (r ++ n :: up) = filter is_section r).
    { apply IH. intros y Hy. apply Hpre. right. exact Hy. }
    destruct (r ++ n :: up)%list as [|y ys] eqn:E.
    { destruct r; discriminate. }
    rewrite Hx, IH'. unfold is_section.
    destruct (tagName x =? "SECTION")%string; reflexivity.
Qed.

Lemma collectSections_head chain :
  collectSections chain <> [] ->
  hd_error (collectSections chain) = findSection chain.
Proof.
  induction chain as [|n up IH]; [intros H; exfalso; apply H; reflexivity|].
  cbn [collectSections findSection].
  destruct up as [|u up']; [intros H; exfalso; apply H; reflexivity|].
  destruct (is_slides n); [intros H; exfalso; apply H; reflexivity|].
  destruct (tagName n =? "SECTION")%string.
  - intros _. reflexivity.
  - cbn [app]. exact IH.
Qed.

(** X8.  Which sections the later revision shows while it measures: the
    [SECTION] elements from the container upward that lie below the first
    [div.slides], innermost first; the node at the top of the chain is never
    looked at.  When there is one, the innermost is the section
    position-images.js uses. *)
Theorem sections_below_the_slides :
  (forall pre n up,
      (forall x, In x pre -> is_slides x = false) ->
      is_slides n = true \/ up = [] ->
      collectSections (pre ++ n :: up) = filter is_section pre)
  /\ (forall chain,
      collectSections chain <> [] ->
      hd_error (collectSections chain) = findSection chain).
Proof.
  split; [exact collectSections_stop|exact collectSections_head].
Qed.

Lemma sections_below_the_slides_witness :
  (forall x, In x [mkNode "DIV" ["img-container"]; mkNode "SECTION" []] ->
             is_slides x = false)
  /\ collectSections slide_chain = [mkNode "SECTION" []].
Proof.
  assert (H : forall x,
             In x [mkNode "DIV" ["img-container"]; mkNode "SECTION" []] ->
             is_slides x = false).
  { intros x [E|[E|[]]]; subst x; reflexivity. }
  split; [exact H|].
  exact (proj1 sections_below_the_slides
           [mkNode "DIV" ["img-container"]; mkNode "SECTION" []]
           (mkNode "DIV" ["slides"])
           [mkNode "DIV" ["reveal"]; mkNode "BODY" []; mkNode "HTML" [];
            mkNode EmptyString []]
           H (or_introl eq_refl)).
Defined.

(** ** The classList shim: tokens and class names *)

Section ClassListProperties.
Import ClassListShim.

Lemma has_white_app a b : has_white (a ++ b)%string = has_white a || has_white b.
Proof.
  induction a as [|c r IH]; [reflexivity|].
  cbn [append has_white]. rewrite IH, orb_assoc. reflexivity.
Qed.

Lemma trim_end_fixed c r :
  trim_end (String c r) = String c r ->
  trim_end r = r /\ (is_white c = true -> r <> EmptyString).
Proof.
  cbn [trim_end]. destruct (trim_end r) as [|d t] eqn:E.
  - destruct (is_white c); [discriminate|].
    intros H. injection H as H. subst r. split; [reflexivity|discriminate].
  - intros H. injection H as H. subst r. split; [reflexivity|].
    intros _. discriminate.
Qed.

Lemma trim_end_idempotent s : trim_end (trim_end s) = trim_end s.
Proof.
  induction s as [|c r IH]; [reflexivity|].
  cbn [trim_end]. destruct (trim_end r) as [|d t] eqn:E.
  - destruct (is_white c) eqn:W; [reflexivity|].
    cbn [trim_end]. rewrite W. reflexivity.
  - cbn [trim_end]. cbn [trim_end] in IH.
    destruct (trim_end t) as [|d' t'] eqn:E'.
    + destruct (is_white d); [discriminate|]. rewrite IH. reflexivity.
    + rewrite IH. reflexivity.
Qed.

Lemma trim_end_head c r :
  is_white c = false -> exists r', trim_end (String c r) = String c r'.
Proof.
  intros W. cbn [trim_end]. destruct (trim_end r) as [|d t].
  - rewrite W. eexists. reflexivity.
  - eexists. reflexivity.
Qed.

Lemma trim_start_head s :
  trim_start s = EmptyString
  \/ exists c r, trim_start s = String c r /\ is_white c = false.
Proof.
  induction s as [|c r IH]; [left; reflexivity|].
  cbn [trim_start]. destruct (is_white c) eqn:W; [exact IH|].
  right. exists c, r. split; [reflexivity|exact W].
Qed.

Lemma valid_token_spec t :
  valid_token t = true <-> t <> EmptyString /\ has_white t = false.
Proof.
  unfold valid_token. rewrite andb_true_iff, !negb_true_iff.
  split; intros [H1 H2]; (split; [|exact H2]).
  - intros E. subst t. discriminate.
  - destruct t; [congruence|reflexivity].
Qed.

(** The pieces of a string without white space at its end, read from a
    piece [cur] without white space: all are tokens, when [cur] is not
    empty or the string goes on with a token. *)
Lemma split_from_valid s :
  forall cur in_run,
    has_white cur = false ->
    trim_end s = s ->
    (cur = EmptyString -> s <> EmptyString) ->
    (cur = EmptyString -> in_run = false ->
     match s with String c _ => is_white c = false | EmptyString => True end) ->
    Forall (fun t => valid_token t = true) (split_from s cur in_run).
Proof.
  induction s as [|c r IH]; intros cur in_run Hc Ht Hne Hhd.
  - cbn [split_from]. constructor; [|constructor].
    apply valid_token_spec. split; [|exact Hc].
    intros E. apply (Hne E). reflexivity.
  - destruct (trim_end_fixed c r Ht) as [Hr Hw].
    cbn [split_from]. destruct (is_white c) eqn:W.
    + destruct in_run.
      * apply IH; try assumption.
        -- intros _. apply Hw. reflexivity.
        -- intros _ E. discriminate.
      * constructor.
        -- apply valid_token_spec. split; [|exact Hc].
           intros E. specialize (Hhd E eq_refl). cbn in Hhd. congruence.
        -- apply IH; try reflexivity; try assumption.
           ++ intros _. apply Hw. reflexivity.
           ++ intros _ E. discriminate.
    + apply IH; try assumption.
      * rewrite has_white_app. cbn [has_white]. rewrite Hc, W. reflexivity.
      * intros E. destruct cur; discriminate.
      * intros E. destruct cur; discriminate.
Qed.

Lemma ClassList_valid baseVal :
  Forall (fun t => valid_token t = true) (ClassList baseVal).
Proof.
  unfold ClassList.
  destruct (String.eqb_spec (strTrim baseVal) EmptyString) as [E|E];
    [constructor|].
  unfold split_white, strTrim in *.
  apply split_from_valid.
  - reflexivity.
  - apply trim_end_idempotent.
  - intros _. exact E.
  - intros _ _.
    destruct (trim_start_head baseVal) as [H|[c [r [H W]]]].
    + rewrite H in E. exfalso. apply E. reflexivity.
    + rewrite H in *. destruct (trim_end_head c r W) as [r' Hr'].
      rewrite Hr'. exact W.
Qed.
Lemma trim_end_token t : has_white t = false -> trim_end t = t.
Proof.
  induction t as [|c r IH]; [reflexivity|].
  cbn [has_white]. intros H. apply orb_false_iff in H. destruct H as [W H].
  cbn [trim_end]. rewrite (IH H).
  destruct r; [rewrite W|]; reflexivity.
Qed.

Lemma trim_end_app a b :
  trim_end b = b -> b <> EmptyString ->
  trim_end (a ++ b)%string = (a ++ b)%string.
Proof.
  intros Hb Hn. induction a as [|c r IH]; [exact Hb|].
  cbn [append trim_end]. rewrite IH.
  destruct (r ++ b)%string eqn:E; [|reflexivity].
  destruct r; [|discriminate]. cbn in E. congruence.
Qed.

Lemma join_not_empty t r :
  t <> EmptyString -> join (t :: r) <> EmptyString.
Proof.
  intros H. cbn [join]. destruct r; [exact H|].
  destruct t; [congruence|discriminate].
Qed.

Lemma join_cons t u r :
  join (t :: u :: r) = (t ++ String " " (join (u :: r)))%string.
Proof. reflexivity. Qed.

Lemma trim_end_join l :
  Forall (fun t => valid_token t = true) l -> trim_end (join l) = join l.
Proof.
  induction l as [|t r IH]; intros H; [reflexivity|].
  inversion H as [|? ? Ht Hr]; subst.
  apply valid_token_spec in Ht. destruct Ht as [Hne Hw].
  destruct r as [|u r'].
  - cbn [join]. apply trim_end_token, Hw.
  - rewrite join_cons.
    apply (trim_end_app t (String " " (join (u :: r')))); [|discriminate].
    apply (trim_end_app (String " " EmptyString) (join (u :: r'))).
    + apply IH, Hr.
    + inversion Hr as [|? ? Hu _]; subst.
      apply valid_token_spec in Hu. apply join_not_empty, Hu.
Qed.

Lemma trim_start_join l :
  Forall (fun t => valid_token t = true) l -> trim_start (join l) = join l.
Proof.
  destruct l as [|t r]; intros H; [reflexivity|].
  inversion H as [|? ? Ht Hr]; subst.
  apply valid_token_spec in Ht. destruct Ht as [Hne Hw].
  destruct t as [|c t']; [congruence|].
  cbn [has_white] in Hw. apply orb_false_iff in Hw. destruct Hw as [W _].
  destruct r; cbn [join append trim_start]; rewrite W; reflexivity.
Qed.

Lemma append_assoc (a b c : string) :
  ((a ++ b) ++ c = a ++ (b ++ c))%string.
Proof.
  induction a as [|x r IH]; [reflexivity|].
  cbn [append]. rewrite IH. reflexivity.
Qed.

Lemma append_empty_r (a : string) : (a ++ EmptyString)%string = a.
Proof.
  induction a as [|x r IH]; [reflexivity|].
  cbn [append]. rewrite IH. reflexivity.
Qed.

(** Reading a token: its characters go to the piece at hand. *)
Lemma split_from_token t :
  forall rest cur in_run,
    t <> EmptyString -> has_white t = false ->
    split_from (t ++ rest)%string cur in_run
    = split_from rest (cur ++ t)%string false.
Proof.
  induction t as [|c r IH]; intros rest cur in_run Hne Hw; [congruence|].
  cbn [has_white] in Hw. apply orb_false_iff in Hw. destruct Hw as [W Hw].
  cbn [append split_from]. rewrite W.
  destruct r as [|d r'].
  - reflexivity.
  - rewrite IH by (try discriminate; exact Hw).
    rewrite append_assoc. reflexivity.
Qed.

Lemma split_from_join l :
  forall in_run,
    l <> [] -> Forall (fun t => valid_token t = true) l ->
    split_from (join l) EmptyString in_run = l.
Proof.
  induction l as [|t r IH]; intros in_run Hne H; [congruence|].
  inversion H as [|? ? Ht Hr]; subst.
  apply valid_token_spec in Ht. destruct Ht as [Hn Hw].
  destruct r as [|u r'].
  - cbn [join]. rewrite <- (append_empty_r t) at 1.
    rewrite split_from_token by assumption. reflexivity.
  - rewrite join_cons, split_from_token by assumption.
    cbn [split_from append]. change (is_white " ") with true. cbv iota.
    rewrite IH; [reflexivity|discriminate|exact Hr].
Qed.

(** X9.  Class names and token lists.  Whatever the class name of the
    element, the list built from it holds only tokens the methods accept
    (not empty, no white space).  And a class name written by
    [_updateClassName] is read back as the list it was written from: for a
    list of such tokens, the list built from its [toString] is the list
    itself. *)
Theorem classList_round_trip :
  (forall baseVal,
      Forall (fun t => valid_token t = true) (ClassList baseVal))
  /\ (forall l,
      Forall (fun t => valid_token t = true) l ->
      ClassList (toString l) = l)
  /\ (forall baseVal,
      ClassList (toString (ClassList baseVal)) = ClassList baseVal).
Proof.
  assert (R : forall l, Forall (fun t => valid_token t = true) l ->
                        ClassList (toString l) = l).
  { intros l H. unfold ClassList, toString, strTrim.
    rewrite (trim_start_join l H), (trim_end_join l H).
    destruct l as [|t r]; [reflexivity|].
    destruct (String.eqb_spec (join (t :: r)) EmptyString) as [E|E].
    - exfalso. inversion H as [|? ? Ht _]; subst.
      apply valid_token_spec in Ht.
      apply (join_not_empty t r (proj1 Ht)), E.
    - apply split_from_join; [discriminate|exact H]. }
  split; [exact ClassList_valid|]. split; [exact R|].
  intros baseVal. apply R, ClassList_valid.
Qed.

Lemma classList_round_trip_witness :
  Forall (fun t => valid_token t = true) ["align"; "top"]%string
  /\ ClassList (toString ["align"; "top"]%string) = ["align"; "top"]%string.
Proof.
  assert (H : Forall (fun t => valid_token t = true)
                ["align"; "top"]%string).
  { repeat constructor. }
  split; [exact H|].
  exact (proj1 (proj2 classList_round_trip) _ H).
Defined.
(** ** The classList shim: methods *)

Lemma check_valid l t :
  valid_token t = true ->
  checkTokenAndGetIndex l t = Return (arrIndexOf l t).
Proof.
  unfold valid_token, checkTokenAndGetIndex. intros H.
  apply andb_true_iff in H. destruct H as [H1 H2].
  apply negb_true_iff in H1, H2. rewrite H1, H2. reflexivity.
Qed.

Lemma check_invalid l t :
  valid_token t = false ->
  exists e, checkTokenAndGetIndex l t = Throw e
            /\ (ex_name e = "SYNTAX_ERR"%string
                \/ ex_name e = "INVALID_CHARACTER_ERR"%string).
Proof.
  unfold valid_token, checkTokenAndGetIndex. intros H.
  destruct (t =? EmptyString)%string.
  - eexists. split; [reflexivity|left; reflexivity].
  - cbn [negb andb] in H. apply negb_false_iff in H. rewrite H.
    eexists. split; [reflexivity|right; reflexivity].
Qed.

Lemma arrIndexOf_lower l t : -1 <= arrIndexOf l t.
Proof.
  induction l as [|x r IH]; cbn [arrIndexOf]; [lia|].
  destruct (x =? t)%string; [lia|].
  destruct (arrIndexOf r t =? -1); lia.
Qed.

Lemma arrIndexOf_none l t : arrIndexOf l t = -1 <-> ~ In t l.
Proof.
  induction l as [|x r IH]; cbn [arrIndexOf In]; [tauto|].
  pose proof (arrIndexOf_lower r t) as Hl.
  destruct (String.eqb_spec x t) as [E|E].
  - split; [discriminate|]. intros H. exfalso. apply H. left. exact E.
  - destruct (Z.eqb_spec (arrIndexOf r t) (-1)) as [I|I].
    + split; [|reflexivity]. intros _ [H|H]; [contradiction|].
      apply IH in I. contradiction.
    + split; [lia|]. intros H. exfalso. apply I, IH. tauto.
Qed.

(** The loop of [add] on tokens the methods accept. *)
Lemma add_loop_valid rest :
  forall t l u,
    forallb valid_token (t :: rest) = true ->
    exists l' u',
      add_loop t rest l u = (None, l', u')
      /\ (forall x, In x l' <-> In x l \/ In x (t :: rest))
      /\ (NoDup l -> NoDup l')
      /\ (exists added, l' = (l ++ added)%list)
      /\ (u' = true \/ (u' = u /\ l' = l))
      /\ ((forall x, In x (t :: rest) -> In x l) -> l' = l /\ u' = u).
Proof.
  induction rest as [|t2 rest' IH]; intros t l u H;
    cbn [forallb] in H; apply andb_true_iff in H; destruct H as [Ht Hr];
    cbn [add_loop]; rewrite (check_valid l t Ht);
    destruct (Z.eqb_spec (arrIndexOf l t) (-1)) as [I|I].
  - apply arrIndexOf_none in I. exists (l ++ [t])%list, true.
    split; [reflexivity|]. split; [|split; [|split; [|split]]].
    + intros x. rewrite in_app_iff. cbn [In]. tauto.
    + intros N. apply NoDup_app; [exact N|repeat constructor; tauto|].
      intros x Hx [E|[]]. subst x. contradiction.
    + exists [t]. reflexivity.
    + left. reflexivity.
    + intros Hall. exfalso. apply I, Hall. left. reflexivity.
  - assert (Hin : In t l).
    { destruct (in_dec string_dec t l) as [Y|N]; [exact Y|].
      exfalso. apply I, arrIndexOf_none, N. }
    exists l, u. split; [reflexivity|]. split; [|split; [|split; [|split]]].
    + intros x. cbn [In]. split; [tauto|].
      intros [Hx|[E|[]]]; [exact Hx|subst x; exact Hin].
    + tauto.
    + exists []. rewrite app_nil_r. reflexivity.
    + right. split; reflexivity.
    + intros _. split; reflexivity.
  - apply arrIndexOf_none in I.
    destruct (IH t2 (l ++ [t])%list true Hr)
      as [l' [u' [E [Hin [Hnd [[added Ha] [Hu Hall]]]]]]].
    exists l', u'. split; [exact E|].
    split; [|split; [|split; [|split]]].
    + intros x. rewrite Hin, in_app_iff. cbn [In]. tauto.
    + intros N. apply Hnd.
      apply NoDup_app; [exact N|repeat constructor; tauto|].
      intros x Hx [Ex|[]]. subst x. contradiction.
    + exists ([t] ++ added)%list. rewrite Ha, <- app_assoc. reflexivity.
    + left. destruct Hu as [Hu|[Hu _]]; exact Hu.
    + intros Hall'. exfalso. apply I, Hall'. left. reflexivity.
  - assert (Hin : In t l).
    { destruct (in_dec string_dec t l) as [Y|N]; [exact Y|].
      exfalso. apply I, arrIndexOf_none, N. }
    destruct (IH t2 l u Hr)
      as [l' [u' [E [Hin' [Hnd [Ha [Hu Hall]]]]]]].
    exists l', u'. split; [exact E|].
    split; [|split; [|split; [|split]]].
    + intros x. rewrite Hin'. cbn [In]. split; [tauto|].
      intros [Hx|[Ex|Hx]]; [tauto|subst x; tauto|tauto].
    + exact Hnd.
    + exact Ha.
    + exact Hu.
    + intros Hall'. apply Hall. intros x Hx. apply Hall'. right. exact Hx.
Qed.

(** X10.  [add] with tokens the methods accept does not throw; afterwards
    the list holds what it held, in place, followed by the new tokens, each
    once: a token is in it exactly when it was or is among the arguments,
    and a list without duplicates stays so.  The class name is rewritten
    from the list when a token was added, and left as it was, white space
    included, when all were there already. *)
Theorem add_tokens :
  forall t rest st,
    forallb valid_token (t :: rest) = true ->
    fst (add (t :: rest) st) = None
    /\ (forall x, In x (this (snd (add (t :: rest) st)))
                  <-> In x (this st) \/ In x (t :: rest))
    /\ (NoDup (this st) -> NoDup (this (snd (add (t :: rest) st))))
    /\ (exists added,
          this (snd (add (t :: rest) st)) = (this st ++ added)%list)
    /\ (baseVal (snd (add (t :: rest) st))
        = toString (this (snd (add (t :: rest) st)))
        \/ snd (add (t :: rest) st) = st)
    /\ ((forall x, In x (t :: rest) -> In x (this st)) ->
        snd (add (t :: rest) st) = st).
Proof.
  intros t rest st H. unfold add. cbn [first_token].
  destruct (add_loop_valid rest t (this st) false H)
    as [l' [u' [E [Hin [Hnd [Ha [Hu Hall]]]]]]].
  rewrite E. destruct st as [l b]. cbn [this baseVal] in *.
  destruct u'; cbn [fst snd this baseVal updateClassName].
  - split; [reflexivity|]. split; [exact Hin|]. split; [exact Hnd|].
    split; [exact Ha|]. split; [left; reflexivity|].
    intros Hall'. destruct (Hall Hall') as [_ Hf]. discriminate.
  - split; [reflexivity|]. split; [exact Hin|]. split; [exact Hnd|].
    split; [exact Ha|].
    destruct Hu as [Hu|[_ Hl]]; [discriminate|]. subst l'.
    split; [right; reflexivity|]. intros _. reflexivity.
Qed.

Lemma add_tokens_witness :
  forallb valid_token ["x"; "a"]%string = true
  /\ fst (add ["x"; "a"]%string (classListGetter "a   b")) = None
  /\ snd (add ["x"; "a"]%string (classListGetter "a   b"))
     = mkState ["a"; "b"; "x"]%string "a b x".
Proof.
  split; [reflexivity|]. split; [|reflexivity].
  exact (proj1 (add_tokens "x" ["a"]%string (classListGetter "a   b")
                  eq_refl)).
Defined.
Lemma add_loop_invalid rest :
  forall t l u,
    forallb valid_token (t :: rest) = false ->
    exists e l' u',
      add_loop t rest l u = (Some e, l', u')
      /\ (ex_name e = "SYNTAX_ERR"%string
          \/ ex_name e = "INVALID_CHARACTER_ERR"%string).
Proof.
  induction rest as [|t2 rest' IH]; intros t l u H;
    cbn [forallb] in H; cbn [add_loop];
    destruct (valid_token t) eqn:Ht.
  - discriminate.
  - destruct (check_invalid l t Ht) as [e [E N]]. rewrite E.
    exists e, l, u. split; [reflexivity|exact N].
  - rewrite (check_valid l t Ht). cbn [andb] in H.
    destruct (arrIndexOf l t =? -1); apply IH; exact H.
  - destruct (check_invalid l t Ht) as [e [E N]]. rewrite E.
    exists e, l, u. split; [reflexivity|exact N].
Qed.

Lemma remove_loop_invalid rest :
  forall t l u,
    forallb valid_token (t :: rest) = false ->
    exists e l' u',
      remove_loop t rest l u = (Some e, l', u')
      /\ (ex_name e = "SYNTAX_ERR"%string
          \/ ex_name e = "INVALID_CHARACTER_ERR"%string).
Proof.
  induction rest as [|t2 rest' IH]; intros t l u H;
    cbn [forallb] in H; cbn [remove_loop];
    destruct (valid_token t) eqn:Ht.
  - discriminate.
  - destruct (check_invalid l t Ht) as [e [E N]]. rewrite E.
    exists e, l, u. split; [reflexivity|exact N].
  - rewrite (check_valid l t Ht). cbn [andb] in H.
    destruct (negb (arrIndexOf l t =? -1)); apply IH; exact H.
  - destruct (check_invalid l t Ht) as [e [E N]]. rewrite E.
    exists e, l, u. split; [reflexivity|exact N].
Qed.

(** X11.  A token that is empty or holds white space makes [add] and
    [remove] throw (SYNTAX_ERR or INVALID_CHARACTER_ERR), wherever it stands
    among the arguments, and then the class name of the element is not
    written: the valid tokens before it are lost with the list object.
    [toggle] with such a token throws and changes nothing. *)
Theorem invalid_token_changes_nothing :
  forall t rest st,
    forallb valid_token (t :: rest) = false ->
    (exists e, fst (add (t :: rest) st) = Some e
               /\ (ex_name e = "SYNTAX_ERR"%string
                   \/ ex_name e = "INVALID_CHARACTER_ERR"%string))
    /\ baseVal (snd (add (t :: rest) st)) = baseVal st
    /\ (exists e, fst (remove (t :: rest) st) = Some e
                  /\ (ex_name e = "SYNTAX_ERR"%string
                      \/ ex_name e = "INVALID_CHARACTER_ERR"%string))
    /\ baseVal (snd (remove (t :: rest) st)) = baseVal st
    /\ (valid_token t = false ->
        forall force, exists e, toggle t force st = (Throw e, st)).
Proof.
  intros t rest st H.
  destruct (add_loop_invalid rest t (this st) false H)
    as [e1 [l1 [u1 [E1 N1]]]].
  destruct (remove_loop_invalid rest t (this st) false H)
    as [e2 [l2 [u2 [E2 N2]]]].
  unfold add, remove. cbn [first_token]. rewrite E1, E2.
  cbn [fst snd baseVal].
  split; [exists e1; split; [reflexivity|exact N1]|].
  split; [reflexivity|].
  split; [exists e2; split; [reflexivity|exact N2]|].
  split; [reflexivity|].
  intros Ht force. unfold toggle, contains_token.
  destruct (check_invalid (this st) t Ht) as [e [E _]]. rewrite E.
  exists e. reflexivity.
Qed.

Lemma invalid_token_changes_nothing_witness :
  forallb valid_token ["z"; "not one"]%string = false
  /\ baseVal (snd (add ["z"; "not one"]%string (classListGetter "a b")))
     = "a b"%string.
Proof.
  split; [reflexivity|].
  exact (proj1 (proj2 (invalid_token_changes_nothing "z" ["not one"]%string
                         (classListGetter "a b") eq_refl))).
Defined.



(** The first occurrence of a token sits at the length of what stands
    before it, and [splice] takes it out there. *)
Lemma arrIndexOf_first l1 l2 t :
  ~ In t l1 ->
  arrIndexOf (l1 ++ t :: l2)%list t = Z.of_nat (List.length l1).
Proof.
  induction l1 as [|x r IH]; intros N; cbn [app arrIndexOf List.length].
  - rewrite String.eqb_refl. reflexivity.
  - destruct (String.eqb_spec x t) as [E|E].
    + exfalso. apply N. left. exact E.
    + rewrite IH by (intros H; apply N; right; exact H).
      destruct (Z.eqb_spec (Z.of_nat (List.length r)) (-1)); lia.
Qed.

Lemma splice1_app l1 x l2 :
  splice1 (l1 ++ x :: l2)%list (List.length l1) = (l1 ++ l2)%list.
Proof.
  induction l1 as [|y r IH]; cbn [app List.length splice1];
    [reflexivity|rewrite IH; reflexivity].
Qed.

Lemma splice1_first l1 l2 t :
  ~ In t l1 ->
  arrIndexOf (l1 ++ t :: l2)%list t <> -1
  /\ splice1 (l1 ++ t :: l2)%list
       (Z.to_nat (arrIndexOf (l1 ++ t :: l2)%list t))
     = (l1 ++ l2)%list.
Proof.
  intros N. rewrite (arrIndexOf_first l1 l2 t N). split; [lia|].
  rewrite Nat2Z.id. apply splice1_app.
Qed.



(** [remove] of one token that is in the list, and of one that is not. *)
Lemma remove_one t st :
  valid_token t = true ->
  (forall l1 l2,
      this st = (l1 ++ t :: l2)%list -> ~ In t l1 ->
      remove [t] st = (None, mkState (l1 ++ l2) (toString (l1 ++ l2))))
  /\ (~ In t (this st) -> remove [t] st = (None, st)).
Proof.
  intros Hv. unfold remove. cbn [first_token remove_loop].
  rewrite (check_valid (this st) t Hv). split.
  - intros l1 l2 E N. rewrite E.
    destruct (splice1_first l1 l2 t N) as [I S].
    apply Z.eqb_neq in I. rewrite I. cbn [negb]. rewrite S. reflexivity.
  - intros N. apply arrIndexOf_none in N. rewrite N.
    change (negb (-1 =? -1)) with false. cbv iota.
    destruct st; reflexivity.
Qed.



(** X13.  [toggle] answers whether the token was absent before the call,
    whatever [force] is: with [force] true and the token present it answers
    false and changes nothing, with [force] false and the token absent it
    answers true and changes nothing.  Otherwise a present token loses its
    first occurrence, the other tokens staying in their order (the list
    [l1 ++ t :: l2] with no [t] in [l1] becomes [l1 ++ l2]), and an absent
    one is appended; the class name is rewritten from the list. *)
Theorem toggle_token :
  forall t force st,
    valid_token t = true ->
    (In t (this st) ->
     fst (toggle t force st) = Return false
     /\ (force = Some true -> snd (toggle t force st) = st)
     /\ (force <> Some true ->
         forall l1 l2,
           this st = (l1 ++ t :: l2)%list -> ~ In t l1 ->
           snd (toggle t force st)
           = mkState (l1 ++ l2) (toString (l1 ++ l2))))
    /\ (~ In t (this st) ->
     fst (toggle t force st) = Return true
     /\ (force = Some false -> snd (toggle t force st) = st)
     /\ (force <> Some false ->
         snd (toggle t force st)
         = mkState (this st ++ [t]) (toString (this st ++ [t])))).
Proof.
  intros t force st Hv. unfold toggle, contains_token.
  rewrite (check_valid (this st) t Hv).
  destruct (remove_one t st Hv) as [One _].
  destruct (Z.eqb_spec (arrIndexOf (this st) t) (-1)) as [I|I];
    cbn [negb]; (split; intros Hin).
  - exfalso. apply arrIndexOf_none in I. contradiction.
  - destruct force as [[|]|];
      unfold add; cbn [first_token add_loop];
      rewrite ?(check_valid (this st) t Hv), ?I;
      change (-1 =? -1) with true; cbv iota;
      cbn [fst snd updateClassName this baseVal];
      (split; [reflexivity|]);
      (split; [intros E; first [discriminate E|reflexivity]|]);
      intros N; first [reflexivity|exfalso; apply N; reflexivity].
  - assert (Ex : exists l1 l2, this st = (l1 ++ t :: l2)%list /\ ~ In t l1).
    { clear - Hin. induction (this st) as [|x r IH]; [destruct Hin|].
      destruct (string_dec x t) as [E|E].
      - subst x. exists [], r. split; [reflexivity|intros []].
      - destruct Hin as [F|Hin]; [contradiction|].
        destruct (IH Hin) as [l1 [l2 [E1 N1]]].
        exists (x :: l1), l2. split; [rewrite E1; reflexivity|].
        intros [F|F]; [contradiction|exact (N1 F)]. }
    destruct Ex as [f1 [f2 [Ef Nf]]].
    pose proof (One f1 f2 Ef Nf) as R.
    destruct force as [[|]|]; rewrite ?R; cbn [fst snd];
      (split; [reflexivity|]);
      (split; [intros F; first [discriminate F|reflexivity]|]);
      intros N; try (exfalso; apply N; reflexivity);
      intros l1 l2 E1 N1; rewrite (One l1 l2 E1 N1) in R;
      injection R as R; rewrite R; reflexivity.
  - exfalso. apply Hin.
    destruct (in_dec string_dec t (this st)) as [Y|N]; [exact Y|].
    exfalso. apply I, arrIndexOf_none, N.
Qed.

Lemma toggle_token_witness :
  valid_token "top" = true
  /\ In "top"%string (this (classListGetter "top align top"))
  /\ fst (toggle "top" None (classListGetter "top align top"))
     = Return false
  /\ snd (toggle "top" None (classListGetter "top align top"))
     = mkState ["align"; "top"]%string "align top".
Proof.
  assert (H : In "top"%string (this (classListGetter "top align top")))
    by (left; reflexivity).
  split; [reflexivity|]. split; [exact H|].
  pose proof (proj1 (toggle_token "top" None
                       (classListGetter "top align top") eq_refl) H)
    as [R [_ S]].
  split; [exact R|].
  exact (S ltac:(discriminate) [] ["align"; "top"]%string eq_refl
           (fun F => F)).
Defined.

(** X15.  Reading the list of an element.  No token of it is empty, so the
    [|| null] of [item] never hides one: [item( i )] is the token at index
    [i] below the length, and [null] exactly from the length on.  [contains]
    with a token the methods accept answers whether it is in the list. *)
Theorem item_and_contains :
  forall className t,
    valid_token t = true ->
    (forall i, item (classListGetter className) i
               = nth_error (ClassList className) i)
    /\ (forall i, item (classListGetter className) i = None
                  <-> (List.length (ClassList className) <= i)%nat)
    /\ (contains_token (classListGetter className) t = Return true
        <-> In t (ClassList className))
    /\ (contains_token (classListGetter className) t = Return false
        <-> ~ In t (ClassList className)).
Proof.
  intros className t Hv.
  assert (I : forall i, item (classListGetter className) i
                        = nth_error (ClassList className) i).
  { intros i. unfold item, classListGetter. cbn [this].
    destruct (nth_error (ClassList className) i) as [x|] eqn:E;
      [|reflexivity].
    apply nth_error_In in E.
    pose proof (ClassList_valid className) as V.
    rewrite Forall_forall in V. apply V, valid_token_spec in E.
    destruct E as [E _]. apply String.eqb_neq in E. rewrite E.
    reflexivity. }
  split; [exact I|]. split; [intros i; rewrite I; apply nth_error_None|].
  unfold contains_token, classListGetter. cbn [this].
  rewrite (check_valid (ClassList className) t Hv).
  pose proof (arrIndexOf_none (ClassList className) t) as N.
  destruct (Z.eqb_spec (arrIndexOf (ClassList className) t) (-1)) as [E|E];
    cbn [negb].
  - split; split; intros H.
    + discriminate.
    + exfalso. apply (proj1 N E). exact H.
    + exact (proj1 N E).
    + reflexivity.
  - assert (Y : In t (ClassList className)).
    { destruct (in_dec string_dec t (ClassList className)) as [Y|Y];
        [exact Y|]. exfalso. apply E, N, Y. }
    split; split; intros H.
    + exact Y.
    + reflexivity.
    + discriminate.
    + exfalso. apply H. exact Y.
Qed.

Lemma item_and_contains_witness :
  valid_token "top" = true
  /\ item (classListGetter "  align   top ") 1 = Some "top"%string
  /\ item (classListGetter "  align   top ") 2 = None.
Proof.
  split; [reflexivity|]. split; [|reflexivity].
  rewrite (proj1 (item_and_contains "  align   top " "top" eq_refl) 1%nat).
  reflexivity.
Defined.
End ClassListProperties.

(** ** Inlining an SVG image: the attributes of the new element *)

Section InlineSVGProperties.
Import InlineSVG.

Lemma get_set_same a k v : getAttribute (setAttribute a k v) k = Some v.
Proof.
  induction a as [|[k' v'] r IH]; cbn [setAttribute getAttribute].
  - rewrite String.eqb_refl. reflexivity.
  - destruct (String.eqb_spec k' k) as [E|E]; cbn [getAttribute].
    + subst k'. rewrite String.eqb_refl. reflexivity.
    + apply String.eqb_neq in E. rewrite E. exact IH.
Qed.

Lemma get_set_other a k v k' :
  k' <> k -> getAttribute (setAttribute a k v) k' = getAttribute a k'.
Proof.
  intros N. induction a as [|[k0 v0] r IH]; cbn [setAttribute getAttribute].
  - destruct (String.eqb_spec k k'); [congruence|reflexivity].
  - destruct (String.eqb_spec k0 k) as [E|E]; cbn [getAttribute].
    + subst k0. destruct (String.eqb_spec k k'); [congruence|reflexivity].
    + rewrite IH. reflexivity.
Qed.

Lemma written_false k :
  written k = false ->
  k <> "id"%string /\ k <> "class"%string /\ k <> "style"%string
  /\ k <> "preserveAspectRatio"%string /\ k <> "viewBox"%string
  /\ k <> "width"%string /\ k <> "height"%string.
Proof.
  unfold written. cbn [existsb]. intros H.
  repeat (apply orb_false_iff in H; destruct H as [?H H]).
  repeat split; intros E; subst k; discriminate.
Qed.

Ltac attr :=
  repeat first
    [ rewrite get_set_same
    | rewrite get_set_other by (first [discriminate | assumption]) ].

(** X14.  The image is replaced exactly when the request is done
    ([readyState] 4), the status is in 200..299, the answer is XML and its
    root is an SVG element.  The element put in its place has the [width] and
    [height] of the image as it is rendered, a [viewBox] made of the file's
    own [width] and [height] attributes (the text null for a missing one),
    [preserveAspectRatio] xMinYMin meet, and the image's [id], [class]
    (followed by inlined-svg) and [style] where the image has them, the
    file's own otherwise; every other attribute of the file is kept. *)
Theorem inlined_svg_attributes :
  forall img readyState status responseXML,
    ((exists svg,
         snd (onreadystatechange img readyState status responseXML)
         = Replaced svg)
     <-> readyState = 4 /\ 200 <= status < 300
         /\ exists response,
              responseXML = Some response
              /\ instanceof_SVGElement response = true)
    /\ (forall svg response,
          responseXML = Some response ->
          snd (onreadystatechange img readyState status responseXML)
          = Replaced svg ->
          let file := documentElement response in
          let from_img name := getAttribute (img_attributes img) name in
          getAttribute svg "width" = Some (decimal (img_width img))
          /\ getAttribute svg "height" = Some (decimal (img_height img))
          /\ getAttribute svg "viewBox"
             = Some ("0 0 " ++ concat_value (getAttribute file "width")
                     ++ " " ++ concat_value (getAttribute file "height"))%string
          /\ getAttribute svg "preserveAspectRatio"
             = Some "xMinYMin meet"%string
          /\ getAttribute svg "id"
             = (if truthy (from_img "id"%string) then from_img "id"%string
                else getAttribute file "id")
          /\ getAttribute svg "class"
             = (if truthy (from_img "class"%string)
                then Some (concat_value (from_img "class"%string)
                           ++ " inlined-svg")%string
                else getAttribute file "class")
          /\ getAttribute svg "style"
             = (if truthy (from_img "style"%string)
                then from_img "style"%string
                else getAttribute file "style")
          /\ (forall name, written name = false ->
                           getAttribute svg name = getAttribute file name)).
Proof.
  intros img readyState status responseXML. unfold onreadystatechange.
  destruct (Z.eqb_spec readyState 4) as [R|R].
  2:{ cbn [snd]. split; [|intros ? ? _; discriminate].
      split; [intros [svg H]; discriminate|intros [H _]; contradiction]. }
  destruct ((200 <=? status) && (status <? 300)) eqn:St.
  2:{ cbn [snd]. split; [|intros ? ? _; discriminate].
      split; [intros [svg H]; discriminate|].
      intros [_ [H _]]. exfalso.
      apply andb_false_iff in St.
      destruct St as [St|St]; [apply Z.leb_gt in St|apply Z.ltb_ge in St];
        lia. }
  apply andb_true_iff in St. destruct St as [S1 S2].
  apply Z.leb_le in S1. apply Z.ltb_lt in S2.
  destruct responseXML as [response|].
  2:{ cbn [snd]. split; [|intros ? ? _; discriminate].
      split; [intros [svg H]; discriminate|].
      intros [_ [_ [r [H _]]]]. discriminate. }
  destruct (instanceof_SVGElement response) eqn:I; cbn [negb snd].
  2:{ split; [|intros ? ? _; discriminate].
      split; [intros [svg H]; discriminate|].
      intros [_ [_ [r [E H]]]]. injection E as E. subst r. congruence. }
  split.
  { split.
    - intros _. split; [exact R|]. split; [lia|].
      exists response. split; [reflexivity|exact I].
    - intros _. eexists. reflexivity. }
  intros svg r E H. injection E as E. subst r.
  injection H as H. subst svg. cbv zeta.
  assert (Tid : forall o, truthy o = true -> Some (concat_value o) = o).
  { intros [x|]; [reflexivity|discriminate]. }
  split; [attr; reflexivity|]. split; [attr; reflexivity|].
  split.
  { destruct (truthy (getAttribute (img_attributes img) "id")),
             (truthy (getAttribute (img_attributes img) "class")),
             (truthy (getAttribute (img_attributes img) "style"));
      attr; reflexivity. }
  split; [attr; reflexivity|].
  split.
  { destruct (truthy (getAttribute (img_attributes img) "id")) eqn:T1,
             (truthy (getAttribute (img_attributes img) "class")),
             (truthy (getAttribute (img_attributes img) "style"));
      attr; first [apply Tid, T1 | reflexivity]. }
  split.
  { destruct (truthy (getAttribute (img_attributes img) "id")),
             (truthy (getAttribute (img_attributes img) "class")),
             (truthy (getAttribute (img_attributes img) "style"));
      attr; reflexivity. }
  split.
  { destruct (truthy (getAttribute (img_attributes img) "id")),
             (truthy (getAttribute (img_attributes img) "class")),
             (truthy (getAttribute (img_attributes img) "style")) eqn:T3;
      attr; first [apply Tid, T3 | reflexivity]. }
  intros name W. apply written_false in W.
  destruct W as [W1 [W2 [W3 [W4 [W5 [W6 W7]]]]]].
  destruct (truthy (getAttribute (img_attributes img) "id")),
           (truthy (getAttribute (img_attributes img) "class")),
           (truthy (getAttribute (img_attributes img) "style"));
    attr; reflexivity.
Qed.

Lemma inlined_svg_attributes_witness :
  snd (onreadystatechange sample_img 4 200 sample_svg)
  = Replaced
      [("xmlns", "http://www.w3.org/2000/svg"); ("height", "200");
       ("id", "logo"); ("class", "align top inlined-svg");
       ("preserveAspectRatio", "xMinYMin meet");
       ("viewBox", "0 0 null 50"); ("width", "320")]%string
  /\ getAttribute
       [("xmlns", "http://www.w3.org/2000/svg"); ("height", "200");
        ("id", "logo"); ("class", "align top inlined-svg");
        ("preserveAspectRatio", "xMinYMin meet");
        ("viewBox", "0 0 null 50"); ("width", "320")]%string "viewBox"
     = Some "0 0 null 50"%string.
Proof.
  assert (H : snd (onreadystatechange sample_img 4 200 sample_svg)
              = Replaced
                  [("xmlns", "http://www.w3.org/2000/svg");
                   ("height", "200"); ("id", "logo");
                   ("class", "align top inlined-svg");
                   ("preserveAspectRatio", "xMinYMin meet");
                   ("viewBox", "0 0 null 50"); ("width", "320")]%string)
    by (vm_compute; reflexivity).
  split; [exact H|].
  exact (proj1 (proj2 (proj2 (proj2 (inlined_svg_attributes sample_img 4 200
                                       sample_svg) _ _ eq_refl H)))).
Defined.
End InlineSVGProperties.
